(** * MutaView: the structural comparison core of the structure viewer

    A shallow embedding of the helpers of
    [src/app/components/StructureViewer.tsx]: the CA-atom parser
    [parseCaAtoms], the per-residue distance [computePerResidueRmsd], the
    per-atom colour callback [colorfunc] and the load/cancel protocol of
    [load3Dmol] and of the component's main effect.

    JavaScript numbers are IEEE 754 binary64 values; they are modelled by the
    primitive floats of the standard library, whose operations are specified
    by the [SpecFloat] functions ([add_spec], [sub_spec], ...).  A JavaScript
    string is modelled by a [string] of 8-bit code units (the PDB format is
    ASCII), a [Map] by an association list in insertion order. *)

From Stdlib Require Import ZArith NArith List Bool Ascii String Lia Floats.
Import ListNotations.

Set Implicit Arguments.

(* ------------------------------------------------------------------ *)
(** * Strings                                                           *)
(* ------------------------------------------------------------------ *)

Module JsString.

Open Scope string_scope.

(** [s.split("\n")]: the pieces between line feeds; the empty string gives
    one empty piece. *)
Fixpoint split_lines (s : string) : list string :=
  match s with
  | EmptyString => [EmptyString]
  | String c s' =>
      if Ascii.eqb c "010"%char then EmptyString :: split_lines s'
      else match split_lines s' with
           | [] => [String c EmptyString]
           | l :: ls => String c l :: ls
           end
  end.

(** [s.startsWith(p)] *)
Definition startsWith (p s : string) : bool := String.prefix p s.

(** [s.substring(a, b)]: both indices are clamped to the length and swapped
    when [a > b]. *)
Definition substring (a b : nat) (s : string) : string :=
  String.substring (Nat.min a b) (Nat.max a b - Nat.min a b) s.

(** White space and line terminators among the code units below 256:
    TAB, LF, VT, FF, CR, SP and NBSP. *)
Definition is_space (c : ascii) : bool :=
  let n := nat_of_ascii c in
  ((9 <=? n) && (n <=? 13) || (n =? 32) || (n =? 160))%nat.

Fixpoint trimStart (s : string) : string :=
  match s with
  | EmptyString => EmptyString
  | String c s' => if is_space c then trimStart s' else s
  end.

(** [trimEnd] keeps a character when it is not a space or when something
    remains after it. *)
Fixpoint trimEnd (s : string) : string :=
  match s with
  | EmptyString => EmptyString
  | String c s' =>
      match trimEnd s' with
      | EmptyString => if is_space c then EmptyString else String c EmptyString
      | t => String c t
      end
  end.

(** [s.trim()] *)
Definition trim (s : string) : string := trimEnd (trimStart s).

Definition is_digit (c : ascii) : bool :=
  let n := nat_of_ascii c in ((48 <=? n) && (n <=? 57))%nat.

Definition digit_val (c : ascii) : Z := Z.of_nat (nat_of_ascii c) - 48.

(** The longest prefix of decimal digits and what follows it. *)
Fixpoint span_digits (s : string) : string * string :=
  match s with
  | EmptyString => (EmptyString, EmptyString)
  | String c s' =>
      if is_digit c then let (d, r) := span_digits s' in (String c d, r)
      else (EmptyString, s)
  end.

(** The value of a digit string, most significant digit first. *)
Fixpoint digits_value (acc : Z) (s : string) : Z :=
  match s with
  | EmptyString => acc
  | String c s' => digits_value (10 * acc + digit_val c) s'
  end.

(** An optional sign: [true] for ["-"]. *)
Definition take_sign (s : string) : bool * string :=
  match s with
  | String "-"%char s' => (true, s')
  | String "+"%char s' => (false, s')
  | _ => (false, s)
  end.

End JsString.

(* ------------------------------------------------------------------ *)
(** * Numbers                                                           *)
(* ------------------------------------------------------------------ *)

Module JsNumber.

Import JsString.

(** The Number value of the integer [n]. *)
Definition of_Z (n : Z) : float :=
  SF2Prim (binary_normalize prec emax n 0 false).

(** The Number value of [(-1)^neg * m * 10^e]: the nearest binary64 value,
    ties to even; a zero keeps the sign of the literal. *)
Definition of_decimal (neg : bool) (m : Z) (e : Z) : float :=
  match m with
  | Z0 => if neg then neg_zero else zero
  | Zneg _ => nan
  | Zpos _ =>
      if (0 <=? e)%Z
      then SF2Prim (binary_normalize prec emax
                      (cond_Zopp neg (m * 10 ^ e)) 0 false)
      else let '(q, e', l) :=
             SFdiv_core_binary prec emax m 0 (10 ^ (- e)) 0 in
           SF2Prim (binary_round_aux prec emax neg q e' l)
  end.

(** [isNaN(x)] *)
Definition isNaN (x : float) : bool := is_nan x.

(** [parseInt(s, 10)]: leading white space, an optional sign, then the
    longest run of decimal digits; [None] stands for [NaN], [Some n] for the
    Number [n].  This is the result of JavaScript where the integer of the
    digits is below [2^53], as for every run of up to 15 digits: there the
    Number holds the integer exactly.  From [2^53] on JavaScript returns the
    nearest Number, which [Some n] does not model.  The parsers of the
    structure text pass at most four characters; a statement on a longer run
    carries the bound [2^53]. *)
Definition parseInt (s : string) : option Z :=
  let (neg, r) := take_sign (trimStart s) in
  let (ds, _) := span_digits r in
  match ds with
  | EmptyString => None
  | _ => Some (cond_Zopp neg (digits_value 0 ds))
  end.

(** The exponent part of a decimal literal, when it is complete: [e] or [E],
    an optional sign and at least one digit. *)
Definition exponent_part (s : string) : Z :=
  match s with
  | String c r =>
      if (Ascii.eqb c "e" || Ascii.eqb c "E")%bool then
        let (neg, r') := take_sign r in
        let (ds, _) := span_digits r' in
        match ds with
        | EmptyString => 0
        | _ => cond_Zopp neg (digits_value 0 ds)
        end
      else 0
  | EmptyString => 0
  end%Z.

(** [parseFloat(s)]: leading white space, then the longest prefix that is a
    decimal literal ([Infinity], digits with an optional fraction and
    exponent, or a fraction that starts with the point); [NaN] when there is
    none. *)
Definition parseFloat (s : string) : float :=
  let (neg, r) := take_sign (trimStart s) in
  if startsWith "Infinity" r then (if neg then neg_infinity else infinity)
  else
    let (ip, r1) := span_digits r in
    let (fp, r2) :=
      match r1 with
      | String "."%char r1' => span_digits r1'
      | _ => (EmptyString, r1)
      end in
    match ip, fp with
    | EmptyString, EmptyString => nan
    | _, _ =>
        of_decimal neg (digits_value 0 (ip ++ fp))
                   (exponent_part r2 - Z.of_nat (String.length fp))
    end.

(** [Math.round(x)]: [x] itself when it is not finite or is an integer,
    otherwise [floor(x + 1/2)] computed exactly; a zero result takes the
    sign of [x]. *)
Definition Math_round (x : float) : float :=
  match Prim2SF x with
  | S754_finite s m e =>
      if (0 <=? e)%Z then x
      else
        let n := Z.shiftr (2 * cond_Zopp s (Zpos m) + Z.shiftl 1 (- e))
                          (1 - e) in
        if (n =? 0)%Z then (if s then neg_zero else zero) else of_Z n
  | _ => x
  end.

(** One step of [Math.min]: [NaN] is absorbing, [-0] is below [+0]. *)
Definition min_step (lowest number : float) : float :=
  if (is_nan lowest || is_nan number)%bool then nan
  else if (is_zero number && is_zero lowest
           && get_sign number && negb (get_sign lowest))%bool then number
  else if (number <? lowest)%float then number
  else lowest.

(** [Math.min(a, b)] *)
Definition Math_min (a b : float) : float :=
  min_step (min_step infinity a) b.

End JsNumber.

(* ------------------------------------------------------------------ *)
(** * Maps                                                              *)
(* ------------------------------------------------------------------ *)

(** A [Map<number, V>] whose keys are integers: the entries in insertion
    order.  [set] on a key that is present replaces the value where the
    entry stands, on a new key it appends the entry; iteration follows the
    list. *)
Module JsMap.

Section Map.
Variable V : Type.

Definition t := list (Z * V).

Definition empty : t := [].

Fixpoint get (k : Z) (m : t) : option V :=
  match m with
  | [] => None
  | (k', v) :: m' => if (k =? k')%Z then Some v else get k m'
  end.

Fixpoint set (k : Z) (v : V) (m : t) : t :=
  match m with
  | [] => [(k, v)]
  | (k', v') :: m' =>
      if (k =? k')%Z then (k', v) :: m' else (k', v') :: set k v m'
  end.

Definition keys (m : t) : list Z := map fst m.

(** The invariant of a [Map]: one entry per key. *)
Definition wf (m : t) : Prop := NoDup (keys m).

End Map.

Arguments empty {V}.

End JsMap.

(* ------------------------------------------------------------------ *)
(** * The helpers of the viewer                                         *)
(* ------------------------------------------------------------------ *)

Import JsString JsNumber.
Open Scope float_scope.

(** [{ x: number; y: number; z: number }] *)
Record coord := { x : float; y : float; z : float }.

(** The body of the loop of [parseCaAtoms] for one line. *)
Definition parse_line (atoms : JsMap.t coord) (line : string)
  : JsMap.t coord :=
  if negb (startsWith "ATOM  " line) then atoms
  else
    let atomName := trim (JsString.substring 12 16 line) in
    if negb (String.eqb atomName "CA") then atoms
    else
      let resi := parseInt (trim (JsString.substring 22 26 line)) in
      let x := parseFloat (trim (JsString.substring 30 38 line)) in
      let y := parseFloat (trim (JsString.substring 38 46 line)) in
      let z := parseFloat (trim (JsString.substring 46 54 line)) in
      match resi with
      | Some resi =>
          if (negb (isNaN x) && negb (isNaN y) && negb (isNaN z))%bool
          then JsMap.set resi {| x := x; y := y; z := z |} atoms
          else atoms
      | None => atoms
      end.

(** [parseCaAtoms(pdb)] *)
Definition parseCaAtoms (pdb : string) : JsMap.t coord :=
  fold_left parse_line (split_lines pdb) JsMap.empty.

(** [Math.sqrt(dx * dx + dy * dy + dz * dz)] for the two coordinate
    triples. *)
Definition distance (wCoord mCoord : coord) : float :=
  let dx := x wCoord - x mCoord in
  let dy := y wCoord - y mCoord in
  let dz := z wCoord - z mCoord in
  sqrt (dx * dx + dy * dy + dz * dz).

(** The body of the loop of [computePerResidueRmsd] for one entry of
    [wildCa]. *)
Definition rmsd_step (mutantCa : JsMap.t coord) (rmsdMap : JsMap.t float)
    (entry : Z * coord) : JsMap.t float :=
  let (resi, wCoord) := entry in
  match JsMap.get resi mutantCa with
  | None => rmsdMap
  | Some mCoord => JsMap.set resi (distance wCoord mCoord) rmsdMap
  end.

(** [computePerResidueRmsd(wildCa, mutantCa)] *)
Definition computePerResidueRmsd (wildCa mutantCa : JsMap.t coord)
  : JsMap.t float :=
  fold_left (rmsd_step mutantCa) wildCa JsMap.empty.

(** The three numbers that [colorfunc] joins into ["rgb(r,g,b)"]. *)
Record rgb := { red : float; green : float; blue : float }.

(** The colour of a displacement: the body of [colorfunc] after the
    lookup. *)
Definition ramp (rmsd : float) : rgb :=
  if rmsd <? 2 then
    let t := rmsd / 2 in
    {| red := Math_round 255;
       green := Math_round 255;
       blue := Math_round (255 * (1 - t)) |}
  else
    let t := Math_min ((rmsd - 2) / 3) 1 in
    {| red := 255;
       green := Math_round (255 * (1 - t));
       blue := 0 |}.

(** [colorfunc(atom)], with [resi] for [atom.resi]:
    [rmsdMap.get(atom.resi) ?? 0] and then the ramp. *)
Definition colorfunc (rmsdMap : JsMap.t float) (resi : Z) : rgb :=
  let rmsd := match JsMap.get resi rmsdMap with
              | Some v => v
              | None => 0
              end in
  ramp rmsd.

(** The decimal digits of a positive integer. *)
Fixpoint digits_of (fuel : nat) (n : Z) (acc : string) : string :=
  match fuel with
  | O => acc
  | S fuel' =>
      let acc' := String (ascii_of_nat (48 + Z.to_nat (n mod 10))) acc in
      if (n <? 10)%Z then acc' else digits_of fuel' (n / 10) acc'
  end.

Definition show_Z (n : Z) : string :=
  match n with
  | Z0 => "0"
  | Zpos _ => digits_of (S (Z.to_nat (Z.log2 n))) n ""
  | Zneg _ => String "-" (digits_of (S (Z.to_nat (Z.log2 (- n)))) (- n) "")
  end.

(** [String(x)] where it takes no fraction digits and no exponent: [NaN],
    the infinities, and the integers below [10^21]; [None] elsewhere. *)
Definition Number_toString (x : float) : option string :=
  match Prim2SF x with
  | S754_nan => Some "NaN"%string
  | S754_zero _ => Some "0"%string
  | S754_infinity s => Some (if s then "-Infinity" else "Infinity")%string
  | S754_finite s m e =>
      if (0 <=? e)%Z then
        let n := (Zpos m * 2 ^ e)%Z in
        if (n <? 10 ^ 21)%Z then Some (show_Z (cond_Zopp s n)) else None
      else if (Z.land (Zpos m) (Z.ones (- e)) =? 0)%Z
           then Some (show_Z (cond_Zopp s (Z.shiftr (Zpos m) (- e))))
           else None
  end.

(** ["rgb(" + r + "," + g + "," + b + ")"] *)
Definition css (c : rgb) : option string :=
  match Number_toString (red c), Number_toString (green c),
        Number_toString (blue c) with
  | Some r, Some g, Some b =>
      Some ("rgb(" ++ r ++ "," ++ g ++ "," ++ b ++ ")")%string
  | _, _, _ => None
  end.

(* ------------------------------------------------------------------ *)
(** * Vocabulary of the statements                                      *)
(* ------------------------------------------------------------------ *)

(** A number that is neither [NaN] nor negative: [+0], a positive finite
    number or [+Infinity], read on the specification side. *)
Definition sf_pos (p : spec_float) : bool :=
  match p with
  | S754_zero false | S754_infinity false | S754_finite false _ _ => true
  | _ => false
  end.

(** A number that is a zero or finite, read on the specification side. *)
Definition sf_finite (p : spec_float) : bool :=
  match p with
  | S754_zero _ | S754_finite _ _ _ => true
  | _ => false
  end.

(** The three coordinates are finite numbers. *)
Definition finite_coord (c : coord) : bool :=
  (is_finite (x c) && is_finite (y c) && is_finite (z c))%bool.

(** The entry that one line contributes to the map of [parseCaAtoms], when
    it passes the tests of the loop body: an [ATOM] record of a [CA] atom
    whose residue number and three coordinates are numbers. *)
Definition record_of (line : string) : option (Z * coord) :=
  if (startsWith "ATOM  " line
      && String.eqb (trim (JsString.substring 12 16 line)) "CA")%bool
  then
    let x := parseFloat (trim (JsString.substring 30 38 line)) in
    let y := parseFloat (trim (JsString.substring 38 46 line)) in
    let z := parseFloat (trim (JsString.substring 46 54 line)) in
    match parseInt (trim (JsString.substring 22 26 line)) with
    | Some resi =>
        if (isNaN x || isNaN y || isNaN z)%bool then None
        else Some (resi, {| x := x; y := y; z := z |})
    | None => None
    end
  else None.

(** The structure text made of the given lines. *)
Fixpoint join_lines (ls : list string) : string :=
  match ls with
  | [] => EmptyString
  | [l] => l
  | l :: ls' => (l ++ String "010" (join_lines ls'))%string
  end.

(** A line holds no line feed. *)
Fixpoint single_line (l : string) : bool :=
  match l with
  | EmptyString => true
  | String c l' => (negb (Ascii.eqb c "010") && single_line l')%bool
  end.

(** The colours of the stops of the displacement ramp. *)
Definition white : rgb := {| red := 255; green := 255; blue := 255 |}.

(** Reads the operations of a goal on the specification side. *)
Ltac to_spec :=
  rewrite ?sqrt_spec, ?add_spec, ?mul_spec, ?sub_spec, ?div_spec.

(* ------------------------------------------------------------------ *)
(** * Sample structure texts                                            *)
(* ------------------------------------------------------------------ *)

Module Samples.

Local Open Scope string_scope.

(** A backbone record of residue 10 at (1.0, 2.0, 3.0) with confidence 87.5,
    the nitrogen of the same residue, and a structure text around them. *)
Definition ca_line_10 : string :=
  "ATOM      2  CA  MET A  10       1.000   2.000   3.000  1.00 87.50           C  ".

Definition n_line_10 : string :=
  "ATOM      1  N   MET A  10       0.500   1.500   2.500  1.00 87.50           N  ".

Definition sample_pdb : string :=
  join_lines ["HEADER    PROTEIN"; n_line_10; ca_line_10; "TER"; "END"; ""].

(** A later backbone record of residue 10, and the record of residue 11. *)
Definition ca_line_10_again : string :=
  "ATOM      9  CA  MET A  10       7.500   8.500   9.500  1.00 60.00           C  ".

Definition ca_line_11 : string :=
  "ATOM      5  CA  ALA A  11       4.000   5.000   6.000  1.00 90.00           C  ".

End Samples.

(* ------------------------------------------------------------------ *)
(** * The rendering cycle                                               *)
(* ------------------------------------------------------------------ *)

(** The main effect of [StructureViewer] and [load3Dmol], as a machine whose
    state holds what the closures share: [window.$3Dmol], the script element
    and its [load] listeners, the two [cancelled] flags of every run of the
    effect, and the viewer instances.  A run of the effect is named by its
    rank.  The wrappers of the rendered mode are mounted when a callback of
    the current run executes, and the script defines [window.$3Dmol] before
    its [load] event is dispatched. *)
Module Lifecycle.

Local Open Scope string_scope.

(** A property of type [string | null | undefined]. *)
Inductive optional_text :=
| Undefined
| Null
| Text (s : string).

(** The dependencies of the effect, [isDual] apart, which is computed from
    [mutantPdbData]. *)
Record deps := {
  pdbData : string;
  mutantPdbData : optional_text;
  mutationPosition : Z
}.

(** [Boolean(mutantPdbData)]: a text that is not empty. *)
Definition isDual (p : deps) : bool :=
  match mutantPdbData p with
  | Text (String _ _) => true
  | _ => false
  end.

(** [Object.is] on two such properties. *)
Definition same_text (a b : optional_text) : bool :=
  match a, b with
  | Text s, Text s' => String.eqb s s'
  | Undefined, Undefined | Null, Null => true
  | _, _ => false
  end.

(** React runs the effect again when one of
    [[pdbData, mutantPdbData, mutationPosition, isDual]] differs. *)
Definition deps_changed (p q : deps) : bool :=
  negb (String.eqb (pdbData p) (pdbData q)
        && same_text (mutantPdbData p) (mutantPdbData q)
        && (mutationPosition p =? mutationPosition q)%Z
        && Bool.eqb (isDual p) (isDual q)).

(** The three wrappers that a viewer can be mounted in. *)
Inductive surface := SingleWrapper | WildWrapper | MutantWrapper.

Definition surface_eqb (a b : surface) : bool :=
  match a, b with
  | SingleWrapper, SingleWrapper
  | WildWrapper, WildWrapper
  | MutantWrapper, MutantWrapper => true
  | _, _ => false
  end.

(** A viewer made by [$3Dmol.createViewer]: the run that made it, the
    wrapper that holds its [div], and the text given to [addModel]. *)
Record viewer := {
  owner : nat;
  mount : surface;
  model : string
}.

(** One run of the effect: its dependencies, the [cancelled] of its call of
    [load3Dmol] and the [cancelled] of the effect. *)
Record cycle := {
  inputs : deps;
  load_cancelled : bool;
  effect_cancelled : bool
}.

Record world := {
  engine : bool;             (* [window.$3Dmol] is defined *)
  script : bool;             (* the script element is in the document *)
  loaded : bool;             (* its [load] event has been dispatched *)
  listeners : list nat;      (* runs whose [fire] listens to [load] *)
  cycles : list cycle;       (* every run of the effect, by rank *)
  current : option nat;      (* the run whose cleanup is still to come *)
  live : list viewer;        (* viewers made and not cleared *)
  constructed : list viewer; (* every viewer ever made *)
  loading : bool             (* the [loading] state *)
}.

Definition initial : world :=
  {| engine := false; script := false; loaded := false;
     listeners := []; cycles := []; current := None;
     live := []; constructed := []; loading := true |}.

(** The viewers of a run: one in single mode, two in dual mode. *)
Definition viewers_of (id : nat) (p : deps) : list viewer :=
  if isDual p then
    [ {| owner := id; mount := WildWrapper; model := pdbData p |};
      {| owner := id; mount := MutantWrapper;
         model := match mutantPdbData p with Text s => s | _ => "" end |} ]
  else
    [ {| owner := id; mount := SingleWrapper; model := pdbData p |} ].

(** The callback given to [load3Dmol]. *)
Definition onReady (id : nat) (w : world) : world :=
  match nth_error (cycles w) id with
  | None => w
  | Some c =>
      if effect_cancelled c then w
      else if negb (engine w) then w
      else
        let vs := viewers_of id (inputs c) in
        {| engine := engine w; script := script w; loaded := loaded w;
           listeners := listeners w; cycles := cycles w;
           current := current w;
           live := (live w ++ vs)%list;
           constructed := (constructed w ++ vs)%list;
           loading := false |}
  end.

(** [fire]: [if (!cancelled) onReady()] *)
Definition fire (id : nat) (w : world) : world :=
  match nth_error (cycles w) id with
  | None => w
  | Some c => if load_cancelled c then w else onReady id w
  end.

Definition add_listener (id : nat) (w : world) : world :=
  {| engine := engine w; script := script w; loaded := loaded w;
     listeners := (listeners w ++ [id])%list; cycles := cycles w;
     current := current w; live := live w;
     constructed := constructed w; loading := loading w |}.

Definition append_script (w : world) : world :=
  {| engine := engine w; script := true; loaded := loaded w;
     listeners := listeners w; cycles := cycles w;
     current := current w; live := live w;
     constructed := constructed w; loading := loading w |}.

(** [load3Dmol(onReady)] for the run [id]. *)
Definition load3Dmol (id : nat) (w : world) : world :=
  if engine w then fire id w
  else if script w then
    (if engine w then fire id w else add_listener id w)
  else add_listener id (append_script w).

(** The body of the effect: a new run with both flags down,
    [setLoading(true)], then [load3Dmol]. *)
Definition run_effect (p : deps) (w : world) : world :=
  let id := List.length (cycles w) in
  load3Dmol id
    {| engine := engine w; script := script w; loaded := loaded w;
       listeners := listeners w;
       cycles := (cycles w ++ [ {| inputs := p; load_cancelled := false;
                                   effect_cancelled := false |} ])%list;
       current := Some id; live := live w;
       constructed := constructed w; loading := true |}.

Fixpoint cancel (id : nat) (cs : list cycle) : list cycle :=
  match cs, id with
  | [], _ => []
  | c :: cs', O =>
      {| inputs := inputs c; load_cancelled := true;
         effect_cancelled := true |} :: cs'
  | c :: cs', S id' => c :: cancel id' cs'
  end.

(** The cleanup of the effect: both flags up, the listener removed, the
    viewers of the run cleared. *)
Definition cleanup (id : nat) (w : world) : world :=
  {| engine := engine w; script := script w; loaded := loaded w;
     listeners := filter (fun i => negb (Nat.eqb i id)) (listeners w);
     cycles := cancel id (cycles w);
     current := None;
     live := filter (fun v => negb (Nat.eqb (owner v) id)) (live w);
     constructed := constructed w; loading := loading w |}.

Inductive event :=
| Render (p : deps)  (* React commits the component with these values *)
| Unmount            (* React removes the component *)
| ScriptRun          (* the script executes and defines [window.$3Dmol] *)
| ScriptLoad.        (* the [load] event of the script element *)

Definition step (w : world) (e : event) : world :=
  match e with
  | Render p =>
      match current w with
      | None => run_effect p w
      | Some id =>
          match nth_error (cycles w) id with
          | Some c =>
              if deps_changed (inputs c) p
              then run_effect p (cleanup id w)
              else w
          | None => w
          end
      end
  | Unmount =>
      match current w with
      | None => w
      | Some id => cleanup id w
      end
  | ScriptRun =>
      if (script w && negb (engine w))%bool then
        {| engine := true; script := script w; loaded := loaded w;
           listeners := listeners w; cycles := cycles w;
           current := current w; live := live w;
           constructed := constructed w; loading := loading w |}
      else w
  | ScriptLoad =>
      if (engine w && negb (loaded w))%bool then
        fold_left (fun w' id => fire id w') (listeners w)
          {| engine := engine w; script := script w; loaded := true;
             listeners := listeners w; cycles := cycles w;
             current := current w; live := live w;
             constructed := constructed w; loading := loading w |}
      else w
  end.

Definition run (tr : list event) (w : world) : world := fold_left step tr w.

(** The live viewers mounted in a wrapper. *)
Definition live_in (s : surface) (w : world) : list viewer :=
  filter (fun v => surface_eqb (mount v) s) (live w).

(** The wrappers of the mode of the current run. *)
Definition surfaces (p : deps) : list surface :=
  if isDual p then [WildWrapper; MutantWrapper] else [SingleWrapper].

(** The run [id] still waits for the [load] event: the event has not been
    dispatched and the [fire] of the run listens to it. *)
Definition waiting (id : nat) (w : world) : Prop :=
  loaded w = false /\ In id (listeners w).

(** What every reachable state satisfies.  The current run has both flags
    down.  Before the script has run no viewer exists or ever existed and
    the only listener is the current run.  Once the engine is there, either
    the current run still waits for the [load] event, without viewer, or the
    live viewers are those of the current run. *)
Record invariant (w : world) : Prop := {
  inv_current :
    forall id, current w = Some id ->
      exists c, nth_error (cycles w) id = Some c
                /\ load_cancelled c = false /\ effect_cancelled c = false;
  inv_pending :
    engine w = false ->
    loaded w = false /\ live w = [] /\ constructed w = []
    /\ listeners w = match current w with Some id => [id] | None => [] end;
  inv_ready :
    engine w = true ->
    match current w with
    | None => live w = [] /\ (loaded w = false -> listeners w = [])
    | Some id =>
        (loaded w = false /\ listeners w = [id]
         /\ live w = [] /\ constructed w = [])
        \/ ((loaded w = false -> listeners w = [])
            /\ live w = match nth_error (cycles w) id with
                        | Some c => viewers_of id (inputs c)
                        | None => []
                        end)
    end
}.

(** The run [id] is cancelled and has made no viewer. *)
Definition superseded (id : nat) (w : world) : Prop :=
  (exists c, nth_error (cycles w) id = Some c
             /\ load_cancelled c = true /\ effect_cancelled c = true)
  /\ forall v, In v (constructed w) -> owner v <> id.

(** Scenario D: a first set of values in single mode, superseded by values
    in dual mode before the script has loaded. *)
Definition first_values : deps :=
  {| pdbData := Samples.ca_line_10; mutantPdbData := Null;
     mutationPosition := 10 |}.

Definition second_values : deps :=
  {| pdbData := Samples.ca_line_10;
     mutantPdbData := Text Samples.ca_line_10_again;
     mutationPosition := 10 |}.

Definition scenario_D : list event :=
  [Render first_values; Render second_values; ScriptRun; ScriptLoad].

End Lifecycle.

(* ------------------------------------------------------------------ *)
(** * The confidence averages                                           *)
(* ------------------------------------------------------------------ *)

(** The three loops that average the B-factor column (the pLDDT of a
    predicted structure): [calculateAveragePlddt] of
    [src/app/api/structure/route.ts], the inline average of the ESMFold
    route and [getResiduePlddt] of [src/app/page.tsx].  [sum] and [count] are
    Numbers, as in the source. *)
Module Plddt.

Local Open Scope string_scope.

(** [let sum = 0; let count = 0;] and their later values. *)
Record totals := { sum : float; count : float }.

Definition start : totals := {| sum := 0; count := 0 |}.

(** The B-factor of a line: [parseFloat(line.substring(60, 66).trim())]. *)
Definition bFactor_of (line : string) : float :=
  parseFloat (trim (JsString.substring 60 66 line)).

(** [if (!isNaN(bFactor)) { sum += bFactor; count++; }] *)
Definition add_bFactor (t : totals) (line : string) : totals :=
  let bFactor := bFactor_of line in
  if negb (isNaN bFactor)
  then {| sum := sum t + bFactor; count := count t + 1 |}
  else t.

(** [Math.round((sum / count) * 10) / 10] *)
Definition rounded_mean (t : totals) : float :=
  Math_round ((sum t / count t) * 10) / 10.

(** The horizontal tab. *)
Definition tab : string := String (ascii_of_nat 9) EmptyString.

(** The body of the loop of [calculateAveragePlddt] for one line. *)
Definition average_step (t : totals) (line : string) : totals :=
  if (startsWith "ATOM  " line || startsWith ("ATOM" ++ tab) line)%bool
  then add_bFactor t line
  else t.

(** [calculateAveragePlddt(pdbData)] *)
Definition calculateAveragePlddt (pdbData : string) : float :=
  let t := fold_left average_step (split_lines pdbData) start in
  if (count t =? 0)%float then 0 else rounded_mean t.

(** The average of the ESMFold route: the lines are filtered first, and the
    test is [bFactorCount > 0]. *)
Definition esmfold_avgPlddt (pdbData : string) : float :=
  let atomLines := filter (startsWith "ATOM  ") (split_lines pdbData) in
  let t := fold_left add_bFactor atomLines start in
  if (0 <? count t)%float then rounded_mean t else 0.

(** The body of the loop of [getResiduePlddt] for one line; a [resSeq] that
    is [NaN] differs from every [resi]. *)
Definition residue_step (resi : Z) (t : totals) (line : string) : totals :=
  if negb (startsWith "ATOM  " line) then t
  else
    match parseInt (trim (JsString.substring 22 26 line)) with
    | Some resSeq => if negb (resSeq =? resi)%Z then t else add_bFactor t line
    | None => t
    end.

(** [getResiduePlddt(pdbData, resi)], for an integer [resi]; [None] stands
    for [null]. *)
Definition getResiduePlddt (pdbData : string) (resi : Z) : option float :=
  let t := fold_left (residue_step resi) (split_lines pdbData) start in
  if (0 <? count t)%float then Some (rounded_mean t) else None.

(** The lines that a loop takes a B-factor from. *)
Definition counted (line : string) : bool :=
  negb (isNaN (bFactor_of line)).

Definition of_residue (resi : Z) (line : string) : bool :=
  match parseInt (trim (JsString.substring 22 26 line)) with
  | Some resSeq => (resSeq =? resi)%Z
  | None => false
  end.

End Plddt.

(* ------------------------------------------------------------------ *)
(** * The query of the page                                             *)
(* ------------------------------------------------------------------ *)

(** More of the string methods. *)
Module JsText.

Local Open Scope string_scope.

(** [A-Za-z] *)
Definition is_letter (c : ascii) : bool :=
  let n := nat_of_ascii c in
  ((65 <=? n) && (n <=? 90) || (97 <=? n) && (n <=? 122))%nat.

(** [A-Za-z0-9] *)
Definition is_alnum (c : ascii) : bool := (is_letter c || is_digit c)%bool.

(** The code units of the ASCII range. *)
Definition is_ascii (c : ascii) : bool := (nat_of_ascii c <? 128)%nat.

Fixpoint all_units (p : ascii -> bool) (s : string) : bool :=
  match s with
  | EmptyString => true
  | String c s' => (p c && all_units p s')%bool
  end.

(** A text of the ASCII range: the texts on which [toUpperCase] below is
    the method of JavaScript. *)
Definition ascii_text (s : string) : bool := all_units is_ascii s.

(** The upper case of a code unit of the ASCII range: [a] to [z] move to
    [A] to [Z], the others stay. *)
Definition upper_unit (c : ascii) : ascii :=
  let n := nat_of_ascii c in
  if ((97 <=? n) && (n <=? 122))%nat then ascii_of_nat (n - 32) else c.

(** [s.toUpperCase()], for a text of the ASCII range. *)
Fixpoint toUpperCase (s : string) : string :=
  match s with
  | EmptyString => EmptyString
  | String c s' => String (upper_unit c) (toUpperCase s')
  end.

(** The longest prefix of code units of a class and what follows it: what a
    greedy [c*] or [c+] of a regular expression takes when the next item
    cannot match a unit of the class. *)
Fixpoint span (p : ascii -> bool) (s : string) : string * string :=
  match s with
  | EmptyString => (EmptyString, EmptyString)
  | String c s' =>
      if p c then let (d, r) := span p s' in (String c d, r)
      else (EmptyString, s)
  end.

(** What follows a run does not start with a unit of the class. *)
Definition stops (p : ascii -> bool) (r : string) : Prop :=
  match r with
  | String c _ => p c = false
  | EmptyString => True
  end.

(** [s[i]] for an integer [i]: the code unit at [i] as a text, [None]
    (for [undefined]) outside the text. *)
Definition index (s : string) (i : Z) : option string :=
  if (i <? 0)%Z then None
  else match String.get (Z.to_nat i) s with
       | Some c => Some (String c EmptyString)
       | None => None
       end.

(** [s.substring(a)]: from [a] to the end. *)
Definition substring_from (a : nat) (s : string) : string :=
  JsString.substring a (String.length s) s.

End JsText.

(** [parseMutation], [findDomain] and the notation of [src/app/page.tsx]. *)
Module Mutation.

Import JsText.
Local Open Scope string_scope.

(** [interface ParsedMutation] *)
Record ParsedMutation := {
  gene : string;
  original : string;
  position : Z;
  mutant : string
}.

(** [parseMutation(input)]: the match of the regular expression on the
    trimmed input, read from left to right.  The expression asks, from the
    start to the end of the text, for a gene (a letter, then any number of
    letters and digits), then white space (one unit at least), then a
    letter, a run of digits (one at least) and a letter.  Each repetition is
    followed by an item that no unit of its class matches, so it takes the
    longest run.  [None] stands for [null]; the position is [parseInt] of
    the run of digits, the Number of JavaScript for a position below [2^53]:
    a longer run is accepted all the same, with a position that JavaScript
    rounds to the nearest Number and that this model keeps exact, so the
    statements on the object bound the position by [2^53].  The input is a
    text of code units below 256. *)
Definition parseMutation (input : string) : option ParsedMutation :=
  let trimmed := trim input in
  let (g, r1) := span is_alnum trimmed in
  match g with
  | EmptyString => None
  | String g0 _ =>
      if negb (is_letter g0) then None
      else
        let (ws, r2) := span is_space r1 in
        match ws, r2 with
        | String _ _, String o r3 =>
            if negb (is_letter o) then None
            else
              let (ds, r4) := span_digits r3 in
              match ds, r4 with
              | String _ _, String m EmptyString =>
                  if negb (is_letter m) then None
                  else
                    match parseInt ds with
                    | Some p =>
                        Some {| gene := toUpperCase g;
                                original := toUpperCase (String o EmptyString);
                                position := p;
                                mutant := toUpperCase (String m EmptyString) |}
                    | None => None
                    end
              | _, _ => None
              end
        | _, _ => None
        end
  end.

(** The groups of a match of the regular expression: the gene, the white
    space, the first letter, the digits and the last letter. *)
Record groups := {
  gene_text : string;
  blank : string;
  from : ascii;
  digits : string;
  to : ascii
}.

(** The text that the groups make. *)
Definition text_of (k : groups) : string :=
  gene_text k ++ blank k ++ String (from k) (digits k ++ String (to k) "").

Definition not_empty (s : string) : bool :=
  match s with EmptyString => false | String _ _ => true end.

(** The classes that the regular expression asks of the groups. *)
Definition matched (k : groups) : bool :=
  (match gene_text k with
   | String g0 _ => is_letter g0
   | EmptyString => false
   end
   && all_units is_alnum (gene_text k)
   && not_empty (blank k) && all_units is_space (blank k)
   && is_letter (from k)
   && not_empty (digits k) && all_units is_digit (digits k)
   && is_letter (to k))%bool.

(** The object that [parseMutation] makes of the groups. *)
Definition parsed (k : groups) : option ParsedMutation :=
  match parseInt (digits k) with
  | Some p =>
      Some {| gene := toUpperCase (gene_text k);
              original := toUpperCase (String (from k) EmptyString);
              position := p;
              mutant := toUpperCase (String (to k) EmptyString) |}
  | None => None
  end.

(** [`${mutation.original}${mutation.position}${mutation.mutant}`], for a
    position that is an integer below [10^21]. *)
Definition mutationNotation (m : ParsedMutation) : string :=
  original m ++ show_Z (position m) ++ mutant m.

(** [{ name: string; start: number; end: number }], with integer bounds. *)
Record domain := {
  name : string;
  start : Z;
  finish : Z
}.

(** [position >= d.start && position <= d.end]: the test of [findDomain]
    and of the list of domains of the page ([mutInDomain]). *)
Definition mutInDomain (position : Z) (d : domain) : bool :=
  ((start d <=? position) && (position <=? finish d))%Z.

(** [findDomain(domains, position)] *)
Definition findDomain (domains : list domain) (position : Z)
  : option string :=
  match find (mutInDomain position) domains with
  | Some d => Some (name d)
  | None => None
  end.

End Mutation.

(* ------------------------------------------------------------------ *)
(** * The checks of the ESMFold route                                   *)
(* ------------------------------------------------------------------ *)

(** Steps 1 to 5 of the [POST] handler of the ESMFold route: the checks of
    the body, the search for the residue around the given position, and the
    mutant sequence.  The position is an integer when it is there. *)
Module Esmfold.

Import JsText.
Local Open Scope string_scope.
Local Open Scope Z_scope.

(** [interface ESMFoldRequest]; a [position] that is [undefined] or [null]
    is [None]. *)
Record request := {
  sequence : string;
  position : option Z;
  original : string;
  mutant : string
}.

(** The answers of status 400, by the values that their messages quote. *)
Inductive failure :=
| MissingFields
| OutOfRange (position : Z) (length : nat)
| NotFound (original : string) (position : Z) (actual : string)
| TooLong (length : nat).

(** What the handler has when it calls the ESMFold server. *)
Record resolution := {
  resolvedPosition : Z;
  correctedPosition : option Z;
  note : option string;
  mutantSequence : string
}.

Inductive outcome :=
| Rejected (f : failure)   (* a response of status 400 *)
| Thrown                   (* an exception, which the [catch] answers with 500 *)
| Resolved (r : resolution).

(** [!s] for a text. *)
Definition is_empty (s : string) : bool :=
  match s with EmptyString => true | _ => false end.

(** [sequence[idx].toUpperCase() === original.toUpperCase()] *)
Definition same_residue (sequence original : string) (idx : Z) : bool :=
  match index sequence idx with
  | Some c => String.eqb (toUpperCase c) (toUpperCase original)
  | None => false
  end.

(** The values of [offset] in [for (let offset = -5; offset <= 5; offset++)]. *)
Definition offsets : list Z := [-5; -4; -3; -2; -1; 0; 1; 2; 3; 4; 5].

(** The loop of step 3 over the offsets that are left: the new
    [resolvedPosition] of the first index that holds the residue, [None]
    when the loop ends with [found] false. *)
Fixpoint search (sequence original : string) (position : Z)
    (remaining : list Z) : option Z :=
  match remaining with
  | [] => None
  | offset :: rest =>
      if offset =? 0 then search sequence original position rest
      else
        let idx := position - 1 + offset in
        if ((idx <? 0) || (Z.of_nat (String.length sequence) <=? idx))%bool
        then search sequence original position rest
        else if same_residue sequence original idx then Some (idx + 1)
        else search sequence original position rest
  end.

(** Step 5: [sequence.substring(0, resolvedPosition - 1) +
    mutant.toUpperCase() + sequence.substring(resolvedPosition)]. *)
Definition mutate (sequence mutant : string) (resolvedPosition : Z) : string :=
  (JsString.substring 0 (Z.to_nat (resolvedPosition - 1)) sequence
   ++ toUpperCase mutant
   ++ substring_from (Z.to_nat resolvedPosition) sequence)%string.

(** Steps 4 and 5, once the position is resolved. *)
Definition finish (q : request) (resolvedPosition : Z)
    (correctedPosition : option Z) (note : option string) : outcome :=
  if (400 <? Z.of_nat (String.length (sequence q)))
  then Rejected (TooLong (String.length (sequence q)))
  else Resolved {| resolvedPosition := resolvedPosition;
                   correctedPosition := correctedPosition;
                   note := note;
                   mutantSequence :=
                     mutate (sequence q) (mutant q) resolvedPosition |}.

(** Steps 1 to 5. *)
Definition resolve (q : request) : outcome :=
  match position q with
  | None => Rejected MissingFields
  | Some position =>
      if (is_empty (sequence q) || is_empty (original q)
          || is_empty (mutant q))%bool
      then Rejected MissingFields
      else if ((position <? 1)
               || (Z.of_nat (String.length (sequence q)) <? position))%bool
      then Rejected (OutOfRange position (String.length (sequence q)))
      else
        match index (sequence q) (position - 1) with
        | None => Thrown
        | Some actual =>
            if negb (String.eqb (toUpperCase actual)
                                (toUpperCase (original q)))
            then
              match search (sequence q) (original q) position offsets with
              | Some resolvedPosition =>
                  finish q resolvedPosition (Some resolvedPosition)
                    (Some ("Note: " ++ original q ++ " found at position "
                           ++ show_Z resolvedPosition ++ " instead of "
                           ++ show_Z position
                           ++ " (common numbering offset).")%string)
              | None =>
                  Rejected (NotFound (original q) position actual)
              end
            else finish q position None None
        end
  end.

End Esmfold.

(* ------------------------------------------------------------------ *)
(** * More views of the rendering cycle                                 *)
(* ------------------------------------------------------------------ *)

Module LifecycleViews.

Import Lifecycle.

(** While a run is current, the overlay is up and nothing is shown, or it
    is down and the viewers of the run are shown. *)
Definition overlay_matches (w : world) : Prop :=
  forall id c, current w = Some id -> nth_error (cycles w) id = Some c ->
    (loading w = true /\ live w = [])
    \/ (loading w = false /\ live w = viewers_of id (inputs c)).

(** The run and the wrapper of a viewer. *)
Definition place (v : viewer) : nat * surface := (owner v, mount v).

(** Every viewer was made by a run that exists, and no two of them by the
    same run in the same wrapper. *)
Definition made_once (w : world) : Prop :=
  (forall v, In v (constructed w) -> (owner v < List.length (cycles w))%nat)
  /\ NoDup (map place (constructed w)).

End LifecycleViews.
(* ------------------------------------------------------------------ *)
(** * Properties of maps                                                *)
(* ------------------------------------------------------------------ *)

Module JsMapFacts.

Import JsMap.

Section Facts.
Variable V : Type.
Implicit Types (m : t V) (k : Z) (v : V).

Lemma get_set_same m k v : get k (set k v m) = Some v.
Proof.
  induction m as [|[k' v'] m IH]; simpl.
  - now rewrite Z.eqb_refl.
  - destruct (k =? k')%Z eqn:E; simpl; rewrite E; auto.
Qed.

Lemma get_set_other m k k' v : k <> k' -> get k' (set k v m) = get k' m.
Proof.
  intros Hne. induction m as [|[k0 v0] m IH]; simpl.
  - destruct (k' =? k)%Z eqn:E; auto. apply Z.eqb_eq in E. congruence.
  - destruct (k =? k0)%Z eqn:E; simpl.
    + apply Z.eqb_eq in E. subst k0.
      destruct (k' =? k)%Z eqn:E'; auto. apply Z.eqb_eq in E'. congruence.
    + now rewrite IH.
Qed.

Lemma get_None_keys m k : get k m = None <-> ~ In k (keys m).
Proof.
  induction m as [|[k0 v0] m IH]; simpl.
  - tauto.
  - destruct (k =? k0)%Z eqn:E.
    + apply Z.eqb_eq in E. split; [discriminate | intros H; exfalso; auto].
    + apply Z.eqb_neq in E. rewrite IH. intuition congruence.
Qed.

Lemma get_Some_keys m k v : get k m = Some v -> In k (keys m).
Proof.
  intros H. destruct (in_dec Z.eq_dec k (keys m)) as [|Hn]; auto.
  apply get_None_keys in Hn. congruence.
Qed.

Lemma keys_set m k v :
  keys (set k v m) =
    match get k m with Some _ => keys m | None => (keys m ++ [k])%list end.
Proof.
  induction m as [|[k0 v0] m IH]; simpl; auto.
  destruct (k =? k0)%Z eqn:E; simpl; auto.
  rewrite IH. now destruct (get k m).
Qed.

Lemma wf_empty : wf (@empty V).
Proof. constructor. Qed.

Lemma wf_set m k v : wf m -> wf (set k v m).
Proof.
  unfold wf. intros H. rewrite keys_set.
  destruct (get k m) eqn:E; auto.
  apply get_None_keys in E.
  apply NoDup_app; auto.
  - repeat constructor. simpl. tauto.
  - intros a Ha [Hb|[]]. subst. auto.
Qed.

End Facts.

End JsMapFacts.

(* ------------------------------------------------------------------ *)
(** * Properties of binary64 arithmetic                                 *)
(* ------------------------------------------------------------------ *)

Module FloatFacts.

Local Open Scope Z_scope.

(** ** Rounding keeps the sign it is given *)

Section ShiftRight.

Lemma iter_pos_inv (A : Type) (P : A -> Prop) (f : A -> A) :
  (forall a, P a -> P (f a)) ->
  forall n a, P a -> P (iter_pos f n a).
Proof.
  intros Hf. induction n as [n IH|n IH|]; simpl; intros a Ha; auto.
Qed.

Lemma shr_1_nonneg mrs : 0 <= shr_m mrs -> 0 <= shr_m (shr_1 mrs).
Proof.
  destruct mrs as [m r s]; simpl.
  destruct m as [|[p|p|]|[p|p|]]; simpl; lia.
Qed.

Lemma shr_nonneg mrs e n :
  0 <= shr_m mrs -> 0 <= shr_m (fst (shr mrs e n)).
Proof.
  intros H. unfold shr. destruct n; simpl; auto.
  apply (iter_pos_inv (fun a => 0 <= shr_m a)); auto using shr_1_nonneg.
Qed.

Lemma shr_m_of_loc m l : shr_m (shr_record_of_loc m l) = m.
Proof. destruct l as [|[]]; reflexivity. Qed.

Lemma shr_fexp_nonneg m e l :
  0 <= m -> 0 <= shr_m (fst (shr_fexp prec emax m e l)).
Proof.
  intros H. unfold shr_fexp. apply shr_nonneg. now rewrite shr_m_of_loc.
Qed.

Lemma round_nearest_even_ge m l : m <= round_nearest_even m l.
Proof.
  destruct l as [|[]]; simpl; try lia. destruct (Z.even m); lia.
Qed.

End ShiftRight.

(** What [binary_round_aux] returns, whatever it shifts. *)
Lemma binary_round_aux_cases s m e l :
  let r := binary_round_aux prec emax s m e l in
  r = S754_zero s \/ r = S754_infinity s \/ r = S754_nan \/
  exists m' e', r = S754_finite s m' e'.
Proof.
  unfold binary_round_aux.
  destruct (shr_fexp prec emax m e l) as [mrs' e'].
  destruct (shr_fexp prec emax _ e' loc_Exact) as [mrs'' e''].
  destruct (shr_m mrs'') as [|p|p]; auto.
  destruct (e'' <=? emax - prec); eauto 6.
Qed.

Lemma binary_round_aux_not_nan s m e l :
  0 <= m -> binary_round_aux prec emax s m e l <> S754_nan.
Proof.
  intros Hm. unfold binary_round_aux.
  pose proof (shr_fexp_nonneg e l Hm) as H1.
  destruct (shr_fexp prec emax m e l) as [mrs' e']. simpl in H1.
  pose proof (round_nearest_even_ge (shr_m mrs') (loc_of_shr_record mrs')) as H2.
  assert (H3 : 0 <= round_nearest_even (shr_m mrs') (loc_of_shr_record mrs'))
    by lia.
  pose proof (shr_fexp_nonneg e' loc_Exact H3) as H4.
  destruct (shr_fexp prec emax _ e' loc_Exact) as [mrs'' e'']. simpl in H4.
  destruct (shr_m mrs'') as [|p|p]; try discriminate; try lia.
  destruct (e'' <=? emax - prec); discriminate.
Qed.

Lemma binary_round_aux_pos m e l :
  0 <= m -> sf_pos (binary_round_aux prec emax false m e l) = true.
Proof.
  intros Hm. pose proof (binary_round_aux_not_nan false e l Hm) as Hn.
  destruct (binary_round_aux_cases false m e l) as [H|[H|[H|(m' & e' & H)]]];
    rewrite H in *; simpl; congruence.
Qed.

Lemma binary_round_aux_opp s m e l :
  binary_round_aux prec emax (negb s) m e l
  = SFopp (binary_round_aux prec emax s m e l).
Proof.
  unfold binary_round_aux.
  destruct (shr_fexp prec emax m e l) as [mrs' e'].
  destruct (shr_fexp prec emax _ e' loc_Exact) as [mrs'' e''].
  destruct (shr_m mrs'') as [|p|p]; auto.
  destruct (e'' <=? emax - prec); auto.
Qed.

Lemma binary_round_opp s m e :
  binary_round prec emax (negb s) m e = SFopp (binary_round prec emax s m e).
Proof.
  unfold binary_round. destruct (shl_align m e _) as [mz ez].
  apply binary_round_aux_opp.
Qed.

Lemma binary_round_pos m e : sf_pos (binary_round prec emax false m e) = true.
Proof.
  unfold binary_round. destruct (shl_align m e _) as [mz ez].
  apply binary_round_aux_pos. lia.
Qed.

Lemma binary_round_finite_or_inf s m e :
  binary_round prec emax s m e <> S754_nan.
Proof.
  unfold binary_round. destruct (shl_align m e _) as [mz ez].
  apply binary_round_aux_not_nan. lia.
Qed.

Lemma binary_normalize_opp n e :
  n <> 0 ->
  binary_normalize prec emax (- n) e false
  = SFopp (binary_normalize prec emax n e false).
Proof.
  destruct n as [|p|p]; simpl; intros H; try congruence.
  - apply (binary_round_opp false).
  - now rewrite <- (binary_round_opp true).
Qed.

Lemma binary_normalize_not_nan n e sz :
  binary_normalize prec emax n e sz <> S754_nan.
Proof.
  destruct n; simpl; try discriminate; apply binary_round_finite_or_inf.
Qed.

(** ** The operations on the specification side *)

Lemma SFopp_involutive p : SFopp (SFopp p) = p.
Proof. destruct p; simpl; now rewrite ?negb_involutive. Qed.

(** Swapping the operands of a subtraction negates the difference, except
    that both differences are [+0] when the operands are equal. *)
Lemma SF64sub_swap p q :
  SF64sub q p = SFopp (SF64sub p q)
  \/ (SF64sub p q = S754_zero false /\ SF64sub q p = S754_zero false).
Proof.
  unfold SF64sub.
  destruct p as [sp|sp| |sp mp ep], q as [sq|sq| |sq mq eq_];
    try (simpl; now auto);
    try (destruct sp, sq; simpl; now auto).
  simpl. rewrite (Z.min_comm eq_ ep).
  set (a := cond_Zopp sp _). set (b := cond_Zopp sq _).
  destruct (Z.eq_dec (a - b) 0) as [E|E].
  - right. replace (b - a) with 0 by lia. now rewrite E.
  - left. replace (b - a) with (- (a - b)) by lia.
    now apply binary_normalize_opp.
Qed.

Lemma SF64mul_opp_opp p : SF64mul (SFopp p) (SFopp p) = SF64mul p p.
Proof.
  unfold SF64mul. destruct p as [s|s| |s m e]; simpl; auto;
    now destruct s.
Qed.

Lemma SF64sub_diag p : sf_finite p = true -> SF64sub p p = S754_zero false.
Proof.
  unfold SF64sub. destruct p as [s|s| |s m e]; simpl; try discriminate.
  - now destruct s.
  - intros _. now rewrite Z.sub_diag.
Qed.

Lemma SF64sub_finite p q :
  sf_finite p = true -> sf_finite q = true -> SF64sub p q <> S754_nan.
Proof.
  unfold SF64sub.
  destruct p as [sp|sp| |sp mp ep], q as [sq|sq| |sq mq eq_];
    simpl; try discriminate; intros _ _.
  - destruct sp, sq; discriminate.
  - apply binary_normalize_not_nan.
Qed.

Lemma SF64mul_square_pos p :
  p <> S754_nan -> sf_pos (SF64mul p p) = true.
Proof.
  unfold SF64mul. destruct p as [s|s| |s m e]; simpl; intros H;
    try congruence; try now destruct s.
  rewrite xorb_nilpotent. apply binary_round_aux_pos. lia.
Qed.

Lemma SF64add_pos p q :
  sf_pos p = true -> sf_pos q = true -> sf_pos (SF64add p q) = true.
Proof.
  unfold SF64add.
  destruct p as [[]|[]| |[] mp ep], q as [[]|[]| |[] mq eq_];
    simpl; try discriminate; auto.
  intros _ _. apply binary_round_pos.
Qed.

Lemma SF64sqrt_pos p : sf_pos p = true -> sf_pos (SF64sqrt p) = true.
Proof.
  unfold SF64sqrt. destruct p as [[]|[]| |[] m e]; simpl; try discriminate; auto.
  intros _. unfold SFsqrt_core_binary.
  set (m' := match _ - _ with Z0 => _ | Zpos _ => _ | Zneg _ => _ end).
  pose proof (Z.sqrtrem_spec m') as Hs.
  destruct (Z.sqrtrem m') as [q r].
  apply binary_round_aux_pos.
  assert (0 <= m').
  { unfold m'. destruct (_ - _); try lia. apply Z.shiftl_nonneg. lia. }
  specialize (Hs H). nia.
Qed.

(** A square root is [NaN], a zero, or positive. *)
Lemma SF64sqrt_cases p :
  SF64sqrt p = S754_nan \/ SF64sqrt p = S754_zero true
  \/ sf_pos (SF64sqrt p) = true.
Proof.
  unfold SF64sqrt. destruct p as [[]|[]| |[] m e]; simpl; auto.
  right; right. apply (SF64sqrt_pos (S754_finite false m e)). reflexivity.
Qed.

(** ** Reading the predicates of primitive floats *)

Lemma SFeqb_refl p : SFeqb p p = match p with S754_nan => false | _ => true end.
Proof.
  unfold SFeqb. destruct p as [s|s| |s m e]; simpl; auto.
  - now destruct s.
  - destruct s; rewrite Z.compare_refl, Pos.compare_cont_refl; reflexivity.
Qed.

Lemma is_nan_Prim2SF v :
  is_nan v = match Prim2SF v with S754_nan => true | _ => false end.
Proof.
  unfold is_nan. rewrite eqb_spec, SFeqb_refl. now destruct (Prim2SF v).
Qed.

Lemma is_finite_Prim2SF v : is_finite v = sf_finite (Prim2SF v).
Proof.
  unfold is_finite, is_infinity. rewrite is_nan_Prim2SF, eqb_spec, abs_spec.
  change (Prim2SF infinity) with (S754_infinity false).
  destruct (Prim2SF v) as [s|s| |s m e]; reflexivity.
Qed.

Lemma Prim2SF_zero : Prim2SF 0%float = S754_zero false.
Proof. reflexivity. Qed.

Lemma leb_zero_pos v : sf_pos (Prim2SF v) = true -> (0 <=? v)%float = true.
Proof.
  rewrite leb_spec, Prim2SF_zero.
  destruct (Prim2SF v) as [[]|[]| |[] m e]; simpl; try discriminate; auto.
Qed.

Lemma not_nan_pos v : sf_pos (Prim2SF v) = true -> is_nan v = false.
Proof.
  rewrite is_nan_Prim2SF.
  destruct (Prim2SF v) as [[]|[]| |[] m e]; simpl; try discriminate; auto.
Qed.

End FloatFacts.

(* ------------------------------------------------------------------ *)
(** * Lower bounds through rounding                                     *)
(* ------------------------------------------------------------------ *)

Module FloatBounds.

Import FloatFacts.
Local Open Scope Z_scope.

(** ** A lower bound that rounding keeps *)

Lemma digits2_pos_bounds (p : positive) :
  2 ^ (Zpos (digits2_pos p) - 1) <= Zpos p < 2 ^ Zpos (digits2_pos p).
Proof.
  induction p as [p IH|p IH|]; cbn [digits2_pos].
  - rewrite Pos2Z.inj_succ, Z.pow_succ_r by lia.
    replace (Z.succ (Zpos (digits2_pos p)) - 1) with (Z.succ (Zpos (digits2_pos p) - 1)) by lia.
    rewrite Z.pow_succ_r by lia. lia.
  - rewrite Pos2Z.inj_succ, Z.pow_succ_r by lia.
    replace (Z.succ (Zpos (digits2_pos p)) - 1) with (Z.succ (Zpos (digits2_pos p) - 1)) by lia.
    rewrite Z.pow_succ_r by lia. lia.
  - simpl. lia.
Qed.

Lemma shr_1_div2 mrs : 0 <= shr_m mrs -> shr_m (shr_1 mrs) = shr_m mrs / 2.
Proof.
  destruct mrs as [m r s]. cbn [shr_m].
  destruct m as [|[p|p|]|p]; cbn [shr_1 shr_m]; intros H; try lia.
  - reflexivity.
  - apply Z.div_unique with 1; lia.
  - apply Z.div_unique with 0; lia.
  - reflexivity.
Qed.

Lemma iter_shr_1 (p : positive) :
  forall mrs, 0 <= shr_m mrs ->
    shr_m (iter_pos shr_1 p mrs) = shr_m mrs / 2 ^ Zpos p.
Proof.
  assert (Hpos : forall q, 0 < 2 ^ Zpos q) by (intros; apply Z.pow_pos_nonneg; lia).
  induction p as [p IH|p IH|]; cbn [iter_pos]; intros mrs H.
  - pose proof (shr_1_nonneg mrs H) as H1.
    assert (H2 : 0 <= shr_m (iter_pos shr_1 p (shr_1 mrs))).
    { apply (iter_pos_inv (fun a => 0 <= shr_m a)); auto using shr_1_nonneg. }
    rewrite IH, IH, shr_1_div2 by assumption.
    rewrite !Z.div_div by (pose proof (Hpos p); lia).
    f_equal. rewrite Pos2Z.inj_xI, Z.pow_add_r, Z.pow_mul_r by lia.
    change (2 ^ 2) with 4. change (2 ^ 1) with 2.
    replace (4 ^ Zpos p) with (2 ^ Zpos p * 2 ^ Zpos p); [lia|].
    rewrite <- Z.pow_add_r by lia. replace (Zpos p + Zpos p) with (2 * Zpos p) by lia.
    now rewrite Z.pow_mul_r by lia.
  - assert (H2 : 0 <= shr_m (iter_pos shr_1 p mrs)).
    { apply (iter_pos_inv (fun a => 0 <= shr_m a)); auto using shr_1_nonneg. }
    rewrite IH, IH by assumption.
    rewrite !Z.div_div by (pose proof (Hpos p); lia).
    f_equal. rewrite Pos2Z.inj_xO. rewrite <- Z.pow_add_r by lia. f_equal. lia.
  - rewrite shr_1_div2 by assumption. reflexivity.
Qed.

(** [shr] divides the mantissa by a power of two and adds to the exponent. *)
Lemma shr_spec mrs e n :
  0 <= shr_m mrs ->
  shr_m (fst (shr mrs e n)) = shr_m mrs / 2 ^ Z.max n 0
  /\ snd (shr mrs e n) = e + Z.max n 0.
Proof.
  intros H. unfold shr. destruct n as [|p|p]; simpl.
  - rewrite Z.div_1_r. lia.
  - rewrite iter_shr_1 by assumption. split; [reflexivity|lia].
  - rewrite Z.div_1_r. lia.
Qed.

Lemma round_nearest_even_le m l : round_nearest_even m l <= m + 1.
Proof.
  destruct l as [|[]]; simpl; try lia. destruct (Z.even m); lia.
Qed.

Lemma div_pow_lower (a b n k : Z) :
  0 <= n -> 0 <= k -> a * 2 ^ (k + n) <= b -> a * 2 ^ k <= b / 2 ^ n.
Proof.
  intros Hn Hk H. apply Z.div_le_lower_bound.
  - apply Z.pow_pos_nonneg; lia.
  - rewrite Z.pow_add_r in H by lia. lia.
Qed.

Lemma fexp_64 e : fexp prec emax e = Z.max (e - 53) (-1074).
Proof. reflexivity. Qed.

(** The two shifts of [binary_round_aux] on a positive mantissa that is not
    below the least subnormal: each divides by a power of two, and the
    mantissa stays positive. *)
Lemma shr_fexp_twice (mx ex : Z) (lx : location) :
  0 < mx ->
  (ex < -1074 -> 2 ^ (52 + (-1074 - ex)) <= mx) ->
  forall mrs1 e1 mrs2 e2,
    shr_fexp prec emax mx ex lx = (mrs1, e1) ->
    shr_fexp prec emax
      (round_nearest_even (shr_m mrs1) (loc_of_shr_record mrs1)) e1 loc_Exact
    = (mrs2, e2) ->
    exists N1 N2 m1r,
      0 <= N1 /\ 0 <= N2
      /\ shr_m mrs1 = mx / 2 ^ N1 /\ shr_m mrs1 <= m1r
      /\ shr_m mrs2 = m1r / 2 ^ N2 /\ e2 = ex + N1 + N2
      /\ 0 < shr_m mrs2.
Proof.
  intros Hmx Hsub mrs1 e1 mrs2 e2 E1 E2.
  (* first shift *)
  unfold shr_fexp in E1.
  destruct mx as [|p|p]; try lia. cbn [Zdigits2] in E1.
  pose proof (digits2_pos_bounds p) as Bp.
  set (d := Zpos (digits2_pos p)) in *.
  assert (Hd : 0 < d) by (unfold d; lia).
  pose proof (@shr_spec (shr_record_of_loc (Zpos p) lx) ex
                (fexp prec emax (d + ex) - ex)) as S1.
  rewrite shr_m_of_loc, E1 in S1. cbn [fst snd] in S1.
  specialize (S1 ltac:(lia)). destruct S1 as [S1m S1e].
  rewrite fexp_64 in S1m, S1e.
  set (N1 := Z.max (Z.max (d + ex - 53) (-1074) - ex) 0) in *.
  assert (HN1 : 0 <= N1) by (unfold N1; lia).
  assert (P1 : 0 < 2 ^ N1) by (apply Z.pow_pos_nonneg; lia).
  assert (B1 : 1 <= shr_m mrs1 < 9007199254740992 /\ -1074 <= e1).
  { destruct (Z.eq_dec N1 0) as [Z1|NZ1].
    - rewrite Z1 in *. rewrite Z.div_1_r in S1m. rewrite S1m.
      assert (d <= 53) by (unfold N1 in Z1; lia).
      assert (2 ^ d <= 2 ^ 53) by (apply Z.pow_le_mono_r; lia).
      change (2 ^ 53) with 9007199254740992 in *.
      unfold N1 in Z1. lia.
    - destruct (Z_le_gt_dec (-1074) (d + ex - 53)) as [Hn|Hs].
      + assert (EN : N1 = d - 53) by (unfold N1 in *; lia).
        assert (Hp52 : 2 ^ (d - 1) = 4503599627370496 * 2 ^ N1).
        { rewrite EN. replace (d - 1) with (52 + (d - 53)) by lia.
          rewrite Z.pow_add_r by lia. reflexivity. }
        assert (Hp53 : 2 ^ d = 9007199254740992 * 2 ^ N1).
        { rewrite EN. replace d with (53 + (d - 53)) at 1 by lia.
          rewrite Z.pow_add_r by lia. reflexivity. }
        rewrite S1m. split; [split|lia].
        * apply Z.le_trans with 4503599627370496; [lia|].
          apply Z.div_le_lower_bound; lia.
        * apply Z.div_lt_upper_bound; lia.
      + exfalso.
        assert (EN : N1 = -1074 - ex) by (unfold N1 in *; lia).
        specialize (Hsub ltac:(lia)).
        assert (Hlt : 2 ^ (52 + (-1074 - ex)) < 2 ^ d) by lia.
        apply Z.pow_lt_mono_r_iff in Hlt; lia. }
  (* rounding, second shift *)
  pose proof (round_nearest_even_ge (shr_m mrs1) (loc_of_shr_record mrs1)) as R1.
  pose proof (round_nearest_even_le (shr_m mrs1) (loc_of_shr_record mrs1)) as R2.
  set (m1r := round_nearest_even (shr_m mrs1) (loc_of_shr_record mrs1)) in *.
  unfold shr_fexp in E2.
  destruct m1r as [|q|q] eqn:Eq1; try lia. cbn [Zdigits2] in E2.
  pose proof (digits2_pos_bounds q) as Bq.
  set (d' := Zpos (digits2_pos q)) in *.
  assert (Hd' : 0 < d') by (unfold d'; lia).
  pose proof (@shr_spec (shr_record_of_loc (Zpos q) loc_Exact) e1
                (fexp prec emax (d' + e1) - e1)) as S2.
  rewrite shr_m_of_loc, E2 in S2. cbn [fst snd] in S2.
  specialize (S2 ltac:(lia)). destruct S2 as [S2m S2e].
  rewrite fexp_64 in S2m, S2e.
  set (N2 := Z.max (Z.max (d' + e1 - 53) (-1074) - e1) 0) in *.
  assert (Hd'54 : d' <= 54).
  { assert (Hlt : 2 ^ (d' - 1) < 2 ^ 54).
    { change (2 ^ 54) with 18014398509481984. lia. }
    apply Z.pow_lt_mono_r_iff in Hlt; lia. }
  assert (HN2 : N2 = 0 \/ (N2 = 1 /\ d' = 54)) by (unfold N2; lia).
  exists N1, N2, (Zpos q).
  repeat split; try lia; try assumption.
  destruct HN2 as [Z2|[Z2 D54]]; rewrite Z2 in S2m.
  - rewrite Z.div_1_r in S2m. lia.
  - rewrite D54 in Bq. change (2 ^ (54 - 1)) with 9007199254740992 in Bq.
    change (2 ^ 1) with 2 in S2m. rewrite S2m.
    apply Z.lt_le_trans with 4503599627370496; [lia|].
    apply Z.div_le_lower_bound; lia.
Qed.

(** A positive mantissa with a lower bound in the normal range keeps the
    bound through the two shifts. *)
Lemma binary_round_aux_shifts (cm : positive) (ce mx ex : Z) (lx : location) :
  Zpos (digits2_pos cm) = 53 ->
  -1074 <= ce ->
  0 < mx ->
  (ex <= ce -> Zpos cm * 2 ^ (ce - ex) <= mx) ->
  forall mrs1 e1 mrs2 e2,
    shr_fexp prec emax mx ex lx = (mrs1, e1) ->
    shr_fexp prec emax
      (round_nearest_even (shr_m mrs1) (loc_of_shr_record mrs1)) e1 loc_Exact
    = (mrs2, e2) ->
    0 < shr_m mrs2
    /\ (e2 <= ce -> Zpos cm * 2 ^ (ce - e2) <= shr_m mrs2).
Proof.
  intros Hcm Hce Hmx Hval mrs1 e1 mrs2 e2 E1 E2.
  pose proof (digits2_pos_bounds cm) as Bcm. rewrite Hcm in Bcm.
  change (2 ^ (53 - 1)) with 4503599627370496 in Bcm.
  assert (Hsub : ex < -1074 -> 2 ^ (52 + (-1074 - ex)) <= mx).
  { intros Hex. specialize (Hval ltac:(lia)).
    assert (2 ^ (-1074 - ex) <= 2 ^ (ce - ex))
      by (apply Z.pow_le_mono_r; lia).
    assert (0 < 2 ^ (-1074 - ex)) by (apply Z.pow_pos_nonneg; lia).
    rewrite Z.pow_add_r by lia. change (2 ^ 52) with 4503599627370496. nia. }
  destruct (@shr_fexp_twice mx ex lx Hmx Hsub _ _ _ _ E1 E2)
    as (N1 & N2 & m1r & HN1 & HN2 & S1m & R1 & S2m & He2 & Hpos).
  split; [assumption|].
  intros Hle.
  specialize (Hval ltac:(lia)).
  replace (ce - ex) with ((ce - e2 + N2) + N1) in Hval by lia.
  apply div_pow_lower in Hval; try lia.
  rewrite <- S1m in Hval.
  assert (Hq : Zpos cm * 2 ^ (ce - e2 + N2) <= m1r) by lia.
  apply div_pow_lower in Hq; lia.
Qed.

Lemma binary_round_aux_ge (cm : positive) (ce mx ex : Z) (lx : location) :
  Zpos (digits2_pos cm) = 53 ->
  -1074 <= ce ->
  0 < mx ->
  (ex <= ce -> Zpos cm * 2 ^ (ce - ex) <= mx) ->
  valid_binary (binary_round_aux prec emax false mx ex lx) = true ->
  SFleb (S754_finite false cm ce) (binary_round_aux prec emax false mx ex lx)
  = true.
Proof.
  intros Hcm Hce Hmx Hval.
  unfold binary_round_aux.
  destruct (shr_fexp prec emax mx ex lx) as [mrs1 e1] eqn:E1.
  destruct (shr_fexp prec emax _ e1 loc_Exact) as [mrs2 e2] eqn:E2.
  destruct (@binary_round_aux_shifts cm ce mx ex lx Hcm Hce Hmx Hval _ _ _ _ E1 E2) as [Hpos Hge].
  destruct (shr_m mrs2) as [|p2|p2]; try lia.
  destruct (e2 <=? emax - prec); [|reflexivity].
  cbn [valid_binary]. unfold bounded, canonical_mantissa.
  rewrite andb_true_iff, Z.eqb_eq, fexp_64. intros [Hcan _].
  pose proof (digits2_pos_bounds p2) as Bp2.
  pose proof (digits2_pos_bounds cm) as Bcm. rewrite Hcm in Bcm.
  change (2 ^ (53 - 1)) with 4503599627370496 in Bcm.
  assert (Hd2 : Zpos (digits2_pos p2) <= 53) by lia.
  assert (Hlt : Zpos p2 < 2 ^ 53).
  { apply Z.lt_le_trans with (2 ^ Zpos (digits2_pos p2)); [lia|].
    apply Z.pow_le_mono_r; lia. }
  change (2 ^ 53) with 9007199254740992 in Hlt.
  unfold SFleb, SFcompare.
  destruct (Z.compare_spec ce e2) as [Heq|Hl|Hg]; auto.
  - subst e2. specialize (Hge ltac:(lia)).
    rewrite Z.sub_diag, Z.mul_1_r in Hge.
    rewrite Pos.compare_cont_spec. simpl.
    destruct (Pos.compare_spec cm p2); auto; lia.
  - specialize (Hge ltac:(lia)).
    assert (2 ^ 1 <= 2 ^ (ce - e2)) by (apply Z.pow_le_mono_r; lia).
    change (2 ^ 1) with 2 in *. nia.
Qed.

(** ** Comparisons with a positive normal number *)

Lemma leb_finite_cases (cm : positive) (ce : Z) (v : float) :
  -1074 < ce ->
  SFleb (S754_finite false cm ce) (Prim2SF v) = true ->
  Prim2SF v = S754_infinity false
  \/ exists m e,
       Prim2SF v = S754_finite false m e
       /\ Zpos (digits2_pos m) = 53
       /\ (ce < e \/ (e = ce /\ (cm <= m)%positive)).
Proof.
  intros Hce. pose proof (Prim2SF_valid v) as Hv.
  destruct (Prim2SF v) as [s|s| |s m e]; try discriminate.
  - destruct s; [discriminate|auto].
  - destruct s; [discriminate|]. unfold SFleb, SFcompare.
    intros H. right. exists m, e. split; [reflexivity|].
    cbn [valid_binary] in Hv. unfold bounded, canonical_mantissa in Hv.
    rewrite andb_true_iff, Z.eqb_eq, fexp_64 in Hv. destruct Hv as [Hcan _].
    destruct (Z.compare_spec ce e) as [Heq|Hl|Hg]; try discriminate.
    + subst e. split; [lia|]. right. split; [reflexivity|].
      rewrite Pos.compare_cont_spec in H. simpl in H.
      destruct (Pos.compare_spec cm m); try discriminate; lia.
    + split; lia.
Qed.


Lemma Pos_iter_xO (m d : positive) :
  Zpos (Pos.iter xO m d) = Zpos m * 2 ^ Zpos d.
Proof.
  induction d as [|d IH] using Pos.peano_ind.
  - simpl. lia.
  - rewrite Pos.iter_succ, Pos2Z.inj_xO, IH, Pos2Z.inj_succ, Z.pow_succ_r by lia.
    lia.
Qed.

(** Aligning a mantissa to a smaller exponent multiplies it by a power of
    two. *)
Lemma shl_align_down (m : positive) (e e' : Z) :
  e' <= e ->
  shl_align m e e' = (Z.to_pos (Zpos m * 2 ^ (e - e')), Z.min e e')
  /\ Zpos (fst (shl_align m e e')) = Zpos m * 2 ^ (e - e').
Proof.
  intros H. unfold shl_align.
  destruct (e' - e) as [|d|d] eqn:E; try lia.
  - replace (e - e') with 0 by lia. rewrite Z.mul_1_r. simpl.
    split; [f_equal; lia|lia].
  - replace (e - e') with (Zpos d) by lia. rewrite <- Pos_iter_xO. simpl.
    split; [f_equal; lia|reflexivity].
Qed.

(** ** [v - 2] and [d / 3] above the last stop *)





(** ** Sums and square roots that are zero *)

Lemma binary_round_aux_nonzero (s s' : bool) (mx ex : Z) (lx : location) :
  0 < mx -> -1074 <= ex ->
  binary_round_aux prec emax s mx ex lx <> S754_zero s'.
Proof.
  intros Hmx Hex. unfold binary_round_aux.
  destruct (shr_fexp prec emax mx ex lx) as [mrs1 e1] eqn:E1.
  destruct (shr_fexp prec emax _ e1 loc_Exact) as [mrs2 e2] eqn:E2.
  destruct (@shr_fexp_twice mx ex lx Hmx ltac:(lia) _ _ _ _ E1 E2)
    as (N1 & N2 & m1r & _ & _ & _ & _ & _ & _ & Hpos).
  destruct (shr_m mrs2) as [|p2|p2]; try lia.
  destruct (e2 <=? emax - prec); discriminate.
Qed.

Lemma valid_exponent (s : bool) (m : positive) (e : Z) :
  valid_binary (S754_finite s m e) = true -> -1074 <= e.
Proof.
  cbn [valid_binary]. unfold bounded, canonical_mantissa.
  rewrite andb_true_iff, Z.eqb_eq, fexp_64. lia.
Qed.

Lemma shl_align_exponent (m : positive) (e e' : Z) :
  -1074 <= e -> -1074 <= e' -> -1074 <= snd (shl_align m e e').
Proof. intros. unfold shl_align. destruct (e' - e); simpl; lia. Qed.

(** A sum of two numbers that are not negative is zero only if both are. *)
Lemma SF64add_zero (p q : spec_float) :
  sf_pos p = true -> sf_pos q = true ->
  valid_binary p = true -> valid_binary q = true ->
  SF64add p q = S754_zero false ->
  p = S754_zero false /\ q = S754_zero false.
Proof.
  unfold SF64add.
  destruct p as [[]|[]| |[] mp ep], q as [[]|[]| |[] mq eq_];
    simpl; try discriminate;
    try (intros; split; reflexivity); try (intros; discriminate).
  intros _ _ Vp Vq H. exfalso.
  apply (@valid_exponent false mp ep) in Vp.
  apply (@valid_exponent false mq eq_) in Vq.
  unfold binary_round in H.
  assert (He : -1074 <= Z.min ep eq_) by lia.
  set (ez := Z.min ep eq_) in *. set (m := (_ + _)%positive) in *.
  pose proof (@shl_align_exponent m ez
                (fexp prec emax (Zpos (digits2_pos m) + ez)) He
                ltac:(rewrite fexp_64; lia)) as Hs.
  destruct (shl_align m ez _) as [mz ez']. simpl in Hs.
  revert H. apply binary_round_aux_nonzero; lia.
Qed.

(** A square root is zero only for zero. *)
Lemma SF64sqrt_zero (p : spec_float) :
  sf_pos p = true -> valid_binary p = true ->
  SF64sqrt p = S754_zero false -> p = S754_zero false.
Proof.
  unfold SF64sqrt. destruct p as [[]|[]| |[] m e]; simpl; try discriminate; auto.
  intros _ V H. exfalso. apply (@valid_exponent false m e) in V.
  unfold SFsqrt_core_binary in H. cbv zeta in H. rewrite fexp_64 in H.
  set (e' := Z.min _ (Z.div2 e)) in *.
  assert (He' : -1074 <= e' /\ 2 * e' <= e).
  { pose proof (Z.div2_spec e) as Hd. rewrite Z.shiftr_div_pow2 in Hd by lia.
    change (2 ^ 1) with 2 in Hd. unfold e'. rewrite Hd.
    pose proof (Z.div_mod e 2 ltac:(lia)).
    pose proof (Z.mod_pos_bound e 2 ltac:(lia)). lia. }
  set (m' := match e - 2 * e' with Z0 => _ | Zpos _ => _ | Zneg _ => _ end) in *.
  assert (Hm' : 0 < m').
  { unfold m'. destruct (e - 2 * e') eqn:Es; try lia.
    rewrite Z.shiftl_mul_pow2 by lia.
    apply Z.mul_pos_pos; [lia|apply Z.pow_pos_nonneg; lia]. }
  pose proof (Z.sqrtrem_spec m' ltac:(lia)) as Hq.
  destruct (Z.sqrtrem m') as [q r].
  revert H. apply binary_round_aux_nonzero; [nia|lia].
Qed.

End FloatBounds.

(* ------------------------------------------------------------------ *)
(** * The displacement calculator                                       *)
(* ------------------------------------------------------------------ *)

Module DistanceFacts.

Import FloatFacts.

Lemma square_diff_sym (a b : float) : (a - b) * (a - b) = (b - a) * (b - a).
Proof.
  apply Prim2SF_inj. to_spec.
  destruct (SF64sub_swap (Prim2SF a) (Prim2SF b)) as [H|[H1 H2]].
  - rewrite H. now rewrite SF64mul_opp_opp.
  - now rewrite H1, H2.
Qed.

(** The distance does not depend on the order of the two triples. *)
Lemma distance_sym (w m : coord) : distance w m = distance m w.
Proof.
  unfold distance. cbv zeta.
  now rewrite (square_diff_sym (x w)), (square_diff_sym (y w)),
    (square_diff_sym (z w)).
Qed.

Lemma square_diff_pos (a b : float) :
  is_finite a = true -> is_finite b = true ->
  sf_pos (Prim2SF ((a - b) * (a - b))) = true.
Proof.
  rewrite !is_finite_Prim2SF. intros Ha Hb. to_spec.
  apply SF64mul_square_pos. now apply SF64sub_finite.
Qed.

(** With finite coordinates the distance is a number and is not negative. *)
Lemma distance_pos (w m : coord) :
  finite_coord w = true -> finite_coord m = true ->
  sf_pos (Prim2SF (distance w m)) = true.
Proof.
  unfold finite_coord. rewrite !andb_true_iff.
  intros [[Hx Hy] Hz] [[Hx' Hy'] Hz'].
  unfold distance. cbv zeta. rewrite sqrt_spec, !add_spec.
  apply SF64sqrt_pos. repeat apply SF64add_pos; now apply square_diff_pos.
Qed.

(** Whatever the coordinates, the distance is [NaN] or is not negative. *)
Lemma distance_nan_or_nonneg (w m : coord) :
  is_nan (distance w m) = true \/ (0 <=? distance w m) = true.
Proof.
  unfold distance. cbv zeta.
  set (s := _ + _ + _).
  destruct (SF64sqrt_cases (Prim2SF s)) as [H|[H|H]];
    rewrite <- sqrt_spec in H.
  - left. now rewrite is_nan_Prim2SF, H.
  - right. now rewrite leb_spec, H.
  - right. now apply leb_zero_pos.
Qed.

Lemma sub_diag (a : float) : is_finite a = true -> a - a = 0.
Proof.
  rewrite is_finite_Prim2SF. intros Ha.
  apply Prim2SF_inj. rewrite sub_spec. now apply SF64sub_diag.
Qed.

(** Identical finite triples are at distance [+0]. *)
Lemma distance_diag (w : coord) : finite_coord w = true -> distance w w = 0.
Proof.
  unfold finite_coord. rewrite !andb_true_iff. intros [[Hx Hy] Hz].
  unfold distance. cbv zeta. now rewrite !sub_diag.
Qed.

(** With finite coordinates the distance is zero exactly when the three
    squares are. *)
Lemma distance_zero_iff (w m : coord) :
  finite_coord w = true -> finite_coord m = true ->
  distance w m = 0 <->
  (x w - x m) * (x w - x m) = 0
  /\ (y w - y m) * (y w - y m) = 0
  /\ (z w - z m) * (z w - z m) = 0.
Proof.
  unfold finite_coord. rewrite !andb_true_iff.
  intros [[Hx Hy] Hz] [[Hx' Hy'] Hz'].
  pose proof (square_diff_pos _ _ Hx Hx') as Px.
  pose proof (square_diff_pos _ _ Hy Hy') as Py.
  pose proof (square_diff_pos _ _ Hz Hz') as Pz.
  unfold distance. cbv zeta.
  set (a := (x w - x m) * (x w - x m)) in *.
  set (b := (y w - y m) * (y w - y m)) in *.
  set (c := (z w - z m) * (z w - z m)) in *.
  split.
  - intros H. apply (f_equal Prim2SF) in H.
    rewrite sqrt_spec, Prim2SF_zero in H.
    assert (Pab : sf_pos (Prim2SF (a + b)) = true).
    { rewrite add_spec. now apply SF64add_pos. }
    apply FloatBounds.SF64sqrt_zero in H;
      [|rewrite add_spec; now apply SF64add_pos|apply Prim2SF_valid].
    rewrite add_spec in H.
    apply FloatBounds.SF64add_zero in H;
      try apply Prim2SF_valid; try assumption.
    destruct H as [Hab Hc]. rewrite add_spec in Hab.
    apply FloatBounds.SF64add_zero in Hab;
      try apply Prim2SF_valid; try assumption.
    destruct Hab as [Ha Hb].
    repeat split; apply Prim2SF_inj; now rewrite Prim2SF_zero.
  - intros (-> & -> & ->). vm_compute. reflexivity.
Qed.

End DistanceFacts.

Module RmsdFacts.

Import JsMap JsMapFacts DistanceFacts.

(** The loop of [computePerResidueRmsd], from any accumulator. *)
Lemma get_fold_rmsd_step (mutantCa : t coord) (resi : Z) :
  forall (wildCa : t coord) (acc : t float),
    wf wildCa ->
    get resi (fold_left (rmsd_step mutantCa) wildCa acc) =
    match get resi wildCa, get resi mutantCa with
    | Some w, Some m => Some (distance w m)
    | _, _ => get resi acc
    end.
Proof.
  induction wildCa as [|[k w] wildCa IH]; intros acc Hwf.
  - reflexivity.
  - inversion Hwf as [|? ? Hnotin Hwf']; subst.
    cbn [fold_left]. rewrite IH by assumption. cbn [get].
    destruct (resi =? k)%Z eqn:E.
    + apply Z.eqb_eq in E. subst k.
      apply get_None_keys in Hnotin. rewrite Hnotin.
      unfold rmsd_step.
      destruct (get resi mutantCa) as [m|]; auto.
      now rewrite get_set_same.
    + apply Z.eqb_neq in E.
      assert (Hacc : get resi (rmsd_step mutantCa acc (k, w)) = get resi acc).
      { unfold rmsd_step. destruct (get k mutantCa); auto.
        apply get_set_other. congruence. }
      rewrite Hacc. reflexivity.
Qed.

Lemma get_computePerResidueRmsd (wildCa mutantCa : t coord) (resi : Z) :
  wf wildCa ->
  get resi (computePerResidueRmsd wildCa mutantCa) =
  match get resi wildCa, get resi mutantCa with
  | Some w, Some m => Some (distance w m)
  | _, _ => None
  end.
Proof.
  intros Hwf. unfold computePerResidueRmsd.
  rewrite get_fold_rmsd_step by assumption.
  destruct (get resi wildCa), (get resi mutantCa); reflexivity.
Qed.

Lemma wf_computePerResidueRmsd (wildCa mutantCa : t coord) :
  wf (computePerResidueRmsd wildCa mutantCa).
Proof.
  unfold computePerResidueRmsd.
  generalize (@wf_empty float). generalize (@empty float).
  induction wildCa as [|[k w] wildCa IH]; intros acc Hacc; simpl; auto.
  apply IH. destruct (get k mutantCa); auto using wf_set.
Qed.

End RmsdFacts.

(* ------------------------------------------------------------------ *)
(** * The structure parser                                              *)
(* ------------------------------------------------------------------ *)

Module ParserFacts.

Import JsMap JsMapFacts.

(** The loop body adds the record of the line, or leaves the map alone. *)
Lemma parse_line_record (atoms : t coord) (line : string) :
  parse_line atoms line =
  match record_of line with
  | Some (resi, c) => set resi c atoms
  | None => atoms
  end.
Proof.
  unfold parse_line, record_of.
  destruct (startsWith "ATOM  " line); simpl; auto.
  destruct (String.eqb _ "CA"); simpl; auto.
  destruct (parseInt _) as [resi|]; auto.
  destruct (isNaN _), (isNaN _), (isNaN _); reflexivity.
Qed.

Lemma wf_parse_line (atoms : t coord) (line : string) :
  wf atoms -> wf (parse_line atoms line).
Proof.
  intros H. rewrite parse_line_record.
  destruct (record_of line) as [[resi c]|]; auto using wf_set.
Qed.

Lemma wf_fold_parse_line (ls : list string) :
  forall atoms : t coord, wf atoms -> wf (fold_left parse_line ls atoms).
Proof.
  induction ls as [|l ls IH]; simpl; auto using wf_parse_line.
Qed.

(** The result of [parseCaAtoms] has one entry per residue. *)
Lemma wf_parseCaAtoms (pdb : string) : wf (parseCaAtoms pdb).
Proof. apply wf_fold_parse_line, wf_empty. Qed.

(** Lines without record leave the map as it is. *)
Lemma fold_parse_line_no_record (ls : list string) :
  (forall l, In l ls -> record_of l = None) ->
  forall atoms : t coord, fold_left parse_line ls atoms = atoms.
Proof.
  induction ls as [|l ls IH]; simpl; intros H atoms; auto.
  rewrite parse_line_record, (H l) by auto. apply IH. auto.
Qed.

(** Lines without record for [resi] leave the entry of [resi] as it is. *)
Lemma get_fold_parse_line_other (resi : Z) (ls : list string) :
  (forall l c, In l ls -> record_of l <> Some (resi, c)) ->
  forall atoms : t coord,
    get resi (fold_left parse_line ls atoms) = get resi atoms.
Proof.
  induction ls as [|l ls IH]; simpl; intros H atoms; auto.
  rewrite IH by eauto. rewrite parse_line_record.
  destruct (record_of l) as [[k c]|] eqn:E; auto.
  apply get_set_other. intros ->. apply (H l c); auto.
Qed.

Lemma not_ATOM_no_record (l : string) :
  startsWith "ATOM  " l = false -> record_of l = None.
Proof. unfold record_of. now intros ->. Qed.

(** Splitting the text made of lines gives the lines back. *)
Lemma split_lines_cons (l : string) (ls : list string) :
  single_line l = true -> ls <> [] ->
  split_lines (l ++ String "010" (join_lines ls)) = l :: split_lines (join_lines ls).
Proof.
  intros Hl Hls. induction l as [|c l IH]; simpl.
  - reflexivity.
  - simpl in Hl. apply andb_true_iff in Hl as [Hc Hl].
    apply negb_true_iff in Hc. rewrite Hc, IH by assumption. reflexivity.
Qed.

Lemma split_lines_single (l : string) :
  single_line l = true -> split_lines l = [l].
Proof.
  induction l as [|c l IH]; simpl; auto.
  intros H. apply andb_true_iff in H as [Hc Hl].
  apply negb_true_iff in Hc. now rewrite Hc, IH.
Qed.

Lemma split_join_lines (ls : list string) :
  ls <> [] -> forallb single_line ls = true ->
  split_lines (join_lines ls) = ls.
Proof.
  induction ls as [|l ls IH]; [congruence|]. intros _ H.
  simpl in H. apply andb_true_iff in H as [Hl Hls].
  destruct ls as [|l' ls].
  - simpl. now apply split_lines_single.
  - change (join_lines (l :: l' :: ls))
      with (l ++ String "010" (join_lines (l' :: ls)))%string.
    rewrite split_lines_cons by (auto; discriminate).
    f_equal. apply IH; [discriminate | assumption].
Qed.

End ParserFacts.

(* ------------------------------------------------------------------ *)
(** * Properties of the rendering cycle                                 *)
(* ------------------------------------------------------------------ *)

Module LifecycleFacts.

Import Lifecycle.

Lemma nth_error_cancel_same (id : nat) (cs : list cycle) (c : cycle) :
  nth_error cs id = Some c ->
  nth_error (cancel id cs) id
  = Some {| inputs := inputs c; load_cancelled := true;
            effect_cancelled := true |}.
Proof.
  revert id. induction cs as [|c0 cs IH]; intros [|id]; simpl; try discriminate.
  - now intros [= ->].
  - apply IH.
Qed.

Lemma nth_error_cancel_other (id j : nat) (cs : list cycle) :
  id <> j -> nth_error (cancel id cs) j = nth_error cs j.
Proof.
  revert id j. induction cs as [|c0 cs IH]; intros [|id] [|j] H; simpl; auto;
    congruence.
Qed.

Lemma nth_error_cancel_flag (id j : nat) (cs : list cycle) (c : cycle) :
  nth_error cs j = Some c -> effect_cancelled c = true -> load_cancelled c = true ->
  exists c', nth_error (cancel id cs) j = Some c'
             /\ load_cancelled c' = true /\ effect_cancelled c' = true.
Proof.
  intros Hc He Hl. destruct (Nat.eq_dec id j) as [->|Hne].
  - rewrite (nth_error_cancel_same _ _ Hc). eauto.
  - rewrite nth_error_cancel_other by assumption. eauto.
Qed.

Lemma viewers_of_owner (id : nat) (p : deps) (v : viewer) :
  In v (viewers_of id p) -> owner v = id.
Proof.
  unfold viewers_of. destruct (isDual p); simpl; intuition (subst; reflexivity).
Qed.

Lemma clear_viewers_of (id : nat) (p : deps) :
  filter (fun v => negb (Nat.eqb (owner v) id)) (viewers_of id p) = [].
Proof.
  unfold viewers_of. destruct (isDual p); simpl; now rewrite Nat.eqb_refl.
Qed.

(** ** The callbacks of a cancelled run do nothing *)

Lemma onReady_cancelled (id : nat) (w : world) (c : cycle) :
  nth_error (cycles w) id = Some c -> effect_cancelled c = true ->
  onReady id w = w.
Proof. unfold onReady. now intros -> ->. Qed.

Lemma fire_cancelled (id : nat) (w : world) (c : cycle) :
  nth_error (cycles w) id = Some c -> load_cancelled c = true ->
  fire id w = w.
Proof. unfold fire. now intros -> ->. Qed.

(** ** A superseded run stays without viewer *)

Lemma superseded_onReady (id0 id : nat) (w : world) :
  superseded id0 w -> superseded id0 (onReady id w).
Proof.
  intros [(c0 & Hc0 & Hl0 & He0) Hnone]. unfold onReady.
  destruct (nth_error (cycles w) id) as [c|] eqn:Ec; [|now split; eauto].
  destruct (effect_cancelled c) eqn:Ee; [now split; eauto|].
  destruct (negb (engine w)); [now split; eauto|].
  split; simpl; [eauto|].
  intros v Hv. apply in_app_or in Hv as [Hv|Hv]; auto.
  apply viewers_of_owner in Hv. rewrite Hv. intros ->. congruence.
Qed.

Lemma superseded_fire (id0 id : nat) (w : world) :
  superseded id0 w -> superseded id0 (fire id w).
Proof.
  intros H. unfold fire.
  destruct (nth_error (cycles w) id) as [c|]; auto.
  destruct (load_cancelled c); auto using superseded_onReady.
Qed.

Lemma superseded_ext (id0 : nat) (w w' : world) :
  cycles w' = cycles w -> constructed w' = constructed w ->
  superseded id0 w -> superseded id0 w'.
Proof. unfold superseded. now intros -> ->. Qed.

Lemma superseded_load3Dmol (id0 id : nat) (w : world) :
  superseded id0 w -> superseded id0 (load3Dmol id w).
Proof.
  intros H. unfold load3Dmol.
  destruct (engine w); [now apply superseded_fire|].
  destruct (script w); now apply superseded_ext with w.
Qed.

Lemma superseded_cleanup (id0 id : nat) (w : world) :
  superseded id0 w -> superseded id0 (cleanup id w).
Proof.
  intros [(c0 & Hc0 & Hl0 & He0) Hnone]. split; simpl; auto.
  eapply nth_error_cancel_flag; eauto.
Qed.

Lemma superseded_run_effect (id0 : nat) (p : deps) (w : world) :
  superseded id0 w -> superseded id0 (run_effect p w).
Proof.
  intros [(c0 & Hc0 & Hl0 & He0) Hnone]. unfold run_effect.
  apply superseded_load3Dmol. split; simpl; auto.
  exists c0. split; auto.
  rewrite nth_error_app1; auto. apply nth_error_Some. congruence.
Qed.

Lemma superseded_fold_fire (id0 : nat) (ids : list nat) :
  forall w, superseded id0 w ->
    superseded id0 (fold_left (fun w' id => fire id w') ids w).
Proof.
  induction ids as [|id ids IH]; simpl; auto using superseded_fire.
Qed.

Lemma superseded_step (id0 : nat) (w : world) (e : event) :
  superseded id0 w -> superseded id0 (step w e).
Proof.
  intros H. destruct e as [p| | |]; simpl.
  - destruct (current w) as [id|]; [|now apply superseded_run_effect].
    destruct (nth_error (cycles w) id) as [c|]; auto.
    destruct (deps_changed (inputs c) p); auto.
    now apply superseded_run_effect, superseded_cleanup.
  - destruct (current w); auto using superseded_cleanup.
  - destruct (script w && negb (engine w))%bool; auto.
  - destruct (engine w && negb (loaded w))%bool; auto.
    apply superseded_fold_fire. now apply superseded_ext with w.
Qed.

Lemma superseded_run (id0 : nat) (tr : list event) :
  forall w, superseded id0 w -> superseded id0 (run tr w).
Proof.
  unfold run. induction tr as [|e tr IH]; simpl; auto using superseded_step.
Qed.

(** ** The invariant of the reachable states *)

Lemma invariant_initial : invariant initial.
Proof. split; simpl; [discriminate|auto|discriminate]. Qed.

Lemma invariant_cleanup (id : nat) (w : world) :
  invariant w -> current w = Some id -> invariant (cleanup id w).
Proof.
  intros [Icur Ipend Iready] Hcur. split; simpl.
  - discriminate.
  - intros He. destruct (Ipend He) as (Hld & Hl & Hc & Hs).
    rewrite Hld, Hl, Hc, Hs, Hcur. simpl. now rewrite Nat.eqb_refl.
  - intros He. specialize (Iready He). rewrite Hcur in Iready.
    destruct Iready as [(Hld & Hs & Hl & _) | (Hs & Hl)].
    + rewrite Hs, Hl. simpl. now rewrite Nat.eqb_refl.
    + rewrite Hl. destruct (Icur id Hcur) as (c & -> & _).
      split; [apply clear_viewers_of|]. intros Hld. now rewrite (Hs Hld).
Qed.

Lemma invariant_run_effect (p : deps) (w : world) :
  invariant w -> current w = None -> invariant (run_effect p w).
Proof.
  intros [Icur Ipend Iready] Hcur.
  assert (Hnth : nth_error
                   (cycles w ++ [ {| inputs := p; load_cancelled := false;
                                     effect_cancelled := false |} ])
                   (List.length (cycles w))
                 = Some {| inputs := p; load_cancelled := false;
                           effect_cancelled := false |}).
  { rewrite nth_error_app2, Nat.sub_diag by auto. reflexivity. }
  unfold run_effect, load3Dmol. cbn [engine script].
  destruct (engine w) eqn:He.
  - specialize (Iready eq_refl). rewrite Hcur in Iready.
    destruct Iready as [Hl Hs].
    unfold fire, onReady. cbn [cycles engine]. rewrite Hnth. cbn.
    rewrite ?He. cbn. split; cbn.
    + intros id [= <-]. eauto.
    + rewrite ?He. discriminate.
    + intros _. right. rewrite Hnth, Hl. cbn. auto.
  - destruct (Ipend eq_refl) as (Hld & Hl & Hc & Hs). rewrite Hcur in Hs.
    destruct (script w); split; cbn; rewrite ?He;
      try (intros id [= <-]; eauto); try discriminate;
      intros _; now rewrite Hld, Hl, Hc, Hs.
Qed.

Lemma invariant_script_run (w : world) :
  invariant w -> invariant (step w ScriptRun).
Proof.
  intros I. pose proof I as [Icur Ipend Iready]. cbn [step].
  destruct (script w && negb (engine w))%bool eqn:E; [|assumption].
  apply andb_true_iff in E as [_ He]. apply negb_true_iff in He.
  destruct (Ipend He) as (Hld & Hl & Hc & Hs).
  split; cbn.
  - assumption.
  - discriminate.
  - intros _. rewrite Hs. destruct (current w); auto.
Qed.

Lemma invariant_script_load (w : world) :
  invariant w -> invariant (step w ScriptLoad).
Proof.
  intros I. pose proof I as [Icur Ipend Iready]. cbn [step].
  destruct (engine w && negb (loaded w))%bool eqn:E; [|assumption].
  apply andb_true_iff in E as [He Hld]. apply negb_true_iff in Hld.
  specialize (Iready He).
  destruct (current w) as [id|] eqn:Hcur.
  - destruct (Icur id eq_refl) as (c & Hn & Hlc & Hec).
    destruct Iready as [(_ & Hs & Hl & Hc) | (Hs & Hl)].
    + rewrite Hs. cbn [fold_left].
      unfold fire, onReady. cbn [cycles engine]. rewrite Hn, Hlc, Hec, He. cbn.
      split; cbn.
      * intros id' [= <-]. eauto.
      * rewrite ?He. discriminate.
      * intros _. rewrite ?Hcur. right. rewrite Hn, Hl.
        split; [discriminate|reflexivity].
    + rewrite (Hs Hld). cbn [fold_left]. split; cbn.
      * intros id' [= <-]. eauto.
      * rewrite ?He. discriminate.
      * intros _. rewrite ?Hcur. right. split; [discriminate|assumption].
  - destruct Iready as [Hl Hs]. rewrite (Hs Hld). cbn [fold_left].
    split; cbn.
    + intros id' Hid. congruence.
    + rewrite ?He. discriminate.
    + intros _. rewrite ?Hcur. split; [assumption|discriminate].
Qed.

Lemma invariant_step (w : world) (e : event) :
  invariant w -> invariant (step w e).
Proof.
  intros I. destruct e as [p| | |].
  - cbn [step]. destruct (current w) as [id|] eqn:Hcur.
    + destruct (nth_error (cycles w) id) as [c|]; auto.
      destruct (deps_changed (inputs c) p); auto.
      apply invariant_run_effect; [now apply invariant_cleanup|reflexivity].
    + now apply invariant_run_effect.
  - cbn [step]. destruct (current w) as [id|] eqn:Hcur; auto.
    now apply invariant_cleanup.
  - now apply invariant_script_run.
  - now apply invariant_script_load.
Qed.

Lemma invariant_run (tr : list event) :
  forall w, invariant w -> invariant (run tr w).
Proof.
  unfold run. induction tr as [|e tr IH]; simpl; auto using invariant_step.
Qed.

Lemma run_app (tr tr' : list event) (w : world) :
  run (tr ++ tr') w = run tr' (run tr w).
Proof. unfold run. apply fold_left_app. Qed.

(** One live viewer in each wrapper of the mode, none in the others. *)
Lemma live_in_viewers_of (w : world) (id : nat) (p : deps) (s : surface) :
  live w = viewers_of id p ->
  (In s (surfaces p) ->
   exists v, live_in s w = [v] /\ owner v = id /\ mount v = s)
  /\ (~ In s (surfaces p) -> live_in s w = []).
Proof.
  intros H. unfold live_in, surfaces, viewers_of in *. rewrite H.
  destruct (isDual p), s; simpl; split; intros Hs;
    first [ reflexivity
          | eexists; repeat split; reflexivity
          | exfalso; intuition congruence ].
Qed.

End LifecycleFacts.

(* ------------------------------------------------------------------ *)
(** * What a step of the rendering cycle changes                        *)
(* ------------------------------------------------------------------ *)

Module LifecycleSteps.

Import Lifecycle LifecycleViews LifecycleFacts.

Lemma length_cancel (id : nat) (cs : list cycle) :
  List.length (cancel id cs) = List.length cs.
Proof.
  revert id. induction cs as [|c cs IH]; intros [|id]; simpl; auto.
Qed.

Lemma inputs_cancel (id j : nat) (cs : list cycle) (c : cycle) :
  nth_error cs j = Some c ->
  exists c', nth_error (cancel id cs) j = Some c' /\ inputs c' = inputs c.
Proof.
  intros Hc. destruct (Nat.eq_dec id j) as [->|Hne].
  - rewrite (nth_error_cancel_same _ _ Hc). eauto.
  - rewrite nth_error_cancel_other by assumption. eauto.
Qed.

(** Equal dependencies are equal values. *)
Lemma deps_unchanged (p q : deps) : deps_changed p q = false -> p = q.
Proof.
  unfold deps_changed. rewrite negb_false_iff, !andb_true_iff.
  intros [[[Hp Hm] Hz] _].
  apply String.eqb_eq in Hp. apply Z.eqb_eq in Hz.
  destruct p as [p1 p2 p3], q as [q1 q2 q3]. simpl in *. subst.
  f_equal. destruct p2, q2; simpl in Hm; try discriminate; auto.
  apply String.eqb_eq in Hm. now subst.
Qed.

(** The viewers of a run stand in different wrappers. *)
Lemma viewers_of_mounts (id : nat) (p : deps) :
  NoDup (map mount (viewers_of id p)).
Proof.
  unfold viewers_of. destruct (isDual p); simpl; repeat constructor; simpl;
    intuition discriminate.
Qed.

Lemma viewers_of_not_empty (id : nat) (p : deps) : viewers_of id p <> [].
Proof. unfold viewers_of. destruct (isDual p); discriminate. Qed.

(** The effect, run from a state without current run: the new run is the
    current one; with the engine it has its viewers at once, without it
    nothing is made. *)
Lemma run_effect_cases (p : deps) (w : world) :
  invariant w -> current w = None ->
  let n := List.length (cycles w) in
  let w' := run_effect p w in
  cycles w' = (cycles w ++ [ {| inputs := p; load_cancelled := false;
                                effect_cancelled := false |} ])%list
  /\ current w' = Some n
  /\ ((engine w = true
       /\ live w' = viewers_of n p
       /\ constructed w' = (constructed w ++ viewers_of n p)%list
       /\ loading w' = false)
      \/ (engine w = false
          /\ live w' = [] /\ constructed w' = [] /\ loading w' = true)).
Proof.
  intros [Icur Ipend Iready] Hcur n w'. unfold w', n.
  assert (Hnth : nth_error
                   (cycles w ++ [ {| inputs := p; load_cancelled := false;
                                     effect_cancelled := false |} ])
                   (List.length (cycles w))
                 = Some {| inputs := p; load_cancelled := false;
                           effect_cancelled := false |}).
  { rewrite nth_error_app2, Nat.sub_diag by auto. reflexivity. }
  unfold run_effect, load3Dmol. cbn [engine script].
  destruct (engine w) eqn:He.
  - specialize (Iready eq_refl). rewrite Hcur in Iready.
    destruct Iready as [Hl Hs].
    unfold fire, onReady. cbn [cycles engine]. rewrite Hnth. cbn.
    rewrite ?He. cbn. rewrite Hl. auto 10.
  - destruct (Ipend eq_refl) as (Hld & Hl & Hc & Hs).
    destruct (script w); cbn; auto 10.
Qed.

(** The [load] event: nothing but the flag changes, or the current run,
    which had made nothing, gets its viewers. *)
Lemma script_load_cases (w : world) :
  invariant w ->
  let w' := step w ScriptLoad in
  cycles w' = cycles w /\ current w' = current w
  /\ ((live w' = live w /\ constructed w' = constructed w
       /\ loading w' = loading w)
      \/ exists id c,
           current w = Some id /\ nth_error (cycles w) id = Some c
           /\ live w = [] /\ constructed w = []
           /\ live w' = viewers_of id (inputs c)
           /\ constructed w' = viewers_of id (inputs c)
           /\ loading w' = false).
Proof.
  intros [Icur Ipend Iready]. cbn [step].
  destruct (engine w && negb (loaded w))%bool eqn:E; [|auto 10].
  apply andb_true_iff in E as [He Hld]. apply negb_true_iff in Hld.
  specialize (Iready He).
  destruct (current w) as [id|] eqn:Hcur.
  - destruct (Icur id eq_refl) as (c & Hn & Hlc & Hec).
    destruct Iready as [(_ & Hs & Hl & Hc) | (Hs & Hl)].
    + rewrite Hs. cbn [fold_left].
      unfold fire, onReady. cbn [cycles engine]. rewrite Hn, Hlc, Hec, He. cbn.
      rewrite Hl, Hc. split; [reflexivity|]. split; [reflexivity|].
      right. exists id, c. auto 10.
    + rewrite (Hs Hld). cbn. auto 10.
  - destruct Iready as [Hl Hs]. rewrite (Hs Hld). cbn. auto 10.
Qed.

(** The script runs: the viewers, the runs and the overlay stay. *)
Lemma script_run_same (w : world) :
  let w' := step w ScriptRun in
  cycles w' = cycles w /\ current w' = current w /\ live w' = live w
  /\ constructed w' = constructed w /\ loading w' = loading w.
Proof.
  cbn [step]. destruct (script w && negb (engine w))%bool; cbn; auto.
Qed.

(** After [Render p] the current run has the values [p]. *)
Lemma render_current (p : deps) (w : world) :
  invariant w ->
  exists id c,
    current (step w (Render p)) = Some id
    /\ nth_error (cycles (step w (Render p))) id = Some c
    /\ inputs c = p.
Proof.
  intros I.
  assert (Hrun : forall w0, invariant w0 -> current w0 = None ->
            exists id c,
              current (run_effect p w0) = Some id
              /\ nth_error (cycles (run_effect p w0)) id = Some c
              /\ inputs c = p).
  { intros w0 I0 H0.
    destruct (run_effect_cases p I0 H0) as (Hc & Hcur & _).
    exists (List.length (cycles w0)). eexists.
    split; [exact Hcur|]. rewrite Hc.
    rewrite nth_error_app2, Nat.sub_diag by auto. simpl. auto. }
  cbn [step]. destruct (current w) as [id|] eqn:Hcur; [|now apply Hrun].
  destruct (inv_current I Hcur) as (c & Hc & _). rewrite Hc.
  destruct (deps_changed (inputs c) p) eqn:Hd.
  - apply Hrun; [now apply invariant_cleanup|reflexivity].
  - exists id, c. repeat split; auto. now apply deps_unchanged.
Qed.

(** What a reachable state shows: nothing, or the viewers of the current
    run. *)
Lemma live_cases (w : world) :
  invariant w ->
  live w = []
  \/ exists id c,
       current w = Some id /\ nth_error (cycles w) id = Some c
       /\ live w = viewers_of id (inputs c).
Proof.
  intros I. destruct (engine w) eqn:He.
  - pose proof (inv_ready I He) as Hr.
    destruct (current w) as [id|] eqn:Hcur; [|now left].
    destruct Hr as [(_ & _ & Hl & _) | (_ & Hl)]; [now left|].
    destruct (inv_current I Hcur) as (c & Hc & _). rewrite Hc in Hl.
    right. eauto.
  - left. now destruct (inv_pending I He) as (_ & Hl & _).
Qed.

(** ** The overlay *)

Lemma overlay_run_effect (p : deps) (w : world) :
  invariant w -> current w = None -> overlay_matches (run_effect p w).
Proof.
  intros I Hcur id c Hid Hc.
  destruct (run_effect_cases p I Hcur) as (Hcs & Hcur' & Hcase).
  rewrite Hcur' in Hid. injection Hid as <-.
  rewrite Hcs, nth_error_app2, Nat.sub_diag in Hc by auto.
  injection Hc as <-. cbn [inputs].
  destruct Hcase as [(_ & Hl & _ & Hld) | (_ & Hl & _ & Hld)]; auto.
Qed.

Lemma overlay_step (w : world) (e : event) :
  invariant w -> overlay_matches w -> overlay_matches (step w e).
Proof.
  intros I O. destruct e as [p| | |].
  - cbn [step]. destruct (current w) as [id|] eqn:Hcur.
    + destruct (nth_error (cycles w) id) as [c|]; auto.
      destruct (deps_changed (inputs c) p); auto.
      apply overlay_run_effect; [now apply invariant_cleanup|reflexivity].
    + now apply overlay_run_effect.
  - cbn [step]. destruct (current w) as [id|] eqn:Hcur; auto.
    intros id' c' Hid. discriminate.
  - destruct (script_run_same w) as (Hc & Hcur & Hl & _ & Hld).
    intros id c. rewrite Hc, Hcur, Hl, Hld. apply O.
  - destruct (script_load_cases I) as (Hc & Hcur & Hcase).
    intros id c. rewrite Hc, Hcur.
    destruct Hcase as [(Hl & _ & Hld) | (id' & c' & Hid' & Hc' & _ & _ & Hl & _ & Hld)].
    + rewrite Hl, Hld. apply O.
    + intros Hid Hcid. right. split; [assumption|]. congruence.
Qed.

Lemma overlay_run (tr : list event) :
  forall w, invariant w -> overlay_matches w -> overlay_matches (run tr w).
Proof.
  unfold run. induction tr as [|e tr IH]; simpl; auto.
  intros w I O. apply IH; [now apply invariant_step|now apply overlay_step].
Qed.

Lemma overlay_initial : overlay_matches initial.
Proof. intros id c H. discriminate. Qed.

(** ** The viewers ever made *)

Lemma NoDup_place_viewers_of (id : nat) (p : deps) :
  NoDup (map place (viewers_of id p)).
Proof.
  unfold viewers_of, place. destruct (isDual p); simpl; repeat constructor;
    simpl; intuition discriminate.
Qed.

Lemma made_once_append (w : world) (vs : list viewer) (n : nat) (p : deps) :
  (forall v, In v vs -> (owner v < n)%nat) ->
  NoDup (map place vs) ->
  NoDup (map place (vs ++ viewers_of n p)).
Proof.
  intros Hlt Hnd. rewrite map_app.
  induction vs as [|v vs IH]; simpl.
  - apply NoDup_place_viewers_of.
  - inversion Hnd as [|? ? Hnotin Hnd']; subst.
    constructor.
    + rewrite <- map_app. intros Hin. apply in_map_iff in Hin.
      destruct Hin as (v' & Hp & Hv'). apply in_app_or in Hv' as [Hv'|Hv'].
      * apply Hnotin. apply in_map_iff. eauto.
      * apply viewers_of_owner in Hv'.
        assert (Ho : owner v' = owner v) by (unfold place in Hp; congruence).
        specialize (Hlt v (or_introl eq_refl)). lia.
    + apply IH; auto. intros v' Hv'. apply Hlt. now right.
Qed.

Lemma made_once_run_effect (p : deps) (w : world) :
  invariant w -> current w = None -> made_once w ->
  made_once (run_effect p w).
Proof.
  intros I Hcur [Hlt Hnd].
  destruct (run_effect_cases p I Hcur) as (Hcs & _ & Hcase).
  unfold made_once. rewrite Hcs, length_app, Nat.add_comm. cbn [List.length plus].
  destruct Hcase as [(_ & _ & Hc & _) | (_ & _ & Hc & _)]; rewrite Hc.
  - split.
    + intros v Hv. apply in_app_or in Hv as [Hv|Hv].
      * specialize (Hlt v Hv). lia.
      * apply viewers_of_owner in Hv. lia.
    + now apply (made_once_append w).
  - split; [intros v []|constructor].
Qed.

Lemma made_once_cleanup (id : nat) (w : world) :
  made_once w -> made_once (cleanup id w).
Proof.
  intros [Hlt Hnd]. split; cbn; [|assumption].
  now rewrite length_cancel.
Qed.

Lemma made_once_step (w : world) (e : event) :
  invariant w -> made_once w -> made_once (step w e).
Proof.
  intros I M. destruct e as [p| | |].
  - cbn [step]. destruct (current w) as [id|] eqn:Hcur.
    + destruct (nth_error (cycles w) id) as [c|]; auto.
      destruct (deps_changed (inputs c) p); auto.
      apply made_once_run_effect;
        [now apply invariant_cleanup|reflexivity|now apply made_once_cleanup].
    + now apply made_once_run_effect.
  - cbn [step]. destruct (current w) as [id|] eqn:Hcur; auto.
    now apply made_once_cleanup.
  - destruct (script_run_same w) as (Hc & _ & _ & Hm & _).
    unfold made_once. now rewrite Hc, Hm.
  - destruct (script_load_cases I) as (Hc & _ & Hcase).
    unfold made_once. rewrite Hc.
    destruct Hcase as [(_ & Hm & _) | (id & c & Hid & Hcid & _ & _ & _ & Hm & _)];
      rewrite Hm; [assumption|].
    split; [|apply NoDup_place_viewers_of].
    intros v Hv. apply viewers_of_owner in Hv. rewrite Hv.
    apply nth_error_Some. congruence.
Qed.

Lemma made_once_run (tr : list event) :
  forall w, invariant w -> made_once w -> made_once (run tr w).
Proof.
  unfold run. induction tr as [|e tr IH]; simpl; auto.
  intros w I M. apply IH; [now apply invariant_step|now apply made_once_step].
Qed.

Lemma made_once_initial : made_once initial.
Proof. split; [intros v []|constructor]. Qed.

(** Events of the script leave the runs alone. *)
Lemma script_events_keep_runs (tr : list event) :
  (forall e, In e tr -> e = ScriptRun \/ e = ScriptLoad) ->
  forall w, invariant w ->
    cycles (run tr w) = cycles w /\ current (run tr w) = current w.
Proof.
  unfold run. induction tr as [|e tr IH]; intros Hs w I; [auto|].
  cbn [fold_left].
  assert (He : e = ScriptRun \/ e = ScriptLoad) by (apply Hs; now left).
  assert (Hstep : cycles (step w e) = cycles w /\ current (step w e) = current w).
  { destruct He as [-> | ->].
    - destruct (script_run_same w) as (H1 & H2 & _). auto.
    - destruct (script_load_cases I) as (H1 & H2 & _). auto. }
  destruct (IH (fun e' H => Hs e' (or_intror H)) (step w e)
              (invariant_step e I)) as [H1 H2].
  destruct Hstep as [H3 H4]. split; congruence.
Qed.

End LifecycleSteps.

(* ------------------------------------------------------------------ *)
(** * Properties of the string methods                                  *)
(* ------------------------------------------------------------------ *)

Module StringFacts.

Import JsText.
Local Open Scope string_scope.

(** ** Lengths *)

Lemma length_trimStart (s : string) :
  (String.length (trimStart s) <= String.length s)%nat.
Proof.
  induction s as [|c s IH]; simpl; auto.
  destruct (is_space c); simpl; lia.
Qed.

Lemma length_trimEnd (s : string) :
  (String.length (trimEnd s) <= String.length s)%nat.
Proof.
  induction s as [|c s IH]; simpl; auto.
  destruct (trimEnd s); [destruct (is_space c)|]; simpl in *; lia.
Qed.

Lemma length_trim (s : string) :
  (String.length (trim s) <= String.length s)%nat.
Proof.
  unfold trim. pose proof (length_trimEnd (trimStart s)).
  pose proof (length_trimStart s). lia.
Qed.

Lemma length_String_substring (n m : nat) (s : string) :
  (String.length (String.substring n m s) <= m)%nat.
Proof.
  revert n m. induction s as [|c s IH]; intros [|n] [|m]; simpl; try lia.
  - specialize (IH 0%nat m). lia.
  - apply IH.
  - apply IH.
Qed.

(** A field taken between two columns is no longer than their distance. *)
Lemma length_substring (a b : nat) (s : string) :
  (String.length (JsString.substring a b s) <= Nat.max a b - Nat.min a b)%nat.
Proof. apply length_String_substring. Qed.

(** ** Runs of digits *)

Lemma digit_val_range (c : ascii) :
  is_digit c = true -> (0 <= digit_val c <= 9)%Z.
Proof.
  unfold is_digit, digit_val. cbv zeta.
  rewrite andb_true_iff, !Nat.leb_le. lia.
Qed.

Lemma span_digits_spec (s : string) :
  all_units is_digit (fst (span_digits s)) = true
  /\ s = fst (span_digits s) ++ snd (span_digits s)
  /\ match snd (span_digits s) with
     | String c _ => is_digit c = false
     | EmptyString => True
     end.
Proof.
  induction s as [|c s IH]; simpl; auto.
  destruct (is_digit c) eqn:E; simpl.
  - destruct (span_digits s) as [d r]. simpl in *.
    destruct IH as (H1 & H2 & H3). rewrite E, H1. repeat split; auto.
    now rewrite <- H2.
  - auto.
Qed.

Lemma length_append (s t : string) :
  String.length (s ++ t) = (String.length s + String.length t)%nat.
Proof. induction s; simpl; auto. Qed.

Lemma length_span_digits (s : string) :
  (String.length (fst (span_digits s)) <= String.length s)%nat.
Proof.
  destruct (span_digits_spec s) as (_ & H & _).
  rewrite H at 2. rewrite length_append. lia.
Qed.

(** The value of a run of digits, between the values of the runs of zeros
    and of nines of its length. *)
Lemma digits_value_bounds (ds : string) :
  all_units is_digit ds = true ->
  forall acc : Z,
    (0 <= acc ->
     acc * 10 ^ Z.of_nat (String.length ds) <= digits_value acc ds
     /\ digits_value acc ds
        <= acc * 10 ^ Z.of_nat (String.length ds)
           + 10 ^ Z.of_nat (String.length ds) - 1)%Z.
Proof.
  induction ds as [|c ds IH]; intros Hd acc Hacc.
  - simpl. lia.
  - simpl in Hd. apply andb_true_iff in Hd as [Hc Hd].
    pose proof (digit_val_range c Hc) as Hv.
    cbn [digits_value String.length].
    rewrite Nat2Z.inj_succ, Z.pow_succ_r by lia.
    specialize (IH Hd (10 * acc + digit_val c)%Z ltac:(lia)).
    assert (0 < 10 ^ Z.of_nat (String.length ds))%Z
      by (apply Z.pow_pos_nonneg; lia).
    nia.
Qed.

(** [parseInt] with a result is a sign and the value of a run of digits. *)
Lemma parseInt_Some (s : string) (v : Z) :
  parseInt s = Some v ->
  exists neg r ds,
    take_sign (trimStart s) = (neg, r)
    /\ ds = fst (span_digits r) /\ ds <> EmptyString
    /\ v = cond_Zopp neg (digits_value 0 ds).
Proof.
  unfold parseInt. destruct (take_sign (trimStart s)) as [neg r].
  destruct (span_digits r) as [ds rest] eqn:E.
  destruct ds as [|d ds]; [discriminate|].
  intros [= <-]. exists neg, r, (String d ds). rewrite E. simpl.
  repeat split; auto. discriminate.
Qed.

Lemma length_take_sign (s r : string) (neg : bool) :
  take_sign s = (neg, r) ->
  (String.length r <= String.length s)%nat
  /\ (neg = true -> (String.length r < String.length s)%nat).
Proof.
  unfold take_sign. destruct s as [|c s].
  - intros [= <- <-]. split; [lia|discriminate].
  - destruct (Ascii.eqb c "-") eqn:E1; [|destruct (Ascii.eqb c "+") eqn:E2].
    + apply Ascii.eqb_eq in E1. subst c. intros [= <- <-]. simpl. split; lia.
    + apply Ascii.eqb_eq in E2. subst c. intros [= <- <-]. simpl.
      split; [lia|discriminate].
    + assert (H : match c with
                  | "-"%char => (true, s)
                  | "+"%char => (false, s)
                  | _ => (false, String c s)
                  end = (false, String c s)).
      { destruct c as [[] [] [] [] [] [] [] []]; try reflexivity;
          discriminate. }
      rewrite H. intros [= <- <-]. split; [simpl; lia|discriminate].
Qed.

(** [parseInt] of a field of four units at most. *)
Lemma parseInt_four (s : string) (v : Z) :
  (String.length s <= 4)%nat -> parseInt s = Some v -> (-999 <= v <= 9999)%Z.
Proof.
  intros Hlen H.
  destruct (parseInt_Some _ H) as (neg & r & ds & Hs & Hds & _ & ->).
  destruct (length_take_sign _ Hs) as [Hr Hneg].
  pose proof (length_trimStart s) as Ht.
  pose proof (length_span_digits r) as Hd. rewrite <- Hds in Hd.
  destruct (span_digits_spec r) as (Hall & _). rewrite <- Hds in Hall.
  destruct (@digits_value_bounds ds Hall 0%Z ltac:(lia)) as [Hlo Hhi].
  simpl in Hlo, Hhi.
  destruct neg; simpl.
  - specialize (Hneg eq_refl).
    assert (Hp : (10 ^ Z.of_nat (String.length ds) <= 10 ^ 3)%Z)
      by (apply Z.pow_le_mono_r; lia).
    change (10 ^ 3)%Z with 1000%Z in Hp. lia.
  - assert (Hp : (10 ^ Z.of_nat (String.length ds) <= 10 ^ 4)%Z)
      by (apply Z.pow_le_mono_r; lia).
    change (10 ^ 4)%Z with 10000%Z in Hp. lia.
Qed.

End StringFacts.

(* ------------------------------------------------------------------ *)
(** * Where the entries of the maps come from                           *)
(* ------------------------------------------------------------------ *)

Module EntryFacts.

Import JsMap JsMapFacts ParserFacts StringFacts.

(** The record of a line: numbers that are not [NaN], and a residue number
    read in a field of four units. *)
Lemma record_of_sound (line : string) (resi : Z) (c : coord) :
  record_of line = Some (resi, c) ->
  is_nan (x c) = false /\ is_nan (y c) = false /\ is_nan (z c) = false
  /\ (-999 <= resi <= 9999)%Z.
Proof.
  unfold record_of.
  destruct (startsWith "ATOM  " line && _)%bool; [|discriminate].
  destruct (parseInt (trim (JsString.substring 22 26 line))) as [k|] eqn:Ek;
    [|discriminate].
  unfold isNaN.
  destruct (is_nan (parseFloat (trim (JsString.substring 30 38 line)))) eqn:Ex;
    [discriminate|].
  destruct (is_nan (parseFloat (trim (JsString.substring 38 46 line)))) eqn:Ey;
    [discriminate|].
  destruct (is_nan (parseFloat (trim (JsString.substring 46 54 line)))) eqn:Ez;
    [discriminate|].
  simpl. intros [= <- <-]. simpl. repeat split; auto;
    apply (@parseInt_four _ _
             ltac:(eapply Nat.le_trans;
                   [apply length_trim|apply (length_substring 22 26)]) Ek).
Qed.

(** The lines of a text, read in order: the entry of a residue is the last
    record of that residue. *)
Lemma get_fold_parse_line_last (resi : Z) (c : coord) (ls : list string) :
  get resi (fold_left parse_line ls empty) = Some c ->
  exists before line after,
    ls = (before ++ line :: after)%list
    /\ record_of line = Some (resi, c)
    /\ forall l c', In l after -> record_of l <> Some (resi, c').
Proof.
  induction ls as [|l ls IH] using rev_ind.
  - discriminate.
  - rewrite fold_left_app. cbn [fold_left]. rewrite parse_line_record.
    destruct (record_of l) as [[k c']|] eqn:E.
    + destruct (Z.eq_dec k resi) as [->|Hne].
      * rewrite get_set_same. intros [= ->].
        exists ls, l, []. repeat split; auto; intros l' c'' [].
      * rewrite get_set_other by assumption. intros H.
        destruct (IH H) as (before & line & after & -> & Hr & Hafter).
        exists before, line, (after ++ [l])%list.
        rewrite <- app_assoc. repeat split; auto.
        intros l' c'' Hin. apply in_app_or in Hin as [Hin|[<-|[]]]; auto.
        rewrite E. congruence.
    + intros H.
      destruct (IH H) as (before & line & after & -> & Hr & Hafter).
      exists before, line, (after ++ [l])%list.
      rewrite <- app_assoc. repeat split; auto.
      intros l' c'' Hin. apply in_app_or in Hin as [Hin|[<-|[]]]; auto.
      rewrite E. discriminate.
Qed.

Lemma get_fold_parse_line_None (resi : Z) (ls : list string) :
  get resi (fold_left parse_line ls empty) = None ->
  forall l c, In l ls -> record_of l <> Some (resi, c).
Proof.
  induction ls as [|l ls IH] using rev_ind.
  - intros _ l c [].
  - rewrite fold_left_app. cbn [fold_left]. rewrite parse_line_record.
    destruct (record_of l) as [[k c']|] eqn:E.
    + destruct (Z.eq_dec k resi) as [->|Hne].
      * rewrite get_set_same. discriminate.
      * rewrite get_set_other by assumption. intros H l' c'' Hin.
        apply in_app_or in Hin as [Hin|[<-|[]]]; [now apply IH|].
        rewrite E. congruence.
    + intros H l' c'' Hin.
      apply in_app_or in Hin as [Hin|[<-|[]]]; [now apply IH|].
      rewrite E. discriminate.
Qed.

(** The keys of the result of the loop of [computePerResidueRmsd]: those of
    the accumulator, then the keys of [wildCa] that [mutantCa] has, in the
    order of [wildCa]. *)
Lemma keys_fold_rmsd_step (mutantCa : t coord) :
  forall (wildCa : t coord) (acc : t float),
    wf wildCa ->
    (forall k, In k (keys wildCa) -> ~ In k (keys acc)) ->
    keys (fold_left (rmsd_step mutantCa) wildCa acc)
    = (keys acc
       ++ filter (fun k => match get k mutantCa with
                           | Some _ => true
                           | None => false
                           end) (keys wildCa))%list.
Proof.
  induction wildCa as [|[k w] wildCa IH]; intros acc Hwf Hfresh.
  - simpl. now rewrite app_nil_r.
  - inversion Hwf as [|? ? Hnotin Hwf']; subst.
    cbn [fold_left]. unfold rmsd_step at 2. cbn [keys map fst filter].
    destruct (get k mutantCa) as [m|] eqn:Em.
    + rewrite IH; auto.
      * rewrite keys_set.
        assert (Hk : get k acc = None).
        { apply get_None_keys. apply Hfresh. now left. }
        rewrite Hk, <- app_assoc. reflexivity.
      * intros k' Hk'. rewrite keys_set.
        assert (Hk : get k acc = None).
        { apply get_None_keys. apply Hfresh. now left. }
        rewrite Hk. intros Hin. apply in_app_or in Hin as [Hin|[<-|[]]].
        -- apply (Hfresh k'); [now right|assumption].
        -- apply Hnotin. exact Hk'.
    + apply IH; auto. intros k' Hk'. apply Hfresh. now right.
Qed.

End EntryFacts.

(* ------------------------------------------------------------------ *)
(** * The loops of the confidence averages                              *)
(* ------------------------------------------------------------------ *)

Module PlddtFacts.

Import Plddt FloatFacts FloatBounds.
Local Open Scope Z_scope.

(** ** The counter *)

(** [count + 1] stays at or above 1. *)
Lemma count_succ (c : float) :
  (1 <=? c)%float = true -> (1 <=? c + 1)%float = true.
Proof.
  intros H. pose proof (Prim2SF_valid (c + 1)%float) as Hvalid.
  rewrite leb_spec in *. rewrite add_spec in *.
  change (Prim2SF 1) with (S754_finite false 4503599627370496 (-52)) in *.
  apply leb_finite_cases in H; [|lia].
  destruct H as [Hv | (m & e & Hv & Hd & He)]; rewrite Hv in *;
    [reflexivity|].
  pose proof (digits2_pos_bounds m) as Bm. rewrite Hd in Bm.
  change (2 ^ (53 - 1)) with 4503599627370496 in Bm.
  unfold SF64add, SFadd in *. cbv zeta in *.
  assert (Hmin : Z.min e (-52) = -52) by lia. rewrite Hmin in *.
  destruct (@shl_align_down m e (-52) ltac:(lia)) as [_ Ha].
  rewrite Ha in *. clear Ha.
  change (Zpos (fst (shl_align 4503599627370496 (-52) (-52))))
    with 4503599627370496 in *.
  cbn [cond_Zopp] in *.
  assert (Hpow : 1 <= 2 ^ (e - -52)).
  { change 1 with (2 ^ 0) at 1. apply Z.pow_le_mono_r; lia. }
  assert (HM : 9007199254740992 <= Zpos m * 2 ^ (e - -52) + 4503599627370496)
    by nia.
  destruct (Zpos m * 2 ^ (e - -52) + 4503599627370496) as [|pM|pM] eqn:EM;
    try lia.
  cbn [binary_normalize] in *. unfold binary_round in *.
  pose proof (digits2_pos_bounds pM) as BM.
  assert (HdM : 54 <= Zpos (digits2_pos pM)).
  { assert (Hlt : 2 ^ 53 < 2 ^ Zpos (digits2_pos pM)).
    { change (2 ^ 53) with 9007199254740992. lia. }
    apply Z.pow_lt_mono_r_iff in Hlt; lia. }
  assert (Hshl : shl_align pM (-52) (fexp prec emax (Zpos (digits2_pos pM) + -52))
                 = (pM, -52)).
  { unfold shl_align. rewrite fexp_64.
    destruct (Z.max _ _ - -52) eqn:E; try reflexivity. lia. }
  rewrite Hshl in *.
  apply binary_round_aux_ge; try assumption; try reflexivity; lia.
Qed.

(** A counter at or above 1 passes the two tests of the averages. *)
Lemma count_tests (c : float) :
  (1 <=? c)%float = true -> (c =? 0)%float = false /\ (0 <? c)%float = true.
Proof.
  rewrite leb_spec, eqb_spec, ltb_spec.
  change (Prim2SF 1) with (S754_finite false 4503599627370496 (-52)).
  change (Prim2SF 0) with (S754_zero false).
  intros H. apply leb_finite_cases in H; [|lia].
  destruct H as [Hv | (m & e & Hv & _)]; rewrite Hv; split; reflexivity.
Qed.

(** ** The loops, as one loop over the lines that they read *)

(** The lines that [calculateAveragePlddt] reads. *)
Lemma fold_average_step (ls : list string) :
  forall t,
    fold_left average_step ls t
    = fold_left add_bFactor
        (filter (fun line => startsWith "ATOM  " line
                             || startsWith ("ATOM" ++ tab) line)%bool ls) t.
Proof.
  induction ls as [|l ls IH]; intros t; [reflexivity|].
  cbn [fold_left filter]. rewrite IH. unfold average_step.
  destruct (startsWith "ATOM  " l || startsWith ("ATOM" ++ tab) l)%bool;
    reflexivity.
Qed.

(** The lines that [getResiduePlddt] reads. *)
Lemma fold_residue_step (resi : Z) (ls : list string) :
  forall t,
    fold_left (residue_step resi) ls t
    = fold_left add_bFactor
        (filter (fun line => startsWith "ATOM  " line
                             && of_residue resi line)%bool ls) t.
Proof.
  induction ls as [|l ls IH]; intros t; [reflexivity|].
  cbn [fold_left filter]. rewrite IH. unfold residue_step, of_residue.
  destruct (startsWith "ATOM  " l); cbn [negb andb]; [|reflexivity].
  destruct (parseInt _) as [r|]; [|reflexivity].
  destruct (r =? resi); reflexivity.
Qed.

(** Lines without number in the B-factor field change nothing. *)
Lemma fold_add_bFactor_none (ls : list string) :
  (forall l, In l ls -> counted l = false) ->
  forall t, fold_left add_bFactor ls t = t.
Proof.
  induction ls as [|l ls IH]; intros H t; [reflexivity|].
  cbn [fold_left]. unfold add_bFactor at 2. cbv zeta.
  pose proof (H l (or_introl eq_refl)) as Hl. unfold counted in Hl.
  rewrite Hl. apply IH. intros l' Hl'. apply H. now right.
Qed.

(** After the loop the counter is at or above 1 if it was, or if a line was
    counted. *)
Lemma count_fold_add_bFactor (ls : list string) :
  forall t,
    (1 <=? count t)%float = true
    \/ (t = start /\ exists l, In l ls /\ counted l = true) ->
    (1 <=? count (fold_left add_bFactor ls t))%float = true.
Proof.
  induction ls as [|l ls IH]; intros t H.
  - destruct H as [H | (_ & l & [] & _)]. exact H.
  - cbn [fold_left]. apply IH. unfold add_bFactor. cbv zeta.
    fold (counted l).
    destruct (counted l) eqn:El.
    + left. cbn [count]. destruct H as [H | (-> & _)].
      * now apply count_succ.
      * reflexivity.
    + destruct H as [H | (-> & l' & [<- | Hl'] & Hc)]; auto.
      * congruence.
      * right. eauto.
Qed.

(** The two tests of the counter agree after the loop. *)
Lemma count_fold_cases (ls : list string) :
  let t := fold_left add_bFactor ls start in
  (t = start /\ forall l, In l ls -> counted l = false)
  \/ ((count t =? 0)%float = false /\ (0 <? count t)%float = true
      /\ exists l, In l ls /\ counted l = true).
Proof.
  intros t.
  destruct (existsb counted ls) eqn:E.
  - right. apply existsb_exists in E.
    assert (H : (1 <=? count t)%float = true).
    { apply count_fold_add_bFactor. right. auto. }
    destruct (count_tests H). auto.
  - left.
    assert (H : forall l, In l ls -> counted l = false).
    { intros l Hl. destruct (counted l) eqn:El; auto.
      assert (existsb counted ls = true)
        by (apply existsb_exists; eauto).
      congruence. }
    split; [|exact H]. now apply fold_add_bFactor_none.
Qed.

End PlddtFacts.

(* ------------------------------------------------------------------ *)
(** * Runs of code units, upper case and decimal notation               *)
(* ------------------------------------------------------------------ *)

Module TextFacts.

Import JsText StringFacts.
Local Open Scope string_scope.

Lemma append_assoc (a b c : string) : (a ++ b) ++ c = a ++ (b ++ c).
Proof. induction a as [|x a IH]; simpl; congruence. Qed.

Lemma append_nil_r (a : string) : a ++ "" = a.
Proof. induction a as [|x a IH]; simpl; congruence. Qed.

Lemma all_units_app (p : ascii -> bool) (a b : string) :
  all_units p (a ++ b) = (all_units p a && all_units p b)%bool.
Proof.
  induction a as [|x a IH]; simpl; auto. rewrite IH. apply andb_assoc.
Qed.

(** ** The longest run *)

Lemma span_spec (p : ascii -> bool) (s : string) :
  s = fst (span p s) ++ snd (span p s)
  /\ all_units p (fst (span p s)) = true
  /\ stops p (snd (span p s)).
Proof.
  induction s as [|c s IH]; simpl; auto.
  destruct (p c) eqn:E; simpl; auto.
  destruct (span p s) as [d r]. simpl in *.
  destruct IH as (H1 & H2 & H3). rewrite E, H2. repeat split; auto.
  now rewrite <- H1.
Qed.

Lemma span_app (p : ascii -> bool) (d r : string) :
  all_units p d = true -> stops p r -> span p (d ++ r) = (d, r).
Proof.
  intros Hd Hr. induction d as [|c d IH]; simpl.
  - destruct r as [|c r]; simpl in *; [reflexivity|now rewrite Hr].
  - simpl in Hd. apply andb_true_iff in Hd as [Hc Hd].
    now rewrite Hc, IH.
Qed.

Lemma span_digits_span (s : string) : span_digits s = span is_digit s.
Proof.
  induction s as [|c s IH]; simpl; auto. now rewrite IH.
Qed.

(** ** The classes of code units *)

Lemma space_not_alnum (c : ascii) : is_space c = true -> is_alnum c = false.
Proof.
  destruct c as [[] [] [] [] [] [] [] []]; vm_compute; congruence.
Qed.

Lemma letter_not_space (c : ascii) : is_letter c = true -> is_space c = false.
Proof.
  destruct c as [[] [] [] [] [] [] [] []]; vm_compute; congruence.
Qed.

Lemma letter_not_digit (c : ascii) : is_letter c = true -> is_digit c = false.
Proof.
  destruct c as [[] [] [] [] [] [] [] []]; vm_compute; congruence.
Qed.

Lemma digit_not_space (c : ascii) : is_digit c = true -> is_space c = false.
Proof.
  destruct c as [[] [] [] [] [] [] [] []]; vm_compute; congruence.
Qed.

Lemma digit_not_sign (c : ascii) :
  is_digit c = true -> c <> "-"%char /\ c <> "+"%char.
Proof.
  destruct c as [[] [] [] [] [] [] [] []]; vm_compute; split; congruence.
Qed.

(** ** Upper case *)

Lemma upper_unit_letter (c : ascii) :
  is_letter c = true -> is_letter (upper_unit c) = true.
Proof.
  destruct c as [[] [] [] [] [] [] [] []]; vm_compute; congruence.
Qed.

Lemma upper_unit_digit (c : ascii) :
  is_digit c = true -> upper_unit c = c.
Proof.
  destruct c as [[] [] [] [] [] [] [] []]; vm_compute; congruence.
Qed.

Lemma upper_unit_alnum (c : ascii) :
  is_alnum c = true -> is_alnum (upper_unit c) = true.
Proof.
  destruct c as [[] [] [] [] [] [] [] []]; vm_compute; congruence.
Qed.

Lemma upper_unit_idem (c : ascii) : upper_unit (upper_unit c) = upper_unit c.
Proof.
  destruct c as [[] [] [] [] [] [] [] []]; vm_compute; congruence.
Qed.

Lemma toUpperCase_idem (s : string) :
  toUpperCase (toUpperCase s) = toUpperCase s.
Proof.
  induction s as [|c s IH]; simpl; auto. now rewrite upper_unit_idem, IH.
Qed.

Lemma toUpperCase_alnum (s : string) :
  all_units is_alnum s = true -> all_units is_alnum (toUpperCase s) = true.
Proof.
  induction s as [|c s IH]; simpl; auto. rewrite !andb_true_iff.
  intros [Hc Hs]. auto using upper_unit_alnum.
Qed.

Lemma length_toUpperCase (s : string) :
  String.length (toUpperCase s) = String.length s.
Proof. induction s as [|c s IH]; simpl; auto. Qed.

Lemma toUpperCase_app (a b : string) :
  toUpperCase (a ++ b) = toUpperCase a ++ toUpperCase b.
Proof. induction a as [|c a IH]; simpl; congruence. Qed.

(** ** Trimming *)

Lemma trimStart_stops (s : string) : stops is_space s -> trimStart s = s.
Proof. destruct s as [|c s]; simpl; auto. now intros ->. Qed.

(** A text that ends with a unit that is no space. *)
Lemma trimEnd_last (s : string) (c : ascii) :
  is_space c = false ->
  trimEnd (s ++ String c "") = s ++ String c "".
Proof.
  intros Hc. induction s as [|a s IH]; simpl.
  - now rewrite Hc.
  - rewrite IH. destruct s; reflexivity.
Qed.

(** ** Decimal notation *)

Lemma digits_value_app (a b : string) (acc : Z) :
  digits_value acc (a ++ b) = digits_value (digits_value acc a) b.
Proof. revert acc. induction a as [|c a IH]; simpl; auto. Qed.

Lemma digit_char (d : Z) :
  (0 <= d < 10)%Z ->
  is_digit (ascii_of_nat (48 + Z.to_nat d)) = true
  /\ digit_val (ascii_of_nat (48 + Z.to_nat d)) = d.
Proof.
  intros H. unfold is_digit, digit_val. cbv zeta.
  rewrite nat_ascii_embedding by lia.
  split; [|lia].
  apply andb_true_iff. split; apply Nat.leb_le; lia.
Qed.

(** [digits_of] with enough fuel writes the decimal digits of the number
    before the accumulator. *)
Lemma digits_of_spec (fuel : nat) :
  forall (n : Z) (acc : string),
    (0 <= n < 10 ^ Z.of_nat fuel)%Z -> (0 < fuel)%nat ->
    exists ds,
      digits_of fuel n acc = ds ++ acc
      /\ ds <> "" /\ all_units is_digit ds = true
      /\ forall a, digits_value a ds
                   = (a * 10 ^ Z.of_nat (String.length ds) + n)%Z.
Proof.
  induction fuel as [|fuel IH]; intros n acc Hn Hfuel; [lia|].
  cbn [digits_of].
  pose proof (Z.mod_pos_bound n 10 ltac:(lia)) as Hmod.
  destruct (digit_char Hmod) as [Hd Hv].
  remember (ascii_of_nat (48 + Z.to_nat (n mod 10))) as d eqn:Ed.
  clear Ed.
  destruct (n <? 10)%Z eqn:E.
  - apply Z.ltb_lt in E. exists (String d "").
    repeat split; auto; try discriminate.
    + simpl. now rewrite Hd.
    + intros a. cbn [digits_value String.length].
      change (Z.of_nat 1) with 1%Z. rewrite Z.pow_1_r, Hv, Z.mod_small by lia.
      lia.
  - apply Z.ltb_ge in E.
    assert (Hfuel' : (0 < fuel)%nat).
    { destruct fuel; [|lia]. simpl in Hn. lia. }
    assert (Hq : (0 <= n / 10 < 10 ^ Z.of_nat fuel)%Z).
    { split; [apply Z.div_pos; lia|].
      apply Z.div_lt_upper_bound; [lia|].
      rewrite Nat2Z.inj_succ, Z.pow_succ_r in Hn by lia. lia. }
    destruct (IH (n / 10)%Z (String d acc) Hq Hfuel')
      as (ds & Heq & Hne & Hall & Hval).
    exists (ds ++ String d ""). repeat split.
    + rewrite Heq, append_assoc. reflexivity.
    + destruct ds; discriminate.
    + rewrite all_units_app, Hall. simpl. now rewrite Hd.
    + intros a. rewrite digits_value_app, Hval. cbn [digits_value].
      rewrite Hv, length_append. cbn [String.length].
      rewrite Nat.add_1_r, Nat2Z.inj_succ, Z.pow_succ_r by lia.
      pose proof (Z.div_mod n 10 ltac:(lia)). lia.
Qed.

(** The notation of a number that is not negative is a run of digits whose
    value is the number. *)
Lemma show_Z_digits (n : Z) :
  (0 <= n)%Z ->
  show_Z n <> "" /\ all_units is_digit (show_Z n) = true
  /\ digits_value 0 (show_Z n) = n.
Proof.
  intros Hn. destruct n as [|p|p]; try lia.
  - repeat split; try reflexivity. discriminate.
  - unfold show_Z.
    assert (Hb : (0 <= Zpos p
                  < 10 ^ Z.of_nat (S (Z.to_nat (Z.log2 (Zpos p)))))%Z).
    { split; [lia|].
      pose proof (Z.log2_spec (Zpos p) ltac:(lia)) as [_ Hl].
      pose proof (Z.log2_nonneg (Zpos p)) as Hnn.
      rewrite Nat2Z.inj_succ, Z2Nat.id by assumption.
      apply Z.lt_le_trans with (2 ^ Z.succ (Z.log2 (Zpos p)))%Z; [assumption|].
      apply Z.pow_le_mono_l. lia. }
    destruct (@digits_of_spec _ (Zpos p) "" Hb ltac:(lia))
      as (ds & Heq & Hne & Hall & Hval).
    rewrite Heq, append_nil_r. repeat split; auto.
Qed.

(** [parseInt] of a run of digits is its value. *)
Lemma parseInt_digits (ds : string) :
  ds <> "" -> all_units is_digit ds = true ->
  parseInt ds = Some (digits_value 0 ds).
Proof.
  intros Hne Hall. destruct ds as [|c ds]; [congruence|].
  simpl in Hall. apply andb_true_iff in Hall as [Hc Hds].
  unfold parseInt.
  rewrite trimStart_stops by (simpl; now apply digit_not_space).
  assert (Hs : take_sign (String c ds) = (false, String c ds)).
  { destruct (digit_not_sign c Hc) as [H1 H2]. unfold take_sign.
    destruct c as [[] [] [] [] [] [] [] []]; try reflexivity; congruence. }
  rewrite Hs, span_digits_span.
  replace (String c ds) with (String c ds ++ "") at 1
    by apply append_nil_r.
  rewrite span_app; [reflexivity| |exact I].
  simpl. now rewrite Hc.
Qed.

End TextFacts.

(* ------------------------------------------------------------------ *)
(** * The parser of the query and the regular expression                *)
(* ------------------------------------------------------------------ *)

Module MutationFacts.

Import JsText Mutation StringFacts TextFacts.
Local Open Scope string_scope.

Lemma matched_parts (k : groups) :
  matched k = true ->
  (exists g0 g', gene_text k = String g0 g' /\ is_letter g0 = true)
  /\ all_units is_alnum (gene_text k) = true
  /\ (exists w ws, blank k = String w ws /\ is_space w = true)
  /\ all_units is_space (blank k) = true
  /\ is_letter (from k) = true
  /\ digits k <> "" /\ all_units is_digit (digits k) = true
  /\ is_letter (to k) = true.
Proof.
  unfold matched. rewrite !andb_true_iff.
  intros [[[[[[[Hg0 Hg] Hb] Hbs] Ho] Hd] Hds] Hm].
  repeat split; auto.
  - destruct (gene_text k) as [|g0 g']; [discriminate|]. eauto.
  - destruct (blank k) as [|w ws]; [discriminate|].
    simpl in Hbs. apply andb_true_iff in Hbs as [Hw _]. eauto.
  - destruct (digits k); [discriminate|discriminate].
Qed.

(** The parser finds the groups of a text that the expression matches. *)
Lemma parseMutation_groups (input : string) (k : groups) :
  trim input = text_of k -> matched k = true ->
  parseMutation input = parsed k.
Proof.
  intros Ht Hk.
  destruct (matched_parts k Hk)
    as ((g0 & g' & Hg & Hg0) & Hgs & (w & ws & Hb & Hw) & Hbs & Ho
        & Hd & Hds & Hm).
  unfold parseMutation, parsed. rewrite Ht. unfold text_of.
  rewrite span_app; [|assumption|rewrite Hb; simpl; now apply space_not_alnum].
  rewrite Hg at 1. rewrite Hg0. cbn [negb].
  rewrite span_app; [|assumption|simpl; now apply letter_not_space].
  rewrite Hb at 1. rewrite Ho. cbn [negb].
  rewrite span_digits_span.
  rewrite span_app; [|assumption|simpl; now apply letter_not_digit].
  destruct (digits k) as [|d ds] eqn:Ed; [congruence|].
  rewrite Hm. cbn [negb]. rewrite Hg. reflexivity.
Qed.

(** A text that the parser accepts has the groups of the expression. *)
Lemma parseMutation_sound (input : string) (m : ParsedMutation) :
  parseMutation input = Some m ->
  exists k, trim input = text_of k /\ matched k = true /\ parsed k = Some m.
Proof.
  unfold parseMutation.
  destruct (span_spec is_alnum (trim input)) as (H1 & A1 & _).
  destruct (span is_alnum (trim input)) as [g r1]. cbn [fst snd] in *.
  destruct g as [|g0 g']; [discriminate|].
  destruct (is_letter g0) eqn:Hg0; [|discriminate]. cbn [negb].
  destruct (span_spec is_space r1) as (H2 & A2 & _).
  destruct (span is_space r1) as [ws r2]. cbn [fst snd] in *.
  destruct ws as [|w ws]; [discriminate|].
  destruct r2 as [|o r3]; [discriminate|].
  destruct (is_letter o) eqn:Ho; [|discriminate]. cbn [negb].
  pose proof (span_spec is_digit r3) as (H3 & A3 & _).
  rewrite <- span_digits_span in H3, A3.
  destruct (span_digits r3) as [ds r4]. cbn [fst snd] in *.
  destruct ds as [|d ds]; [discriminate|].
  destruct r4 as [|mu [|? ?]]; try discriminate.
  destruct (is_letter mu) eqn:Hm; [|discriminate]. cbn [negb].
  intros H.
  exists {| gene_text := String g0 g'; blank := String w ws; from := o;
            digits := String d ds; to := mu |}.
  split; [|split].
  - unfold text_of. cbn [gene_text blank from digits to].
    rewrite H1, H2, H3. reflexivity.
  - unfold matched. cbn [gene_text blank from digits to not_empty].
    now rewrite Hg0, A1, A2, Ho, A3, Hm.
  - unfold parsed. cbn [gene_text blank from digits to]. exact H.
Qed.

(** The position that the parser reads is not negative. *)
Lemma parsed_position (k : groups) (m : ParsedMutation) :
  matched k = true -> parsed k = Some m ->
  position m = digits_value 0 (digits k) /\ (0 <= position m)%Z.
Proof.
  intros Hk. destruct (matched_parts k Hk) as (_ & _ & _ & _ & _ & Hd & Hds & _).
  unfold parsed. rewrite (parseInt_digits Hd Hds). intros [= <-].
  cbn [position]. split; [reflexivity|].
  destruct (@digits_value_bounds _ Hds 0%Z ltac:(lia)) as [Hlo _]. lia.
Qed.

(** The canonical text of a parsed mutation is accepted and gives the same
    object. *)
Lemma parseMutation_canonical (k : groups) (m : ParsedMutation) :
  matched k = true -> parsed k = Some m ->
  parseMutation (gene m ++ " " ++ mutationNotation m) = Some m.
Proof.
  intros Hk Hm.
  destruct (parsed_position k Hk Hm) as [Hp Hpos].
  destruct (matched_parts k Hk)
    as ((g0 & g' & Hg & Hg0) & Hgs & _ & _ & Ho & Hd & Hds & Hmu).
  destruct (show_Z_digits Hpos) as (Sne & Sall & Sval).
  set (k' := {| gene_text := gene m; blank := " ";
                from := upper_unit (from k);
                digits := show_Z (position m);
                to := upper_unit (to k) |}).
  assert (Hfields : gene m = toUpperCase (gene_text k)
                    /\ original m = String (upper_unit (from k)) ""
                    /\ mutant m = String (upper_unit (to k)) "").
  { unfold parsed in Hm. destruct (parseInt (digits k)); [|discriminate].
    injection Hm as <-. auto. }
  destruct Hfields as (Fg & Fo & Fm).
  assert (Htext : gene m ++ " " ++ mutationNotation m = text_of k').
  { unfold mutationNotation, text_of, k'. cbn [gene_text blank from digits to].
    rewrite Fo, Fm. reflexivity. }
  assert (Hk' : matched k' = true).
  { unfold matched, k'. cbn [gene_text blank from digits to].
    rewrite Fg, (toUpperCase_alnum _ Hgs), Hg. cbn [toUpperCase].
    rewrite (upper_unit_letter _ Hg0).
    rewrite (upper_unit_letter _ Ho), (upper_unit_letter _ Hmu), Sall.
    destruct (show_Z (position m)); [congruence|reflexivity]. }
  assert (Htrim : trim (text_of k') = text_of k').
  { unfold trim. rewrite trimStart_stops.
    - unfold text_of.
      rewrite <- (append_assoc (gene_text k') (blank k')).
      change (String (from k') (digits k' ++ String (to k') ""))
        with (String (from k') (digits k') ++ String (to k') "").
      rewrite <- append_assoc. apply trimEnd_last.
      apply letter_not_space. unfold k'. cbn [to].
      now apply upper_unit_letter.
    - unfold text_of, k'. cbn [gene_text]. rewrite Fg, Hg. simpl.
      apply letter_not_space. now apply upper_unit_letter. }
  rewrite Htext, (@parseMutation_groups (text_of k') k' Htrim Hk').
  unfold parsed, k'. cbn [gene_text blank from digits to].
  rewrite (parseInt_digits Sne Sall), Sval.
  rewrite Fg, toUpperCase_idem. cbn [toUpperCase]. rewrite !upper_unit_idem.
  destruct m as [mg mo mp mm]. cbn in *. now subst.
Qed.

End MutationFacts.

(* ------------------------------------------------------------------ *)
(** * The search around the position                                    *)
(* ------------------------------------------------------------------ *)

Module EsmfoldFacts.

Import JsText Esmfold StringFacts TextFacts.
Local Open Scope Z_scope.

(** ** Code units by index *)

Lemma get_split (n : nat) :
  forall s : string,
    (n < String.length s)%nat ->
    exists p c suf,
      s = (p ++ String c suf)%string
      /\ String.length p = n
      /\ String.get n s = Some c
      /\ String.substring 0 n s = p
      /\ String.substring (S n) (String.length s - S n) s = suf.
Proof.
  induction n as [|n IH]; intros s Hn.
  - destruct s as [|c s]; [simpl in Hn; lia|].
    exists EmptyString, c, s. simpl. repeat split.
    rewrite Nat.sub_0_r. clear. induction s as [|a s IH]; simpl; congruence.
  - destruct s as [|a s]; [simpl in Hn; lia|]. simpl in Hn.
    destruct (IH s ltac:(lia)) as (p & c & suf & Hs & Hl & Hg & Hp & Hsuf).
    exists (String a p), c, suf. cbn [String.length String.get].
    repeat split.
    + simpl. now rewrite <- Hs.
    + simpl. now rewrite Hl.
    + exact Hg.
    + simpl. now rewrite Hp.
    + exact Hsuf.
Qed.

Lemma get_None_length (n : nat) :
  forall s : string, (String.length s <= n)%nat -> String.get n s = None.
Proof.
  induction n as [|n IH]; intros [|a s] H; simpl in *; auto; try lia.
  apply IH. lia.
Qed.

(** [s[i]] is a unit of the text exactly for the indices of the text. *)
Lemma index_in_range (s : string) (i : Z) :
  0 <= i < Z.of_nat (String.length s) ->
  exists c, index s i = Some (String c EmptyString)
            /\ String.get (Z.to_nat i) s = Some c.
Proof.
  intros H. unfold index.
  destruct (i <? 0) eqn:E; [apply Z.ltb_lt in E; lia|].
  destruct (@get_split (Z.to_nat i) s ltac:(lia)) as (p & c & suf & _ & _ & Hg & _).
  rewrite Hg. eauto.
Qed.

Lemma index_out_of_range (s : string) (i : Z) :
  i < 0 \/ Z.of_nat (String.length s) <= i -> index s i = None.
Proof.
  intros H. unfold index. destruct (i <? 0) eqn:E; [reflexivity|].
  apply Z.ltb_ge in E. rewrite get_None_length; [reflexivity|lia].
Qed.

Lemma same_residue_in_range (sequence original : string) (idx : Z) :
  same_residue sequence original idx = true ->
  0 <= idx < Z.of_nat (String.length sequence).
Proof.
  unfold same_residue. intros H.
  destruct (Z_lt_dec idx 0) as [Hn|Hn];
    [rewrite index_out_of_range in H by lia; discriminate|].
  destruct (Z_le_dec (Z.of_nat (String.length sequence)) idx) as [Hl|Hl];
    [rewrite index_out_of_range in H by lia; discriminate|].
  lia.
Qed.

(** ** The loop *)

(** The loop over increasing offsets returns the least position of the
    window, other than the given one, that holds the residue. *)
Lemma search_spec (sequence original : string) (position : Z)
    (remaining : list Z) :
  match search sequence original position remaining with
  | Some resolved =>
      exists before offset after,
        remaining = (before ++ offset :: after)%list
        /\ offset <> 0 /\ resolved = position + offset
        /\ same_residue sequence original (resolved - 1) = true
        /\ forall o, In o before ->
             o = 0 \/ same_residue sequence original (position - 1 + o) = false
  | None =>
      forall o, In o remaining ->
        o = 0 \/ same_residue sequence original (position - 1 + o) = false
  end.
Proof.
  induction remaining as [|offset rest IH]; cbn [search].
  - intros o [].
  - destruct (offset =? 0) eqn:E0.
    + apply Z.eqb_eq in E0.
      destruct (search sequence original position rest) as [r|].
      * destruct IH as (before & o & after & -> & Hne & Hr & Hs & Hb).
        exists (offset :: before), o, after. repeat split; auto.
        intros o' [<- | Ho']; auto.
      * intros o [<- | Ho]; auto.
    + apply Z.eqb_neq in E0.
      destruct ((position - 1 + offset <? 0)
                || (Z.of_nat (String.length sequence) <=? position - 1 + offset))%bool
        eqn:Eout.
      * assert (Hno : same_residue sequence original (position - 1 + offset)
                      = false).
        { unfold same_residue. rewrite index_out_of_range; [reflexivity|].
          apply orb_true_iff in Eout as [H|H];
            [apply Z.ltb_lt in H|apply Z.leb_le in H]; lia. }
        destruct (search sequence original position rest) as [r|].
        -- destruct IH as (before & o & after & -> & Hne & Hr & Hs & Hb).
           exists (offset :: before), o, after. repeat split; auto.
           intros o' [<- | Ho']; auto.
        -- intros o [<- | Ho]; auto.
      * destruct (same_residue sequence original (position - 1 + offset))
          eqn:Es.
        -- exists [], offset, rest. repeat split; auto; try lia.
           ++ now replace (position - 1 + offset + 1 - 1)
                with (position - 1 + offset) by lia.
           ++ intros o [].
        -- destruct (search sequence original position rest) as [r|].
           ++ destruct IH as (before & o & after & -> & Hne & Hr & Hs & Hb).
              exists (offset :: before), o, after. repeat split; auto.
              intros o' [<- | Ho']; auto.
           ++ intros o [<- | Ho]; auto.
Qed.

(** The offsets of the loop are the integers from -5 to 5, in order. *)
Lemma offsets_split (before after : list Z) (offset : Z) :
  offsets = (before ++ offset :: after)%list ->
  -5 <= offset <= 5
  /\ forall o, -5 <= o < offset -> In o before.
Proof.
  unfold offsets. intros H.
  repeat (destruct before as [|? before];
          [injection H as <- <-; split; [lia|intros o Ho; simpl; lia]
          |injection H as <- H]).
  destruct before; discriminate.
Qed.

Lemma offsets_all (o : Z) : -5 <= o <= 5 -> In o offsets.
Proof. unfold offsets. simpl. lia. Qed.

(** The search over the window of the handler. *)
Lemma search_offsets (sequence original : string) (position : Z) :
  match search sequence original position offsets with
  | Some resolved =>
      resolved <> position
      /\ position - 5 <= resolved <= position + 5
      /\ same_residue sequence original (resolved - 1) = true
      /\ forall j, position - 5 <= j < resolved -> j <> position ->
           same_residue sequence original (j - 1) = false
  | None =>
      forall j, position - 5 <= j <= position + 5 -> j <> position ->
        same_residue sequence original (j - 1) = false
  end.
Proof.
  pose proof (search_spec sequence original position offsets) as H.
  destruct (search sequence original position offsets) as [r|].
  - destruct H as (before & offset & after & Ho & Hne & -> & Hs & Hb).
    destruct (offsets_split _ _ _ Ho) as [Hr Hbefore].
    repeat split; try lia; auto.
    intros j Hj Hjp.
    destruct (Hb (j - position)) as [H0 | Hf]; [apply Hbefore; lia|lia|].
    now replace (position - 1 + (j - position)) with (j - 1) in Hf by lia.
  - intros j Hj Hjp.
    destruct (H (j - position)) as [H0 | Hf]; [apply offsets_all; lia|lia|].
    now replace (position - 1 + (j - position)) with (j - 1) in Hf by lia.
Qed.

(** ** The mutant sequence *)

(** Step 5 replaces the unit at the resolved position. *)
Lemma mutate_spec (sequence mutant : string) (resolved : Z) :
  1 <= resolved <= Z.of_nat (String.length sequence) ->
  exists p c suf,
    sequence = (p ++ String c suf)%string
    /\ Z.of_nat (String.length p) = resolved - 1
    /\ index sequence (resolved - 1) = Some (String c EmptyString)
    /\ mutate sequence mutant resolved
       = (p ++ toUpperCase mutant ++ suf)%string.
Proof.
  intros H.
  destruct (@get_split (Z.to_nat (resolved - 1)) sequence ltac:(lia))
    as (p & c & suf & Hs & Hl & Hg & Hp & Hsuf).
  exists p, c, suf. repeat split; auto; try lia.
  - unfold index. destruct (resolved - 1 <? 0) eqn:E;
      [apply Z.ltb_lt in E; lia|]. now rewrite Hg.
  - unfold mutate, substring_from, JsString.substring.
    rewrite Nat.min_0_l, Nat.max_0_l, Nat.sub_0_r, Hp.
    replace (Z.to_nat resolved) with (S (Z.to_nat (resolved - 1))) by lia.
    rewrite Nat.min_l, Nat.max_r by lia. now rewrite Hsuf.
Qed.

(** ** The handler *)

(** The handler, once the fields are there and the position is in range. *)
Lemma resolve_in_range (q : request) (p : Z) :
  position q = Some p ->
  is_empty (sequence q) = false -> is_empty (original q) = false ->
  is_empty (mutant q) = false ->
  1 <= p <= Z.of_nat (String.length (sequence q)) ->
  exists actual,
    index (sequence q) (p - 1) = Some actual
    /\ resolve q =
       if same_residue (sequence q) (original q) (p - 1)
       then finish q p None None
       else match search (sequence q) (original q) p offsets with
            | Some resolved =>
                finish q resolved (Some resolved)
                  (Some ("Note: " ++ original q ++ " found at position "
                         ++ show_Z resolved ++ " instead of "
                         ++ show_Z p
                         ++ " (common numbering offset).")%string)
            | None => Rejected (NotFound (original q) p actual)
            end.
Proof.
  intros Hp Hs Ho Hm Hr. unfold resolve. rewrite Hp, Hs, Ho, Hm. cbn [orb].
  assert (Hrange : ((p <? 1) || (Z.of_nat (String.length (sequence q)) <? p))%bool
                   = false).
  { apply orb_false_iff. split; apply Z.ltb_ge; lia. }
  rewrite Hrange.
  destruct (@index_in_range (sequence q) (p - 1) ltac:(lia)) as (c & Hc & _).
  exists (String c EmptyString). split; [assumption|].
  unfold same_residue. rewrite Hc.
  destruct (String.eqb _ _); reflexivity.
Qed.

(** What the handler has checked when it goes on. *)
Lemma resolve_Resolved (q : request) (r : resolution) :
  resolve q = Resolved r ->
  exists p,
    position q = Some p
    /\ is_empty (sequence q) = false /\ is_empty (original q) = false
    /\ is_empty (mutant q) = false
    /\ 1 <= p <= Z.of_nat (String.length (sequence q))
    /\ Z.of_nat (String.length (sequence q)) <= 400
    /\ mutantSequence r = mutate (sequence q) (mutant q) (resolvedPosition r)
    /\ ((same_residue (sequence q) (original q) (p - 1) = true
         /\ resolvedPosition r = p
         /\ correctedPosition r = None /\ note r = None)
        \/ (same_residue (sequence q) (original q) (p - 1) = false
            /\ search (sequence q) (original q) p offsets
               = Some (resolvedPosition r)
            /\ correctedPosition r = Some (resolvedPosition r)
            /\ note r <> None)).
Proof.
  intros H.
  assert (Hpre : exists p,
             position q = Some p
             /\ is_empty (sequence q) = false /\ is_empty (original q) = false
             /\ is_empty (mutant q) = false
             /\ 1 <= p <= Z.of_nat (String.length (sequence q))).
  { unfold resolve in H. destruct (position q) as [p|]; [|discriminate].
    exists p.
    destruct (is_empty (sequence q)); [discriminate|].
    destruct (is_empty (original q)); [discriminate|].
    destruct (is_empty (mutant q)); [discriminate|]. cbn [orb] in H.
    destruct ((p <? 1) || (Z.of_nat (String.length (sequence q)) <? p))%bool
      eqn:E; [discriminate|].
    apply orb_false_iff in E as [E1 E2].
    apply Z.ltb_ge in E1, E2. repeat split; auto; lia. }
  destruct Hpre as (p & Hp & Hs & Ho & Hm & Hr).
  destruct (resolve_in_range q Hp Hs Ho Hm Hr) as (actual & _ & Heq).
  rewrite Heq in H. clear Heq.
  assert (Hfin : forall rp cp nt,
             finish q rp cp nt = Resolved r ->
             Z.of_nat (String.length (sequence q)) <= 400
             /\ resolvedPosition r = rp /\ correctedPosition r = cp
             /\ note r = nt
             /\ mutantSequence r = mutate (sequence q) (mutant q) rp).
  { intros rp cp nt. unfold finish.
    destruct (400 <? Z.of_nat (String.length (sequence q))) eqn:E;
      [discriminate|].
    apply Z.ltb_ge in E. intros [= <-]. cbn. auto. }
  exists p. repeat (split; [assumption|]).
  destruct (same_residue (sequence q) (original q) (p - 1)) eqn:Es.
  - destruct (Hfin _ _ _ H) as (Hl & H1 & H2 & H3 & H4).
    split; [assumption|]. split; [now rewrite H4, H1|]. left. auto.
  - destruct (search (sequence q) (original q) p offsets) as [rp|] eqn:Esearch;
      [|discriminate].
    destruct (Hfin _ _ _ H) as (Hl & H1 & H2 & H3 & H4).
    split; [assumption|]. split; [now rewrite H4, H1|]. right.
    rewrite H1, H2, H3. repeat split; auto. discriminate.
Qed.

End EsmfoldFacts.

(* ------------------------------------------------------------------ *)
(** * The displacement map and the default colour                       *)
(* ------------------------------------------------------------------ *)

Module Displacement.

Import JsMap JsMapFacts DistanceFacts RmsdFacts.

(** Scenario B of the specification. *)
Example scenario_B :
  computePerResidueRmsd
    [(10%Z, {| x := 0; y := 0; z := 0 |}); (11%Z, {| x := 1; y := 0; z := 0 |})]
    [(10%Z, {| x := 0; y := 0; z := 3 |}); (12%Z, {| x := 5; y := 5; z := 5 |})]
  = [(10%Z, 3)].
Proof. vm_compute. reflexivity. Qed.

(** C1, as amended.  For maps [wild] and [mutant],
    [computePerResidueRmsd wild mutant] has an entry exactly for the residues
    that both maps have, and the entry is
    [Math.sqrt(dx * dx + dy * dy + dz * dz)] evaluated in binary64.  That
    value is [NaN] or not negative; when the six coordinates are finite it is
    a number, not negative, it is [+0] exactly when the three squares
    [dx * dx], [dy * dy] and [dz * dz] are, and so it is when the two triples
    are identical. *)
Theorem computePerResidueRmsd_intersection (wild mutant : t coord) (resi : Z) :
  wf wild ->
  get resi (computePerResidueRmsd wild mutant) =
    match get resi wild, get resi mutant with
    | Some w, Some m => Some (distance w m)
    | _, _ => None
    end
  /\ (forall v, get resi (computePerResidueRmsd wild mutant) = Some v ->
        is_nan v = true \/ (0 <=? v) = true)
  /\ (forall w m,
        get resi wild = Some w -> get resi mutant = Some m ->
        finite_coord w = true -> finite_coord m = true ->
        exists v,
          get resi (computePerResidueRmsd wild mutant) = Some v
          /\ is_nan v = false /\ (0 <=? v) = true
          /\ (v = 0 <->
              (x w - x m) * (x w - x m) = 0
              /\ (y w - y m) * (y w - y m) = 0
              /\ (z w - z m) * (z w - z m) = 0)
          /\ (w = m -> v = 0)).
Proof.
  intros Hwf.
  pose proof (get_computePerResidueRmsd mutant resi Hwf) as Hget.
  split; [exact Hget|]. split.
  - intros v Hv. rewrite Hget in Hv.
    destruct (get resi wild) as [w|]; try discriminate.
    destruct (get resi mutant) as [m|]; try discriminate.
    injection Hv as <-. apply distance_nan_or_nonneg.
  - intros w m Hw Hm Fw Fm. exists (distance w m).
    rewrite Hget, Hw, Hm. split; [reflexivity|].
    pose proof (distance_pos w m Fw Fm) as Hpos.
    split; [now apply FloatFacts.not_nan_pos|].
    split; [now apply FloatFacts.leb_zero_pos|].
    split; [now apply distance_zero_iff|].
    intros <-. now apply distance_diag.
Qed.

Lemma computePerResidueRmsd_intersection_witness :
  let wild := [(10%Z, {| x := 0; y := 0; z := 0 |});
               (11%Z, {| x := 1; y := 0; z := 0 |})] in
  let mutant := [(10%Z, {| x := 0; y := 0; z := 3 |});
                 (12%Z, {| x := 5; y := 5; z := 5 |})] in
  wf wild
  /\ get 10 (computePerResidueRmsd wild mutant) = Some 3
  /\ get 11 (computePerResidueRmsd wild mutant) = None
  /\ get 12 (computePerResidueRmsd wild mutant) = None.
Proof.
  intros wild mutant.
  assert (Hwf : wf wild).
  { unfold wf, wild. simpl. repeat constructor; simpl; intuition discriminate. }
  split; [exact Hwf|].
  split; [|split].
  - exact (proj1 (computePerResidueRmsd_intersection mutant 10 Hwf)).
  - exact (proj1 (computePerResidueRmsd_intersection mutant 11 Hwf)).
  - exact (proj1 (computePerResidueRmsd_intersection mutant 12 Hwf)).
Defined.

(** C1, as stated, fails: a zero displacement does not tell that the
    coordinates are identical.  The square of a difference of [1e-200]
    underflows to zero. *)
Lemma zero_displacement_not_identical :
  ~ (forall (wild mutant : t coord) (resi : Z) (w m : coord) (v : float),
       wf wild -> wf mutant ->
       get resi wild = Some w -> get resi mutant = Some m ->
       get resi (computePerResidueRmsd wild mutant) = Some v ->
       ((v =? 0) = true <-> w = m)).
Proof.
  intros H.
  pose (w := {| x := parseFloat "1e-200"; y := 0; z := 0 |}).
  pose (m := {| x := 0; y := 0; z := 0 |}).
  assert (Hwf : forall c : coord, wf [(10%Z, c)]).
  { intros c. unfold wf. simpl. repeat constructor. simpl. tauto. }
  specialize (H [(10%Z, w)] [(10%Z, m)] 10%Z w m 0
                (Hwf w) (Hwf m) eq_refl eq_refl).
  assert (Hv : get 10 (computePerResidueRmsd [(10%Z, w)] [(10%Z, m)]) = Some 0).
  { vm_compute. reflexivity. }
  apply H in Hv. destruct Hv as [Hv _].
  specialize (Hv eq_refl).
  apply (f_equal (fun c => is_zero (x c))) in Hv.
  vm_compute in Hv. discriminate.
Qed.

(** Infinite coordinates give [NaN], which is not a distance. *)
Example infinite_coordinates_give_nan :
  let c := {| x := parseFloat "Infinity"; y := 0; z := 0 |} in
  computePerResidueRmsd [(10%Z, c)] [(10%Z, c)] = [(10%Z, nan)].
Proof. vm_compute. reflexivity. Qed.

(** C6.  [computePerResidueRmsd A B] and [computePerResidueRmsd B A] hold
    identical values on every shared residue: a residue that [A] has with
    coordinates [a] and [B] has with coordinates [b] has an entry in both
    results, and both entries are the distance of [a] and [b]; so a residue
    of both maps is a key of both results.  A residue that one of the maps
    lacks has no entry in either result, hence the two results hold the same
    entry, or none, at every residue. *)
Theorem computePerResidueRmsd_symmetric (A B : t coord) (resi : Z) :
  wf A -> wf B ->
  (forall a b, get resi A = Some a -> get resi B = Some b ->
     get resi (computePerResidueRmsd A B) = Some (distance a b)
     /\ get resi (computePerResidueRmsd B A) = Some (distance a b))
  /\ (In resi (keys A) -> In resi (keys B) ->
      exists v, get resi (computePerResidueRmsd A B) = Some v
                /\ get resi (computePerResidueRmsd B A) = Some v)
  /\ (get resi A = None \/ get resi B = None ->
      get resi (computePerResidueRmsd A B) = None
      /\ get resi (computePerResidueRmsd B A) = None)
  /\ get resi (computePerResidueRmsd A B)
     = get resi (computePerResidueRmsd B A).
Proof.
  intros HA HB.
  assert (Hshared : forall a b, get resi A = Some a -> get resi B = Some b ->
            get resi (computePerResidueRmsd A B) = Some (distance a b)
            /\ get resi (computePerResidueRmsd B A) = Some (distance a b)).
  { intros a b Ha Hb. rewrite !get_computePerResidueRmsd by assumption.
    rewrite Ha, Hb. split; [reflexivity|]. now rewrite distance_sym. }
  split; [exact Hshared|]. split; [|split].
  - intros Ha Hb.
    destruct (get resi A) as [a|] eqn:Ea;
      [|now apply get_None_keys in Ea].
    destruct (get resi B) as [b|] eqn:Eb;
      [|now apply get_None_keys in Eb].
    exists (distance a b). now apply Hshared.
  - rewrite !get_computePerResidueRmsd by assumption.
    intros [H|H]; rewrite H; split; try reflexivity;
      now destruct (get resi A), (get resi B).
  - rewrite !get_computePerResidueRmsd by assumption.
    destruct (get resi A) as [a|], (get resi B) as [b|]; auto.
    now rewrite distance_sym.
Qed.

Lemma computePerResidueRmsd_symmetric_witness :
  let A := [(10%Z, {| x := 0; y := 0; z := 0 |});
            (11%Z, {| x := 1; y := 0; z := 0 |})] in
  let B := [(12%Z, {| x := 5; y := 5; z := 5 |});
            (10%Z, {| x := 0; y := 0; z := 3 |})] in
  wf A /\ wf B
  /\ get 10 (computePerResidueRmsd A B) = Some 3
  /\ get 10 (computePerResidueRmsd B A) = Some 3.
Proof.
  intros A B.
  assert (HA : wf A).
  { unfold wf, A. simpl. repeat constructor; simpl; intuition discriminate. }
  assert (HB : wf B).
  { unfold wf, B. simpl. repeat constructor; simpl; intuition discriminate. }
  split; [exact HA|]. split; [exact HB|].
  exact (proj1 (@computePerResidueRmsd_symmetric A B 10 HA HB)
           {| x := 0; y := 0; z := 0 |} {| x := 0; y := 0; z := 3 |}
           eq_refl eq_refl).
Defined.

(** The distance of C6 on coordinates that are far apart, from both
    sides. *)
Example symmetric_far_apart :
  let A := [(7%Z, {| x := 1.5; y := -2; z := 0.25 |})] in
  let B := [(7%Z, {| x := -4; y := 6; z := 10 |})] in
  computePerResidueRmsd A B = computePerResidueRmsd B A
  /\ exists v, get 7 (computePerResidueRmsd A B) = Some v
               /\ (13 <? v) = true /\ (v <? 14) = true.
Proof.
  split; [vm_compute; reflexivity|].
  eexists. split; [vm_compute; reflexivity|].
  split; vm_compute; reflexivity.
Qed.

(** C8.  [parseCaAtoms] is a function of the structure text alone, and the
    content of the displacement map depends on the content of the two input
    maps only: inputs with the same entries, in whatever order, give the same
    entries. *)
Theorem parse_and_displacement_deterministic :
  (forall pdb pdb' : string, pdb = pdb' -> parseCaAtoms pdb = parseCaAtoms pdb')
  /\ (forall wild wild' mutant mutant' : t coord,
        wf wild -> wf wild' ->
        (forall k, get k wild = get k wild') ->
        (forall k, get k mutant = get k mutant') ->
        forall k,
          get k (computePerResidueRmsd wild mutant)
          = get k (computePerResidueRmsd wild' mutant')).
Proof.
  split.
  - intros pdb pdb' ->. reflexivity.
  - intros wild wild' mutant mutant' Hw Hw' Hwild Hmutant k.
    rewrite !get_computePerResidueRmsd by assumption.
    now rewrite Hwild, Hmutant.
Qed.

Lemma parse_and_displacement_deterministic_witness :
  let c1 := {| x := 0; y := 0; z := 0 |} in
  let c2 := {| x := 1; y := 0; z := 0 |} in
  let d1 := {| x := 0; y := 0; z := 3 |} in
  let d2 := {| x := 1; y := 4; z := 0 |} in
  let forwards := computePerResidueRmsd [(10%Z, c1); (11%Z, c2)]
                                        [(10%Z, d1); (11%Z, d2)] in
  let backwards := computePerResidueRmsd [(11%Z, c2); (10%Z, c1)]
                                         [(11%Z, d2); (10%Z, d1)] in
  get 10 forwards = get 10 backwards
  /\ get 11 forwards = get 11 backwards
  /\ get 12 forwards = get 12 backwards.
Proof.
  intros c1 c2 d1 d2 forwards backwards.
  assert (H : forall k, get k forwards = get k backwards).
  { apply (proj2 parse_and_displacement_deterministic).
    - unfold wf. simpl. repeat constructor; simpl; intuition discriminate.
    - unfold wf. simpl. repeat constructor; simpl; intuition discriminate.
    - intros k. simpl.
      destruct (k =? 10)%Z eqn:E10, (k =? 11)%Z eqn:E11; try reflexivity.
      apply Z.eqb_eq in E10, E11. congruence.
    - intros k. simpl.
      destruct (k =? 10)%Z eqn:E10, (k =? 11)%Z eqn:E11; try reflexivity.
      apply Z.eqb_eq in E10, E11. congruence. }
  repeat split; apply H.
Defined.

(** Two orders of the same entries, the second input reordered as well. *)
Example displacement_order_independent :
  let c1 := {| x := 0; y := 0; z := 0 |} in
  let c2 := {| x := 1; y := 0; z := 0 |} in
  let d1 := {| x := 0; y := 0; z := 3 |} in
  let d2 := {| x := 1; y := 4; z := 0 |} in
  computePerResidueRmsd [(10%Z, c1); (11%Z, c2)] [(10%Z, d1); (11%Z, d2)]
    = [(10%Z, 3); (11%Z, 4)]
  /\ computePerResidueRmsd [(11%Z, c2); (10%Z, c1)] [(11%Z, d2); (10%Z, d1)]
    = [(11%Z, 4); (10%Z, 3)].
Proof. split; vm_compute; reflexivity. Qed.

(** C7.  For a residue without entry in the displacement map, [colorfunc]
    returns the colour of value 0, which is white; so it does for a residue
    that one of the two structures lacks. *)
Theorem colorfunc_missing_residue :
  (forall (rmsdMap : t float) (resi : Z),
     get resi rmsdMap = None ->
     colorfunc rmsdMap resi = ramp 0
     /\ colorfunc rmsdMap resi = white
     /\ css (colorfunc rmsdMap resi) = Some "rgb(255,255,255)"%string)
  /\ (forall (wild mutant : t coord) (resi : Z),
        wf wild ->
        get resi wild = None \/ get resi mutant = None ->
        colorfunc (computePerResidueRmsd wild mutant) resi = white).
Proof.
  assert (Hdefault : forall (rmsdMap : t float) (resi : Z),
             get resi rmsdMap = None -> colorfunc rmsdMap resi = ramp 0).
  { intros rmsdMap resi H. unfold colorfunc. now rewrite H. }
  split.
  - intros rmsdMap resi H. rewrite (Hdefault _ _ H).
    repeat split; vm_compute; reflexivity.
  - intros wild mutant resi Hwf H. rewrite Hdefault; [vm_compute; reflexivity|].
    rewrite get_computePerResidueRmsd by assumption.
    destruct H as [-> | ->]; [reflexivity|].
    now destruct (get resi wild).
Qed.

Lemma colorfunc_missing_residue_witness :
  let rmsdMap :=
    computePerResidueRmsd
      [(10%Z, {| x := 0; y := 0; z := 0 |}); (11%Z, {| x := 1; y := 0; z := 0 |})]
      [(10%Z, {| x := 0; y := 0; z := 3 |}); (12%Z, {| x := 5; y := 5; z := 5 |})] in
  get 11 rmsdMap = None
  /\ css (colorfunc rmsdMap 11) = Some "rgb(255,255,255)"%string.
Proof.
  intros rmsdMap.
  assert (H : get 11 rmsdMap = None) by (vm_compute; reflexivity).
  split; [exact H|].
  exact (proj2 (proj2 (proj1 colorfunc_missing_residue rmsdMap 11%Z H))).
Defined.

(** Residue 11 of scenario B is in the wild-type structure only. *)
Example colorfunc_unpaired_residue :
  let rmsdMap :=
    computePerResidueRmsd
      [(10%Z, {| x := 0; y := 0; z := 0 |}); (11%Z, {| x := 1; y := 0; z := 0 |})]
      [(10%Z, {| x := 0; y := 0; z := 3 |}); (12%Z, {| x := 5; y := 5; z := 5 |})] in
  get 11 rmsdMap = None
  /\ css (colorfunc rmsdMap 11) = Some "rgb(255,255,255)"%string
  /\ css (colorfunc rmsdMap 10) = Some "rgb(255,170,0)"%string.
Proof. repeat split; vm_compute; reflexivity. Qed.

End Displacement.

(* ------------------------------------------------------------------ *)
(** * What the parser returns                                           *)
(* ------------------------------------------------------------------ *)

Module Parser.

Import JsMap JsMapFacts ParserFacts Samples.
Local Open Scope string_scope.

(** C3.  In a structure text whose only [CA] record has ["  10"] in columns
    23-26 and ["   1.000"], ["   2.000"], ["   3.000"] in columns 31-38,
    39-46 and 47-54, [parseCaAtoms] finds exactly the entry
    [10 -> (1, 2, 3)]; the confidence in columns 61-66 is not read. *)
Theorem parseCaAtoms_single_record
    (pdb : string) (before after : list string) (line : string) :
  split_lines pdb = (before ++ line :: after)%list ->
  (forall l, In l (before ++ after)%list ->
     startsWith "ATOM  " l = false
     \/ String.eqb (trim (JsString.substring 12 16 l)) "CA" = false) ->
  startsWith "ATOM  " line = true ->
  JsString.substring 12 16 line = " CA " ->
  JsString.substring 22 26 line = "  10" ->
  JsString.substring 30 38 line = "   1.000" ->
  JsString.substring 38 46 line = "   2.000" ->
  JsString.substring 46 54 line = "   3.000" ->
  JsString.substring 60 66 line = " 87.50" ->
  parseCaAtoms pdb = [(10%Z, {| x := 1; y := 2; z := 3 |})].
Proof.
  intros Hsplit Hother Hatom Hname Hresi Hx Hy Hz _.
  assert (Hnone : forall l, In l (before ++ after)%list -> record_of l = None).
  { intros l Hl. unfold record_of.
    destruct (Hother l Hl) as [-> | ->]; [reflexivity|].
    now rewrite andb_false_r. }
  unfold parseCaAtoms. rewrite Hsplit, fold_left_app. cbn [fold_left].
  rewrite (fold_parse_line_no_record before)
    by (intros l Hl; apply Hnone, in_or_app; auto).
  rewrite (fold_parse_line_no_record after)
    by (intros l Hl; apply Hnone, in_or_app; auto).
  rewrite parse_line_record. unfold record_of.
  rewrite Hatom, Hname, Hresi, Hx, Hy, Hz. vm_compute. reflexivity.
Qed.

Lemma parseCaAtoms_single_record_witness :
  parseCaAtoms sample_pdb = [(10%Z, {| x := 1; y := 2; z := 3 |})].
Proof.
  apply (@parseCaAtoms_single_record sample_pdb
           ["HEADER    PROTEIN"; n_line_10] ["TER"; "END"; ""] ca_line_10);
    try (vm_compute; reflexivity).
  intros l Hl. simpl in Hl.
  repeat (destruct Hl as [<- | Hl];
          [first [left; vm_compute; reflexivity
                 | right; vm_compute; reflexivity]|]).
  destruct Hl.
Defined.

(** C4.  [parseCaAtoms] returns a map for every text: the empty map for the
    empty text and for a text without [ATOM] line; a record whose residue
    number or one of whose coordinates is [NaN] adds no entry, alone or among
    other lines. *)
Theorem parseCaAtoms_tolerant :
  (forall pdb, wf (parseCaAtoms pdb))
  /\ parseCaAtoms "" = empty
  /\ (forall pdb,
        (forall l, In l (split_lines pdb) -> startsWith "ATOM  " l = false) ->
        parseCaAtoms pdb = empty)
  /\ (forall atoms line,
        parseInt (trim (JsString.substring 22 26 line)) = None
        \/ isNaN (parseFloat (trim (JsString.substring 30 38 line))) = true
        \/ isNaN (parseFloat (trim (JsString.substring 38 46 line))) = true
        \/ isNaN (parseFloat (trim (JsString.substring 46 54 line))) = true ->
        record_of line = None /\ parse_line atoms line = atoms)
  /\ (forall pdb before line after,
        split_lines pdb = (before ++ line :: after)%list ->
        record_of line = None ->
        parseCaAtoms pdb = fold_left parse_line (before ++ after)%list empty).
Proof.
  split; [exact wf_parseCaAtoms|].
  split; [reflexivity|].
  split; [|split].
  - intros pdb H. unfold parseCaAtoms.
    apply fold_parse_line_no_record.
    intros l Hl. now apply not_ATOM_no_record, H.
  - intros atoms line H.
    assert (Hr : record_of line = None).
    { unfold record_of.
      destruct (startsWith "ATOM  " line && _)%bool; auto.
      destruct H as [-> | [-> | [-> | ->]]]; auto;
        destruct (parseInt _); auto; now rewrite ?orb_true_r. }
    split; [exact Hr|]. now rewrite parse_line_record, Hr.
  - intros pdb before line after Hsplit Hr. unfold parseCaAtoms.
    rewrite Hsplit, !fold_left_app. cbn [fold_left].
    now rewrite (parse_line_record _ line), Hr.
Qed.

Lemma parseCaAtoms_tolerant_witness :
  parseCaAtoms (join_lines ["REMARK   1"; "TER"; "END"]) = empty
  /\ record_of
       "ATOM      2  CA  MET A  10       x.000   2.000   3.000  1.00 87.50"
     = None.
Proof.
  pose proof parseCaAtoms_tolerant as (_ & _ & Hnone & Hskip & _).
  split.
  - apply Hnone. intros l Hl. vm_compute in Hl.
    repeat (destruct Hl as [<- | Hl]; [reflexivity|]). destruct Hl.
  - refine (proj1 (Hskip empty _ _)). right. left. vm_compute. reflexivity.
Defined.

(** A text whose only [CA] record has no number in the first coordinate
    field, and a text of remarks. *)
Example parseCaAtoms_skips_bad_record :
  parseCaAtoms
    "ATOM      2  CA  MET A  10       x.000   2.000   3.000  1.00 87.50"
  = empty
  /\ parseCaAtoms
    "ATOM      2  CA  MET A   A       1.000   2.000   3.000  1.00 87.50"
  = empty
  /\ parseCaAtoms (join_lines ["REMARK   1"; "HETATM    1  CA  CA  A  10"; ""])
  = empty.
Proof. repeat split; vm_compute; reflexivity. Qed.

(** C10.  When several [CA] records have the same residue number, the map
    holds the coordinates of the last of them in line order, and still has
    one entry per residue. *)
Theorem parseCaAtoms_last_record
    (pdb : string) (before after : list string) (line : string)
    (resi : Z) (c : coord) :
  split_lines pdb = (before ++ line :: after)%list ->
  record_of line = Some (resi, c) ->
  (forall l c', In l after -> record_of l <> Some (resi, c')) ->
  get resi (parseCaAtoms pdb) = Some c /\ wf (parseCaAtoms pdb).
Proof.
  intros Hsplit Hline Hafter. split; [|apply wf_parseCaAtoms].
  unfold parseCaAtoms. rewrite Hsplit, fold_left_app. cbn [fold_left].
  rewrite get_fold_parse_line_other by assumption.
  rewrite parse_line_record, Hline. apply get_set_same.
Qed.

Lemma parseCaAtoms_last_record_witness :
  let pdb := join_lines [ca_line_10; ca_line_11; ca_line_10_again; "END"] in
  get 10 (parseCaAtoms pdb) = Some {| x := 7.5; y := 8.5; z := 9.5 |}
  /\ wf (parseCaAtoms pdb).
Proof.
  intros pdb.
  apply (@parseCaAtoms_last_record pdb
           [ca_line_10; ca_line_11] ["END"] ca_line_10_again).
  - vm_compute. reflexivity.
  - vm_compute. reflexivity.
  - intros l c' [<- | []]. vm_compute. discriminate.
Defined.

(** The entry of residue 10 stays where the first record put it. *)
Example parseCaAtoms_duplicate_residue :
  parseCaAtoms (join_lines [ca_line_10; ca_line_11; ca_line_10_again; "END"])
  = [(10%Z, {| x := 7.5; y := 8.5; z := 9.5 |});
     (11%Z, {| x := 4; y := 5; z := 6 |})].
Proof. vm_compute. reflexivity. Qed.

End Parser.

(* ------------------------------------------------------------------ *)
(** * The displacement ramp                                             *)
(* ------------------------------------------------------------------ *)

Module Ramp.

Import JsMap JsMapFacts FloatFacts FloatBounds.








(** The clamp at 0 is a fact about the values that reach the ramp: the code
    bounds the interpolation with [Math.min] above 5 only, and at -2, which
    is no square root, the formula of the first segment gives 510. *)
Example ramp_formula_below_zero :
  ramp (-2) = {| red := 255; green := 255; blue := 510 |}
  /\ forall s, sqrt s <> (-2)%float.
Proof.
  split; [vm_compute; reflexivity|].
  intros s H. apply (f_equal Prim2SF) in H. rewrite sqrt_spec in H.
  destruct (SF64sqrt_cases (Prim2SF s)) as [E|[E|E]];
    rewrite H in E; vm_compute in E; discriminate.
Qed.

End Ramp.

(* ------------------------------------------------------------------ *)
(** * Superseded rendering cycles                                       *)
(* ------------------------------------------------------------------ *)

Module RenderingCycle.

Import Lifecycle LifecycleFacts.

(** C5.  Let the values change while the load is pending: the run [id0] of
    the effect is current and still waits for the [load] event, then React
    commits values with a different dependency.  Whatever happens next, the
    [load] callback of [id0] does nothing and no viewer of [id0] is ever
    made; before the script has run there is no viewer at all, and once the
    [load] event has been dispatched each wrapper of the current mode holds
    exactly one live viewer, made by the current run, and the other wrappers
    hold none. *)
Theorem stale_load_callback_noop
    (tr1 tr2 : list event) (p : deps) (id0 : nat) (c0 : cycle) :
  current (run tr1 initial) = Some id0 ->
  nth_error (cycles (run tr1 initial)) id0 = Some c0 ->
  waiting id0 (run tr1 initial) ->
  deps_changed (inputs c0) p = true ->
  let w := run (tr1 ++ Render p :: tr2) initial in
  fire id0 w = w
  /\ (forall v, In v (constructed w) -> owner v <> id0)
  /\ (engine w = false -> live w = [])
  /\ (loaded w = true ->
      forall id c,
        current w = Some id -> nth_error (cycles w) id = Some c ->
        id <> id0
        /\ forall s,
             (In s (surfaces (inputs c)) ->
              exists v, live_in s w = [v] /\ owner v = id /\ mount v = s)
             /\ (~ In s (surfaces (inputs c)) -> live_in s w = [])).
Proof.
  intros Hcur Hc0 [Hpending Hlistens] Hchanged w.
  set (w1 := run tr1 initial) in *.
  assert (I1 : invariant w1) by apply invariant_run, invariant_initial.
  assert (Hfresh : constructed w1 = []).
  { destruct (engine w1) eqn:He.
    - pose proof (inv_ready I1 He) as Hr. rewrite Hcur in Hr.
      destruct Hr as [(_ & _ & _ & Hc) | (Hs & _)]; [assumption|].
      rewrite (Hs Hpending) in Hlistens. destruct Hlistens.
    - now destruct (inv_pending I1 He) as (_ & _ & Hc & _). }
  assert (Hw : w = run tr2 (run_effect p (cleanup id0 w1))).
  { unfold w. rewrite run_app. fold w1. unfold run at 1. cbn [fold_left step].
    now rewrite Hcur, Hc0, Hchanged. }
  assert (S : superseded id0 w).
  { rewrite Hw. apply superseded_run, superseded_run_effect.
    split; cbn.
    - rewrite (nth_error_cancel_same _ _ Hc0). eauto.
    - rewrite Hfresh. intros v []. }
  assert (I : invariant w).
  { rewrite Hw. apply invariant_run, invariant_run_effect; [|reflexivity].
    now apply invariant_cleanup. }
  destruct S as [(c & Hc & Hlc & Hec) Hnone].
  split; [now apply fire_cancelled with c|].
  split; [exact Hnone|].
  split; [intros He; now destruct (inv_pending I He) as (_ & Hl & _)|].
  intros Hld id c' Hid Hc'.
  destruct (inv_current I Hid) as (c'' & Hc'' & Hl'' & He'').
  split; [intros ->; congruence|].
  intros s. apply live_in_viewers_of.
  assert (He : engine w = true).
  { destruct (engine w) eqn:He; auto.
    destruct (inv_pending I He) as (Hf & _). congruence. }
  pose proof (inv_ready I He) as Hr. rewrite Hid, Hc' in Hr.
  destruct Hr as [(Hf & _) | (_ & Hl)]; [congruence|assumption].
Qed.

Lemma stale_load_callback_noop_witness :
  let w1 := run [Render first_values] initial in
  let w := run scenario_D initial in
  (current w1 = Some 0%nat /\ waiting 0 w1
   /\ deps_changed first_values second_values = true)
  /\ loaded w = true /\ current w = Some 1%nat
  /\ (forall v, In v (constructed w) -> owner v <> 0%nat)
  /\ (exists v, live_in WildWrapper w = [v] /\ owner v = 1%nat)
  /\ (exists v, live_in MutantWrapper w = [v] /\ owner v = 1%nat)
  /\ live_in SingleWrapper w = [].
Proof.
  intros w1 w.
  assert (Hwait : waiting 0 w1) by (split; [reflexivity|simpl; auto]).
  pose proof (@stale_load_callback_noop [Render first_values]
                [ScriptRun; ScriptLoad] second_values 0%nat
                {| inputs := first_values; load_cancelled := false;
                   effect_cancelled := false |}
                eq_refl eq_refl Hwait eq_refl) as H.
  cbv zeta in H. change (run _ initial) with w in H.
  destruct H as (_ & Hnone & _ & Hready).
  specialize (Hready eq_refl 1%nat
                {| inputs := second_values; load_cancelled := false;
                   effect_cancelled := false |} eq_refl eq_refl).
  destruct Hready as [_ Hs].
  split; [repeat split; simpl; auto|].
  split; [reflexivity|]. split; [reflexivity|]. split; [exact Hnone|].
  split; [|split].
  - destruct (proj1 (Hs WildWrapper)) as (v & Hv & Ho & _);
      [simpl; auto|]. eauto.
  - destruct (proj1 (Hs MutantWrapper)) as (v & Hv & Ho & _);
      [simpl; auto|]. eauto.
  - apply (proj2 (Hs SingleWrapper)). simpl. intuition discriminate.
Defined.

(** Scenario D, run: the two viewers of the second values and no other. *)
Example scenario_D_viewers :
  constructed (run scenario_D initial) = viewers_of 1 second_values
  /\ live (run scenario_D initial) = viewers_of 1 second_values.
Proof. split; reflexivity. Qed.

(** The values change between the run of the script and its [load] event:
    the first run waits with the engine defined, and again makes nothing. *)
Example superseded_between_run_and_load :
  let w := run [Render first_values; ScriptRun; Render second_values;
                ScriptLoad] initial in
  constructed w = viewers_of 1 second_values
  /\ live w = viewers_of 1 second_values.
Proof. split; reflexivity. Qed.

End RenderingCycle.

(* ------------------------------------------------------------------ *)
(** * The rendering cycle, whatever the events                          *)
(* ------------------------------------------------------------------ *)

Module RenderingInvariants.

Import Lifecycle LifecycleViews LifecycleFacts LifecycleSteps.

(** X1.  After any sequence of renders, unmounts and script events, every
    live viewer was made by the current run of the effect, which is not
    cancelled, and shows the values of that run; a wrapper holds at most one
    live viewer; and without current run (before the first render, after an
    unmount) no viewer is live. *)
Theorem live_viewers_of_current_run (tr : list event) :
  let w := run tr initial in
  (forall v, In v (live w) ->
     exists c,
       current w = Some (owner v)
       /\ nth_error (cycles w) (owner v) = Some c
       /\ load_cancelled c = false /\ effect_cancelled c = false
       /\ In v (viewers_of (owner v) (inputs c)))
  /\ (forall s, (List.length (live_in s w) <= 1)%nat)
  /\ (current w = None -> live w = []).
Proof.
  intros w.
  assert (I : invariant w) by apply invariant_run, invariant_initial.
  destruct (live_cases I) as [Hl | (id & c & Hid & Hc & Hl)].
  - unfold live_in. rewrite Hl. simpl. repeat split; auto. intros v [].
  - split; [|split].
    + intros v Hv. rewrite Hl in Hv.
      pose proof (viewers_of_owner _ _ _ Hv) as Ho. rewrite Ho.
      destruct (inv_current I Hid) as (c' & Hc' & Hlc & Hec).
      exists c. rewrite Hc in Hc'. injection Hc' as <-. auto 10.
    + intros s.
      destruct (Bool.bool_dec (existsb (surface_eqb s) (surfaces (inputs c))) true)
        as [Hin|Hout].
      * destruct (proj1 (live_in_viewers_of w id (inputs c) s Hl)) as (v & -> & _);
          [|simpl; lia].
        apply existsb_exists in Hin. destruct Hin as (s' & Hs' & Heq).
        destruct s, s'; try discriminate; assumption.
      * rewrite (proj2 (live_in_viewers_of w id (inputs c) s Hl)); [simpl; lia|].
        intros Hin. apply Hout. apply existsb_exists. exists s.
        split; [assumption|now destruct s].
    + congruence.
Qed.

(** X2.  Let React commit the values [p], and let only script events
    follow.  Then the current run of the effect is a run for [p] that is not
    cancelled, whatever happened before; once the [load] event has been
    dispatched the live viewers are exactly those of [p] and the overlay is
    down, and before that the viewers of [p] are shown or none is. *)
Theorem latest_values_shown (tr tr' : list event) (p : deps) :
  (forall e, In e tr' -> e = ScriptRun \/ e = ScriptLoad) ->
  let w := run (tr ++ Render p :: tr') initial in
  exists id c,
    current w = Some id /\ nth_error (cycles w) id = Some c /\ inputs c = p
    /\ load_cancelled c = false /\ effect_cancelled c = false
    /\ (loaded w = true -> live w = viewers_of id p /\ loading w = false)
    /\ (live w = [] \/ live w = viewers_of id p).
Proof.
  intros Hscript w.
  set (w1 := run tr initial).
  assert (I1 : invariant w1) by apply invariant_run, invariant_initial.
  set (w2 := step w1 (Render p)).
  assert (I2 : invariant w2) by now apply invariant_step.
  assert (Hw : w = run tr' w2).
  { unfold w. rewrite run_app. reflexivity. }
  assert (I : invariant w) by (rewrite Hw; now apply invariant_run).
  assert (O : overlay_matches w).
  { unfold w. apply overlay_run; [apply invariant_initial|apply overlay_initial]. }
  destruct (render_current p I1) as (id & c & Hid & Hc & Hp). fold w2 in Hid, Hc.
  destruct (script_events_keep_runs tr' Hscript I2) as [Hcs Hcur].
  rewrite <- Hw in Hcs, Hcur. rewrite <- Hcs in Hc. rewrite <- Hcur in Hid.
  destruct (inv_current I Hid) as (c' & Hc' & Hlc & Hec).
  rewrite Hc in Hc'. injection Hc' as <-.
  exists id, c. repeat split; auto.
  - assert (He : engine w = true).
    { destruct (engine w) eqn:He; auto.
      destruct (inv_pending I He) as (Hf & _). congruence. }
    pose proof (inv_ready I He) as Hr. rewrite Hid, Hc, Hp in Hr.
    destruct Hr as [(Hf & _) | (_ & Hl)]; [congruence|assumption].
  - assert (He : engine w = true).
    { destruct (engine w) eqn:He; auto.
      destruct (inv_pending I He) as (Hf & _). congruence. }
    pose proof (inv_ready I He) as Hr. rewrite Hid, Hc, Hp in Hr.
    destruct Hr as [(Hf & _) | (_ & Hl)]; [congruence|].
    destruct (O id c Hid Hc) as [[_ Hn] | [Hld _]]; [|assumption].
    rewrite Hn in Hl. symmetry in Hl. now apply viewers_of_not_empty in Hl.
  - destruct (live_cases I) as [Hl | (id' & c'' & Hid' & Hc'' & Hl)]; [now left|].
    right. rewrite Hid in Hid'. injection Hid' as <-.
    rewrite Hc in Hc''. injection Hc'' as <-. now rewrite <- Hp.
Qed.

Lemma latest_values_shown_witness :
  let w := run scenario_D initial in
  exists id c,
    current w = Some id /\ nth_error (cycles w) id = Some c
    /\ inputs c = second_values
    /\ load_cancelled c = false /\ effect_cancelled c = false
    /\ (loaded w = true
        -> live w = viewers_of id second_values /\ loading w = false)
    /\ (live w = [] \/ live w = viewers_of id second_values).
Proof.
  apply (@latest_values_shown [Render first_values] [ScriptRun; ScriptLoad]
           second_values).
  intros e [<- | [<- | []]]; auto.
Defined.

(** X3.  While a run of the effect is current, the loading overlay is up
    exactly when no viewer is live: [setLoading(false)] comes with the
    viewers of the current run, and every new run puts the overlay back. *)
Theorem overlay_up_until_viewers (tr : list event) (id : nat) :
  current (run tr initial) = Some id ->
  let w := run tr initial in
  (loading w = true <-> live w = [])
  /\ (loading w = false <->
      exists c, nth_error (cycles w) id = Some c
                /\ live w = viewers_of id (inputs c)).
Proof.
  intros Hid w.
  assert (I : invariant w) by apply invariant_run, invariant_initial.
  assert (O : overlay_matches w).
  { apply overlay_run; [apply invariant_initial|apply overlay_initial]. }
  destruct (inv_current I Hid) as (c & Hc & _).
  destruct (O id c Hid Hc) as [[Hld Hl] | [Hld Hl]].
  - split; [tauto|]. rewrite Hld, Hl. split; [discriminate|].
    intros (c' & _ & Hv). symmetry in Hv. now apply viewers_of_not_empty in Hv.
  - rewrite Hld, Hl. split.
    + split; [discriminate|]. intros Hv. now apply viewers_of_not_empty in Hv.
    + split; eauto.
Qed.

Lemma overlay_up_until_viewers_witness :
  let pending := run [Render first_values; ScriptRun] initial in
  let ready := run [Render first_values; ScriptRun; ScriptLoad] initial in
  (loading pending = true <-> live pending = [])
  /\ (loading ready = false <->
      exists c, nth_error (cycles ready) 0 = Some c
                /\ live ready = viewers_of 0 (inputs c)).
Proof.
  intros pending ready. split.
  - exact (proj1 (@overlay_up_until_viewers [Render first_values; ScriptRun]
                    0%nat eq_refl)).
  - exact (proj2 (@overlay_up_until_viewers
                    [Render first_values; ScriptRun; ScriptLoad]
                    0%nat eq_refl)).
Defined.

(** X4.  [createViewer] is never called twice for the same run of the
    effect and the same wrapper: over any sequence of events, the viewers
    ever made have different pairs of run and wrapper, and each was made by
    a run that has started. *)
Theorem viewers_made_once (tr : list event) :
  let w := run tr initial in
  NoDup (map place (constructed w))
  /\ forall v, In v (constructed w) -> (owner v < List.length (cycles w))%nat.
Proof.
  intros w.
  destruct (@made_once_run tr initial invariant_initial made_once_initial)
    as [Hlt Hnd].
  split; assumption.
Qed.

End RenderingInvariants.

(* ------------------------------------------------------------------ *)
(** * The content of the maps                                           *)
(* ------------------------------------------------------------------ *)

Module MapContents.

Import JsMap JsMapFacts ParserFacts RmsdFacts EntryFacts Samples.
Local Open Scope string_scope.

(** X5.  Every entry of [parseCaAtoms pdb] is the record of a line of the
    text, the last one of its residue: an [ATOM] line of a [CA] atom.  None
    of its coordinates is [NaN], and its residue number, read in a field of
    four characters, lies between -999 and 9999. *)
Theorem parseCaAtoms_entry_sound (pdb : string) (resi : Z) (c : coord) :
  get resi (parseCaAtoms pdb) = Some c ->
  (exists before line after,
     split_lines pdb = (before ++ line :: after)%list
     /\ record_of line = Some (resi, c)
     /\ startsWith "ATOM  " line = true
     /\ trim (JsString.substring 12 16 line) = "CA"
     /\ forall l c', In l after -> record_of l <> Some (resi, c'))
  /\ is_nan (x c) = false /\ is_nan (y c) = false /\ is_nan (z c) = false
  /\ (-999 <= resi <= 9999)%Z.
Proof.
  intros H. apply get_fold_parse_line_last in H.
  destruct H as (before & line & after & Hs & Hr & Hafter).
  split; [|exact (record_of_sound _ Hr)].
  exists before, line, after. repeat split; auto.
  - unfold record_of in Hr.
    destruct (startsWith "ATOM  " line); [reflexivity|discriminate].
  - unfold record_of in Hr.
    destruct (startsWith "ATOM  " line); [|discriminate].
    destruct (String.eqb (trim (JsString.substring 12 16 line)) "CA") eqn:E;
      [|discriminate].
    now apply String.eqb_eq.
Qed.

Lemma parseCaAtoms_entry_sound_witness :
  let pdb := join_lines [ca_line_10; ca_line_11; ca_line_10_again; "END"] in
  let c := {| x := 7.5; y := 8.5; z := 9.5 |} in
  (exists before line after,
     split_lines pdb = (before ++ line :: after)%list
     /\ record_of line = Some (10%Z, c)
     /\ startsWith "ATOM  " line = true
     /\ trim (JsString.substring 12 16 line) = "CA"
     /\ forall l c', In l after -> record_of l <> Some (10%Z, c'))
  /\ is_nan (x c) = false /\ is_nan (y c) = false /\ is_nan (z c) = false
  /\ (-999 <= 10 <= 9999)%Z.
Proof.
  intros pdb c. apply (@parseCaAtoms_entry_sound pdb 10%Z c).
  vm_compute. reflexivity.
Defined.

(** X6.  [parseCaAtoms pdb] has no entry for a residue exactly when no line
    of the text is a record of that residue. *)
Theorem parseCaAtoms_no_entry (pdb : string) (resi : Z) :
  get resi (parseCaAtoms pdb) = None <->
  (forall line c, In line (split_lines pdb) -> record_of line <> Some (resi, c)).
Proof.
  unfold parseCaAtoms. split.
  - apply get_fold_parse_line_None.
  - intros H. now rewrite get_fold_parse_line_other.
Qed.

(** X7.  The entries of [computePerResidueRmsd wild mutant] stand in the
    order of [wild]: its keys are the keys of [wild] that [mutant] has, in
    the order in which [wild] has them, whatever the order of [mutant]. *)
Theorem computePerResidueRmsd_keys (wild mutant : t coord) :
  wf wild ->
  keys (computePerResidueRmsd wild mutant)
  = filter (fun k => match get k mutant with
                     | Some _ => true
                     | None => false
                     end) (keys wild).
Proof.
  intros Hwf. unfold computePerResidueRmsd.
  rewrite keys_fold_rmsd_step; auto.
Qed.

Lemma computePerResidueRmsd_keys_witness :
  let c := {| x := 0; y := 0; z := 0 |} in
  let wild := [(12%Z, c); (10%Z, c); (11%Z, c)] in
  let mutant := [(10%Z, c); (13%Z, c); (12%Z, c)] in
  keys (computePerResidueRmsd wild mutant) = [12%Z; 10%Z].
Proof.
  intros c wild mutant.
  apply (@computePerResidueRmsd_keys wild mutant).
  unfold wf, wild. simpl. repeat constructor; simpl; intuition discriminate.
Defined.

(** X8.  The dual mode of the viewer, from the two structure texts: the
    displacement map has an entry for a residue exactly when each text has a
    record of it; the entry is the distance between the last records of the
    residue in the two texts, [NaN] or not negative; the map has one entry
    per residue, in the order of the entries of the wild-type map. *)
Theorem displacement_of_texts (pdbData mutantPdbData : string) (resi : Z) :
  let wildCa := parseCaAtoms pdbData in
  let mutantCa := parseCaAtoms mutantPdbData in
  let rmsdMap := computePerResidueRmsd wildCa mutantCa in
  (get resi rmsdMap = None <->
   (forall line c, In line (split_lines pdbData) ->
                   record_of line <> Some (resi, c))
   \/ (forall line c, In line (split_lines mutantPdbData) ->
                      record_of line <> Some (resi, c)))
  /\ (forall v, get resi rmsdMap = Some v ->
        exists w m,
          get resi wildCa = Some w /\ get resi mutantCa = Some m
          /\ v = distance w m
          /\ (is_nan v = true \/ (0 <=? v)%float = true)
          /\ (-999 <= resi <= 9999)%Z)
  /\ wf rmsdMap
  /\ keys rmsdMap
     = filter (fun k => match get k mutantCa with
                        | Some _ => true
                        | None => false
                        end) (keys wildCa).
Proof.
  intros wildCa mutantCa rmsdMap.
  assert (Hget := @get_computePerResidueRmsd wildCa mutantCa resi
                    (wf_parseCaAtoms pdbData)).
  fold rmsdMap in Hget.
  split; [|split; [|split]].
  - rewrite Hget. split.
    + intros H. destruct (get resi wildCa) as [w|] eqn:Ew.
      * destruct (get resi mutantCa) as [m|] eqn:Em; [discriminate|].
        right. now apply get_fold_parse_line_None.
      * left. now apply get_fold_parse_line_None.
    + intros [H|H].
      * unfold wildCa, parseCaAtoms. now rewrite get_fold_parse_line_other.
      * assert (Hm : get resi mutantCa = None).
        { unfold mutantCa, parseCaAtoms. now rewrite get_fold_parse_line_other. }
        rewrite Hm. now destruct (get resi wildCa).
  - intros v Hv. rewrite Hget in Hv.
    destruct (get resi wildCa) as [w|] eqn:Ew; [|discriminate].
    destruct (get resi mutantCa) as [m|] eqn:Em; [|discriminate].
    injection Hv as <-. exists w, m. repeat split; auto.
    + apply DistanceFacts.distance_nan_or_nonneg.
    + apply get_fold_parse_line_last in Ew.
      destruct Ew as (? & line & ? & _ & Hr & _).
      apply (record_of_sound _ Hr).
    + apply get_fold_parse_line_last in Ew.
      destruct Ew as (? & line & ? & _ & Hr & _).
      apply (record_of_sound _ Hr).
  - apply wf_computePerResidueRmsd.
  - unfold rmsdMap, computePerResidueRmsd.
    rewrite keys_fold_rmsd_step; auto. apply wf_parseCaAtoms.
Qed.

End MapContents.

(* ------------------------------------------------------------------ *)
(** * The confidence averages                                           *)
(* ------------------------------------------------------------------ *)

Module PlddtAverages.

Import Plddt PlddtFacts Samples.
Local Open Scope string_scope.

(** X9.  The average of the structure route and the average of the ESMFold
    route are the same number on every text none of whose lines starts with
    [ATOM] and a tab: the two loops differ by that test only, and the tests
    [count === 0] and [bFactorCount > 0] part the same cases. *)
Theorem averages_agree (pdbData : string) :
  (forall line, In line (split_lines pdbData) ->
                startsWith ("ATOM" ++ tab) line = false) ->
  calculateAveragePlddt pdbData = esmfold_avgPlddt pdbData.
Proof.
  intros Htab. unfold calculateAveragePlddt, esmfold_avgPlddt. cbv zeta.
  rewrite fold_average_step.
  assert (Hf : filter (fun line => startsWith "ATOM  " line
                                   || startsWith ("ATOM" ++ tab) line)%bool
                 (split_lines pdbData)
               = filter (startsWith "ATOM  ") (split_lines pdbData)).
  { apply filter_ext_in. intros l Hl. rewrite (Htab l Hl). apply orb_false_r. }
  rewrite Hf.
  destruct (count_fold_cases (filter (startsWith "ATOM  ") (split_lines pdbData)))
    as [[-> _] | (H0 & H1 & _)].
  - reflexivity.
  - now rewrite H0, H1.
Qed.

Lemma averages_agree_witness :
  calculateAveragePlddt sample_pdb = esmfold_avgPlddt sample_pdb.
Proof.
  apply averages_agree. intros line Hl. vm_compute in Hl.
  repeat (destruct Hl as [<- | Hl]; [reflexivity|]). destruct Hl.
Defined.

(** A line that starts with [ATOM] and a tab counts for the structure route
    and not for the ESMFold route. *)
Example averages_differ_on_tab :
  let line := "ATOM" ++ tab
              ++ "                                                       12.5" in
  calculateAveragePlddt line = 12.5%float /\ esmfold_avgPlddt line = 0%float.
Proof. split; vm_compute; reflexivity. Qed.

(** X10.  [getResiduePlddt] returns [null] exactly when no [ATOM] line of
    the residue has a number in the B-factor field; in every other case it
    returns the rounded mean of the B-factors of those lines. *)
Theorem getResiduePlddt_null (pdbData : string) (resi : Z) :
  (getResiduePlddt pdbData resi = None <->
   forall line, In line (split_lines pdbData) ->
     startsWith "ATOM  " line = true -> of_residue resi line = true ->
     isNaN (bFactor_of line) = true)
  /\ (getResiduePlddt pdbData resi <> None ->
      getResiduePlddt pdbData resi
      = Some (rounded_mean
                (fold_left add_bFactor
                   (filter (fun line => startsWith "ATOM  " line
                                        && of_residue resi line)%bool
                      (split_lines pdbData)) start))).
Proof.
  unfold getResiduePlddt. cbv zeta. rewrite fold_residue_step.
  set (ls := filter _ (split_lines pdbData)).
  destruct (count_fold_cases ls) as [[Ht Hnone] | (_ & H1 & l & Hl & Hc)].
  - rewrite Ht. cbn. split; [|congruence]. split; [|reflexivity].
    intros _ line Hin Ha Hr.
    assert (Hc : counted line = false).
    { apply Hnone. apply filter_In. now rewrite Ha, Hr. }
    unfold counted in Hc. now apply negb_false_iff in Hc.
  - rewrite H1. split; [|reflexivity]. split; [discriminate|].
    intros H. exfalso. apply filter_In in Hl as [Hin Hsel].
    apply andb_true_iff in Hsel as [Ha Hr].
    specialize (H l Hin Ha Hr). unfold counted in Hc.
    rewrite H in Hc. discriminate.
Qed.

(** X11.  On a text in which no line that the loop reads has a number in
    the B-factor field (the empty text, a text without [ATOM] line, records
    cut before column 61), both averages are 0: nothing is divided by the
    zero count. *)
Theorem averages_without_bFactor (pdbData : string) :
  (forall line, In line (split_lines pdbData) ->
     (startsWith "ATOM  " line || startsWith ("ATOM" ++ tab) line)%bool = true ->
     isNaN (bFactor_of line) = true) ->
  calculateAveragePlddt pdbData = 0%float
  /\ esmfold_avgPlddt pdbData = 0%float.
Proof.
  intros H. unfold calculateAveragePlddt, esmfold_avgPlddt. cbv zeta.
  rewrite fold_average_step.
  rewrite !fold_add_bFactor_none; [split; reflexivity| |].
  - intros l Hl. apply filter_In in Hl as [Hin Ha].
    unfold counted. rewrite (H l Hin); [reflexivity|]. now rewrite Ha.
  - intros l Hl. apply filter_In in Hl as [Hin Ha].
    unfold counted. now rewrite (H l Hin Ha).
Qed.

Lemma averages_without_bFactor_witness :
  let pdbData :=
    join_lines ["REMARK   1"; "ATOM      2  CA  MET A  10       1.000"; ""] in
  calculateAveragePlddt pdbData = 0%float
  /\ esmfold_avgPlddt pdbData = 0%float.
Proof.
  intros pdbData. apply averages_without_bFactor.
  intros line Hl. vm_compute in Hl.
  repeat (destruct Hl as [<- | Hl]; [vm_compute; auto|]). destruct Hl.
Defined.

End PlddtAverages.

(* ------------------------------------------------------------------ *)
(** * The domain of the mutation site                                   *)
(* ------------------------------------------------------------------ *)

Module DomainOfSite.

Import Mutation.
Local Open Scope Z_scope.

(** X12.  [findDomain] returns the name of the first domain of the list
    whose bounds hold the position, also when later domains hold it too; it
    returns [null] exactly when the page marks no domain of the list as the
    mutation site. *)
Theorem findDomain_first (domains : list domain) (position : Z) :
  (forall n, findDomain domains position = Some n <->
     exists before d after,
       domains = (before ++ d :: after)%list
       /\ name d = n
       /\ start d <= position <= finish d
       /\ forall d', In d' before ->
            ~ (start d' <= position <= finish d'))
  /\ (findDomain domains position = None <->
      forall d, In d domains -> mutInDomain position d = false).
Proof.
  assert (Hin : forall d, mutInDomain position d = true
                          <-> start d <= position <= finish d).
  { intros d. unfold mutInDomain. rewrite andb_true_iff, !Z.leb_le. tauto. }
  unfold findDomain. induction domains as [|d0 ds [IHs IHn]].
  - split.
    + intros n. split; [discriminate|].
      intros (before & d & after & H & _). now destruct before.
    + split; [intros _ d []|reflexivity].
  - cbn [find]. destruct (mutInDomain position d0) eqn:E0.
    + split.
      * intros n. split.
        -- intros [= <-]. exists [], d0, ds.
           repeat split; try apply Hin; auto; intros d' [].
        -- intros (before & d & after & H & Hn & Hd & Hb).
           destruct before as [|b before].
           ++ injection H as -> _. now rewrite Hn.
           ++ injection H as -> _. exfalso. apply (Hb b); [now left|].
              now apply Hin.
      * split; [discriminate|]. intros H.
        rewrite (H d0 (or_introl eq_refl)) in E0. discriminate.
    + split.
      * intros n. rewrite IHs. split.
        -- intros (before & d & after & -> & Hn & Hd & Hb).
           exists (d0 :: before), d, after. repeat split; auto; try apply Hd.
           intros d' [<- | Hd']; [|now apply Hb].
           rewrite <- Hin, E0. discriminate.
        -- intros (before & d & after & H & Hn & Hd & Hb).
           destruct before as [|b before].
           ++ injection H as -> _. apply Hin in Hd. congruence.
           ++ injection H as -> ->. exists before, d, after.
              repeat split; auto; try apply Hd.
              intros d' Hd'. apply Hb. now right.
      * rewrite IHn. split.
        -- intros H d [<- | Hd]; auto.
        -- intros H d Hd. apply H. now right.
Qed.

End DomainOfSite.

(* ------------------------------------------------------------------ *)
(** * The parser of the query                                           *)
(* ------------------------------------------------------------------ *)

Module QueryParser.

Import JsText Mutation StringFacts TextFacts MutationFacts.
Local Open Scope string_scope.

(** X13.  For an input of code units below 256 and every object [m] whose
    position is below [2^53], where the number that [parseInt] returns is
    the integer of the digits: [parseMutation] returns [m] exactly when the
    trimmed input is a gene (a letter, then letters and digits), white space,
    a letter, a run of digits and a letter, and nothing else, and [m] holds
    the gene and the two letters in upper case and the value of the digits.
    [parseMutation] returns [null] exactly when the trimmed input is not of
    that form. *)
Theorem parseMutation_expression (input : string) :
  (forall m, (position m < 2 ^ 53)%Z ->
     (parseMutation input = Some m <->
      exists k, trim input = text_of k /\ matched k = true
                /\ m = {| gene := toUpperCase (gene_text k);
                          original := toUpperCase (String (from k) "");
                          position := digits_value 0 (digits k);
                          mutant := toUpperCase (String (to k) "") |}))
  /\ (parseMutation input = None <->
      forall k, matched k = true -> trim input <> text_of k).
Proof.
  assert (Hparsed : forall k, matched k = true ->
            parsed k = Some {| gene := toUpperCase (gene_text k);
                               original := toUpperCase (String (from k) "");
                               position := digits_value 0 (digits k);
                               mutant := toUpperCase (String (to k) "") |}).
  { intros k Hk.
    destruct (matched_parts k Hk) as (_ & _ & _ & _ & _ & Hd & Hds & _).
    unfold parsed. now rewrite (parseInt_digits Hd Hds). }
  split.
  - intros m _. split.
    + intros H. destruct (parseMutation_sound _ H) as (k & Ht & Hk & Hm).
      rewrite (Hparsed k Hk) in Hm. injection Hm as <-.
      exists k. repeat split; auto.
    + intros (k & Ht & Hk & ->).
      rewrite (@parseMutation_groups input k Ht Hk). now apply Hparsed.
  - split.
    + intros H k Hk Ht. rewrite (@parseMutation_groups input k Ht Hk) in H.
      rewrite (Hparsed k Hk) in H. discriminate.
    + intros H. destruct (parseMutation input) as [m|] eqn:E; [|reflexivity].
      destruct (parseMutation_sound _ E) as (k & Ht & Hk & _).
      now destruct (H k Hk).
Qed.

Lemma parseMutation_expression_witness :
  let m := {| gene := "BRCA1"; original := "C"; position := 61;
              mutant := "G" |} in
  let k := {| gene_text := "brca1"; blank := "  "; from := "c"%char;
              digits := "061"; to := "G"%char |} in
  (position m < 2 ^ 53)%Z
  /\ trim "  brca1  c061G " = text_of k /\ matched k = true
  /\ parseMutation "  brca1  c061G " = Some m
  /\ parseMutation "brca1 c61" = None
  /\ forall k', matched k' = true -> trim "brca1 c61" <> text_of k'.
Proof.
  intros m k.
  assert (Hm : (position m < 2 ^ 53)%Z) by (vm_compute; reflexivity).
  split; [exact Hm|]. split; [reflexivity|]. split; [reflexivity|].
  split; [|split; [reflexivity|]].
  - apply (proj1 (parseMutation_expression "  brca1  c061G ") m Hm).
    exists k. repeat split; reflexivity.
  - exact (proj1 (proj2 (parseMutation_expression "brca1 c61")) eq_refl).
Defined.

(** X14.  The object that [parseMutation] returns is in canonical form: the
    gene is in upper case, the amino acids are single letters and the
    position is not negative.  For a position that a Number holds exactly,
    the gene and the notation of the page ([original], position, [mutant]),
    parsed again, give the same object. *)
Theorem parseMutation_canonical_text (input : string) (m : ParsedMutation) :
  parseMutation input = Some m ->
  (position m < 2 ^ 53)%Z ->
  parseMutation (gene m ++ " " ++ mutationNotation m) = Some m
  /\ (0 <= position m)%Z
  /\ toUpperCase (gene m) = gene m
  /\ gene m <> ""
  /\ String.length (original m) = 1%nat
  /\ String.length (mutant m) = 1%nat.
Proof.
  intros H _. destruct (parseMutation_sound _ H) as (k & _ & Hk & Hm).
  split; [now apply parseMutation_canonical with k|].
  split; [apply (parsed_position k Hk Hm)|].
  destruct (matched_parts k Hk) as ((g0 & g' & Hg & _) & _).
  unfold parsed in Hm. destruct (parseInt (digits k)); [|discriminate].
  injection Hm as <-. cbn [gene original mutant].
  rewrite toUpperCase_idem, Hg. repeat split. discriminate.
Qed.

Lemma parseMutation_canonical_text_witness :
  let m := {| gene := "TP53"; original := "R"; position := 175;
              mutant := "H" |} in
  parseMutation "  tp53   r175h " = Some m
  /\ parseMutation "TP53 R175H" = Some m.
Proof.
  intros m.
  assert (H : parseMutation "  tp53   r175h " = Some m) by reflexivity.
  split; [exact H|].
  exact (proj1 (@parseMutation_canonical_text _ m H ltac:(vm_compute; reflexivity))).
Defined.

End QueryParser.

(* ------------------------------------------------------------------ *)
(** * The position that the ESMFold route mutates                       *)
(* ------------------------------------------------------------------ *)

Module PositionCheck.

Import JsText Esmfold StringFacts TextFacts EsmfoldFacts.
Local Open Scope Z_scope.

(** X15.  When the handler goes on to call the server, the position that it
    mutates is a position of the sequence, at most five away from the given
    one, and holds the expected residue, letter case apart.  It is the given
    position when that one holds the residue, with no correction reported;
    otherwise it is the least position of the window that holds the residue
    (a match before the given position wins over a nearer one after it), and
    it is reported as the correction with a note.  The sequence has 400
    units at most. *)
Theorem resolved_position_holds_residue (q : request) (r : resolution) :
  ascii_text (sequence q) = true -> ascii_text (original q) = true ->
  resolve q = Resolved r ->
  exists p,
    position q = Some p
    /\ 1 <= p <= Z.of_nat (String.length (sequence q))
    /\ Z.of_nat (String.length (sequence q)) <= 400
    /\ 1 <= resolvedPosition r <= Z.of_nat (String.length (sequence q))
    /\ p - 5 <= resolvedPosition r <= p + 5
    /\ same_residue (sequence q) (original q) (resolvedPosition r - 1) = true
    /\ (same_residue (sequence q) (original q) (p - 1) = true ->
        resolvedPosition r = p /\ correctedPosition r = None
        /\ note r = None)
    /\ (same_residue (sequence q) (original q) (p - 1) = false ->
        resolvedPosition r <> p
        /\ correctedPosition r = Some (resolvedPosition r)
        /\ note r <> None
        /\ forall j, p - 5 <= j < resolvedPosition r ->
             same_residue (sequence q) (original q) (j - 1) = false).
Proof.
  intros _ _ H.
  destruct (resolve_Resolved q H)
    as (p & Hp & _ & _ & _ & Hr & Hlen & _ & Hcase).
  exists p. split; [assumption|]. split; [lia|]. split; [lia|].
  destruct Hcase as [(Hs & -> & Hc & Hn) | (Hs & Hsearch & Hc & Hn)].
  - split; [lia|]. split; [lia|]. split; [assumption|].
    split; [auto|]. rewrite Hs. discriminate.
  - pose proof (search_offsets (sequence q) (original q) p) as Hspec.
    rewrite Hsearch in Hspec. destruct Hspec as (Hne & Hwin & Hres & Hleast).
    pose proof (same_residue_in_range _ _ _ Hres) as Hin.
    split; [lia|]. split; [assumption|]. split; [assumption|].
    split; [rewrite Hs; discriminate|].
    intros _. repeat split; auto.
    intros j Hj. destruct (Z.eq_dec j p) as [->|Hjp]; auto.
Qed.

Lemma resolved_position_holds_residue_witness :
  let q := {| sequence := "MEEPQSDPSV"; position := Some 5;
              original := "p"; mutant := "k" |} in
  exists r,
    resolve q = Resolved r
    /\ resolvedPosition r = 4 /\ correctedPosition r = Some 4
    /\ mutantSequence r = "MEEKQSDPSV"%string
    /\ same_residue (sequence q) (original q) (8 - 1) = true
    /\ forall j, 5 - 5 <= j < 4 ->
         same_residue (sequence q) (original q) (j - 1) = false.
Proof.
  intros q.
  set (r := {| resolvedPosition := 4; correctedPosition := Some 4;
               note := Some "Note: p found at position 4 instead of 5 (common numbering offset)."%string;
               mutantSequence := "MEEKQSDPSV"%string |}).
  assert (H : resolve q = Resolved r) by reflexivity.
  exists r. split; [exact H|].
  destruct (@resolved_position_holds_residue q r eq_refl eq_refl H)
    as (p & Hp & _ & _ & _ & _ & _ & _ & Hcorr).
  injection Hp as <-.
  destruct (Hcorr eq_refl) as (_ & _ & _ & Hleast).
  repeat split; auto.
Defined.

(** X16.  The handler never throws in steps 1 to 5, and it goes on to call
    the server exactly when the four fields are there, the position is a
    position of the sequence, the sequence has 400 units at most, and some
    position at most five away holds the expected residue.  When it answers
    that the residue was not found, no position of the window holds it,
    whatever the length of the sequence. *)
Theorem resolve_accepts (q : request) :
  ascii_text (sequence q) = true -> ascii_text (original q) = true ->
  resolve q <> Thrown
  /\ ((exists r, resolve q = Resolved r) <->
      exists p,
        position q = Some p
        /\ original q <> EmptyString /\ mutant q <> EmptyString
        /\ 1 <= p <= Z.of_nat (String.length (sequence q))
        /\ Z.of_nat (String.length (sequence q)) <= 400
        /\ exists j, p - 5 <= j <= p + 5
                     /\ same_residue (sequence q) (original q) (j - 1) = true)
  /\ (forall o p a, resolve q = Rejected (NotFound o p a) ->
        position q = Some p /\ o = original q
        /\ index (sequence q) (p - 1) = Some a
        /\ forall j, p - 5 <= j <= p + 5 ->
             same_residue (sequence q) (original q) (j - 1) = false).
Proof.
  intros _ _.
  assert (Hempty : forall s, is_empty s = false <-> s <> EmptyString).
  { intros [|c s]; simpl; split; congruence. }
  (* the handler by cases *)
  assert (Hcases :
    (exists f, resolve q = Rejected f
               /\ forall o p a, f <> NotFound o p a)
    \/ exists p actual,
         position q = Some p
         /\ is_empty (sequence q) = false /\ is_empty (original q) = false
         /\ is_empty (mutant q) = false
         /\ 1 <= p <= Z.of_nat (String.length (sequence q))
         /\ index (sequence q) (p - 1) = Some actual
         /\ resolve q =
            if same_residue (sequence q) (original q) (p - 1)
            then finish q p None None
            else match search (sequence q) (original q) p offsets with
                 | Some resolved =>
                     finish q resolved (Some resolved)
                       (Some ("Note: " ++ original q ++ " found at position "
                              ++ show_Z resolved ++ " instead of "
                              ++ show_Z p
                              ++ " (common numbering offset).")%string)
                 | None => Rejected (NotFound (original q) p actual)
                 end).
  { destruct (position q) as [p|] eqn:Hp.
    - destruct (is_empty (sequence q)) eqn:Hs;
        [left; exists MissingFields; unfold resolve; rewrite Hp, Hs;
         split; [reflexivity|discriminate]|].
      destruct (is_empty (original q)) eqn:Ho;
        [left; exists MissingFields; unfold resolve; rewrite Hp, Hs, Ho;
         split; [reflexivity|discriminate]|].
      destruct (is_empty (mutant q)) eqn:Hm;
        [left; exists MissingFields; unfold resolve; rewrite Hp, Hs, Ho, Hm;
         split; [reflexivity|discriminate]|].
      destruct ((p <? 1) || (Z.of_nat (String.length (sequence q)) <? p))%bool
        eqn:E.
      + left. exists (OutOfRange p (String.length (sequence q))).
        unfold resolve. rewrite Hp, Hs, Ho, Hm, E.
        split; [reflexivity|discriminate].
      + apply orb_false_iff in E as [E1 E2]. apply Z.ltb_ge in E1, E2.
        assert (Hr : 1 <= p <= Z.of_nat (String.length (sequence q))) by lia.
        destruct (resolve_in_range q Hp Hs Ho Hm Hr) as (actual & Ha & Heq).
        right. exists p, actual. auto 10.
    - left. exists MissingFields. unfold resolve. rewrite Hp.
      split; [reflexivity|discriminate]. }
  assert (Hfin : forall rp cp nt,
             (Z.of_nat (String.length (sequence q)) <= 400 ->
              exists r, finish q rp cp nt = Resolved r)
             /\ (400 < Z.of_nat (String.length (sequence q)) ->
                 finish q rp cp nt
                 = Rejected (TooLong (String.length (sequence q))))).
  { intros rp cp nt. unfold finish.
    destruct (400 <? Z.of_nat (String.length (sequence q))) eqn:E.
    - apply Z.ltb_lt in E. split; [lia|reflexivity].
    - apply Z.ltb_ge in E. split; [eauto|lia]. }
  split; [|split].
  - destruct Hcases as [(f & -> & _) | (p & a & _ & _ & _ & _ & _ & _ & ->)];
      [discriminate|].
    destruct (same_residue (sequence q) (original q) (p - 1)).
    + unfold finish. destruct (400 <? _); discriminate.
    + destruct (search (sequence q) (original q) p offsets);
        [|discriminate].
      unfold finish. destruct (400 <? _); discriminate.
  - split.
    + intros [r Hr]. destruct (resolve_Resolved q Hr)
        as (p & Hp & _ & Ho & Hm & Hrange & Hlen & _ & Hcase).
      exists p. split; [assumption|].
      split; [now apply Hempty|]. split; [now apply Hempty|].
      split; [lia|]. split; [lia|].
      destruct Hcase as [(Hs & _) | (_ & Hsearch & _)].
      * exists p. split; [lia|assumption].
      * pose proof (search_offsets (sequence q) (original q) p) as Hspec.
        rewrite Hsearch in Hspec. destruct Hspec as (_ & Hwin & Hres & _).
        eauto.
    + intros (p & Hp & Ho & Hm & Hrange & Hlen & j & Hj & Hres).
      apply Hempty in Ho, Hm.
      assert (Hs : is_empty (sequence q) = false).
      { destruct (sequence q); [simpl in Hrange; lia|reflexivity]. }
      destruct (resolve_in_range q Hp Hs Ho Hm Hrange) as (actual & _ & Heq).
      rewrite Heq.
      destruct (same_residue (sequence q) (original q) (p - 1)) eqn:Es.
      * apply Hfin. lia.
      * pose proof (search_offsets (sequence q) (original q) p) as Hspec.
        destruct (search (sequence q) (original q) p offsets) as [rp|].
        -- apply Hfin. lia.
        -- destruct (Z.eq_dec j p) as [->|Hjp]; [congruence|].
           rewrite (Hspec j Hj Hjp) in Hres. discriminate.
  - intros o p a H.
    destruct Hcases as [(f & Hf & Hnot) | (p' & a' & Hp' & _ & _ & _ & _ & Ha' & Heq)].
    + rewrite Hf in H. injection H as ->. now destruct (Hnot o p a).
    + rewrite Heq in H.
      destruct (same_residue (sequence q) (original q) (p' - 1)) eqn:Es.
      * unfold finish in H. destruct (400 <? _); discriminate.
      * pose proof (search_offsets (sequence q) (original q) p') as Hspec.
        destruct (search (sequence q) (original q) p' offsets) as [rp|].
        -- unfold finish in H. destruct (400 <? _); discriminate.
        -- injection H as <- <- <-. repeat split; auto.
           intros j Hj. destruct (Z.eq_dec j p') as [->|Hjp]; auto.
Qed.

Lemma resolve_accepts_witness :
  let q := {| sequence := "MEEPQSDPSV"; position := Some 3;
              original := "V"; mutant := "K" |} in
  resolve q = Rejected (NotFound "V" 3 "E")
  /\ forall j, 3 - 5 <= j <= 3 + 5 ->
       same_residue (sequence q) (original q) (j - 1) = false.
Proof.
  intros q.
  assert (H : resolve q = Rejected (NotFound "V" 3 "E")) by reflexivity.
  split; [exact H|].
  destruct (@resolve_accepts q eq_refl eq_refl) as (_ & _ & Hnot).
  destruct (Hnot _ _ _ H) as (_ & _ & _ & Hwin). exact Hwin.
Defined.

(** X17.  The mutant sequence is the sequence with the one unit at the
    resolved position replaced by the whole [mutant] text in upper case:
    what stands before and after is kept, and the length changes by the
    length of [mutant] less one (the handler does not ask [mutant] to be one
    letter). *)
Theorem mutantSequence_replaces_residue (q : request) (r : resolution) :
  ascii_text (sequence q) = true -> ascii_text (original q) = true ->
  ascii_text (mutant q) = true ->
  resolve q = Resolved r ->
  exists before c after,
    sequence q = (before ++ String c after)%string
    /\ Z.of_nat (String.length before) = resolvedPosition r - 1
    /\ String.eqb (toUpperCase (String c EmptyString))
                  (toUpperCase (original q)) = true
    /\ mutantSequence r
       = (before ++ toUpperCase (mutant q) ++ after)%string
    /\ (String.length (mutantSequence r) + 1
        = String.length (sequence q) + String.length (mutant q))%nat.
Proof.
  intros _ _ _ H.
  destruct (resolve_Resolved q H)
    as (p & Hp & _ & _ & _ & Hr & Hlen & Hmut & Hcase).
  assert (Hres : same_residue (sequence q) (original q) (resolvedPosition r - 1)
                 = true).
  { destruct Hcase as [(Hs & -> & _) | (_ & Hsearch & _)]; [assumption|].
    pose proof (search_offsets (sequence q) (original q) p) as Hspec.
    rewrite Hsearch in Hspec. apply Hspec. }
  pose proof (same_residue_in_range _ _ _ Hres) as Hin.
  destruct (@mutate_spec (sequence q) (mutant q) (resolvedPosition r)
              ltac:(lia)) as (before & c & after & Hs & Hl & Hi & Hm).
  exists before, c, after. repeat split; auto.
  - unfold same_residue in Hres. now rewrite Hi in Hres.
  - now rewrite Hmut.
  - rewrite Hmut, Hm. rewrite Hs at 1.
    rewrite !length_append, length_toUpperCase. simpl. lia.
Qed.

Lemma mutantSequence_replaces_residue_witness :
  let q := {| sequence := "MEEPQSDPSV"; position := Some 5;
              original := "P"; mutant := "kk" |} in
  exists r before c after,
    resolve q = Resolved r
    /\ sequence q = (before ++ String c after)%string
    /\ Z.of_nat (String.length before) = resolvedPosition r - 1
    /\ mutantSequence r = (before ++ "KK" ++ after)%string
    /\ (String.length (mutantSequence r) + 1 = 10 + 2)%nat.
Proof.
  intros q.
  set (r := {| resolvedPosition := 4; correctedPosition := Some 4;
               note := Some "Note: P found at position 4 instead of 5 (common numbering offset)."%string;
               mutantSequence := "MEEKKQSDPSV"%string |}).
  assert (H : resolve q = Resolved r) by reflexivity.
  destruct (@mutantSequence_replaces_residue q r eq_refl eq_refl eq_refl H)
    as (before & c & after & Hs & Hl & _ & Hm & Hlen).
  exists r, before, c, after. auto.
Defined.

End PositionCheck.
